(** * SelfObject: a prototype-based object model

    A shallow embedding of the JavaScript class [SelfObject] and of its
    three iterations found in the repository:

    - [src/SelfObject.js], first text (lines 1-159): breadth-first parent
      search, message chains threaded through the previous result, native
      functions called with [(this, this.slots['parameter'])];
    - [src/SelfObject.js], second text (lines 160-326): the same, native
      functions called with [(this)] only;
    - [src/unnamed/part_000]: depth-first recursive parent search, message
      chains sent to the copy, native functions called with [(this.copy())].

    JavaScript objects are mutable and shared, so the model has a heap.
    Every container the class allocates ([{}], [new Set()], [[]]) is a heap
    cell of its own, and a [SelfObject] holds the locations of its three
    containers: aliasing between an object and its copy is a fact to be
    proved, not something the types rule out.

    The constructor's [this.slots = {}] is a plain object: a read
    [slots[name]] that finds no key of its own goes on to
    [Object.prototype], whose members ([toString], [constructor],
    [__proto__], ...) are truthy, and [slots["__proto__"] = v] calls the
    setter found there, which sets the prototype of the object and writes
    no key. The model has both. Of a [{}] whose prototype was set in this
    way, [copy] reads the keys and [makeParent] reads a key, [__proto__],
    and anything under the prototype [null]; what a dispatch, [evaluate],
    [assignSlot] or a native function would read or write through such a
    prototype is not followed: the run ends there with [NotModelled],
    which no theorem states of a run. Numbers are integers; [messages]
    and [parents] hold strings. *)

From Stdlib Require Import ZArith Lia.
From stdpp Require Import base option list gmap strings.

Open Scope string_scope.
Open Scope nat_scope.
Open Scope list_scope.

(** ** Values and the heap *)

Abbreviation Loc := nat (only parsing).

(** A JavaScript value. [VFun f] is the function of number [f], a native
    function of the program or a built-in of the language, and [VRef l]
    the object stored at location [l]. *)
Inductive Value :=
  | VUndefined
  | VNull
  | VBool (b : bool)
  | VNum (z : Z)
  | VStr (s : string)
  | VFun (f : nat)
  | VRef (l : Loc).

#[global] Instance Value_eq_dec : EqDecision Value.
Proof. solve_decision. Defined.

(** JavaScript's ToBoolean: what [if (v)] and [!v] test. *)
Definition truthy (v : Value) : bool :=
  match v with
  | VUndefined | VNull => false
  | VBool b => b
  | VNum z => negb (z =? 0)%Z
  | VStr s => negb (String.eqb s "")
  | VFun _ | VRef _ => true
  end.

(** [v !== null] *)
Definition not_null (v : Value) : bool :=
  match v with VNull => false | _ => true end.

(** The five fields the constructor sets. *)
Record SelfObject := mkSelfObject {
  slots : Loc;        (* {}: name -> object *)
  parents : Loc;      (* new Set(): parent slot names *)
  messages : Loc;     (* []: list of messages *)
  primitive : Value;
  primitiveFn : Value
}.

(** A [{}] is [CSlots m], [m] its own keys, as long as its prototype is
    [Object.prototype], and [CSlotsProto proto m] once [__proto__] has set
    its prototype to [proto]. *)
Inductive Cell :=
  | CSelf (o : SelfObject)
  | CSlots (m : gmap string Value)
  | CSet (names : list string)      (* a Set, in insertion order *)
  | CArr (names : list string)
  | CSlotsProto (proto : Value) (m : gmap string Value).

Abbreviation Heap := (list Cell) (only parsing).

(** ** Results: a state and error monad with a fuel bound *)

Inductive Error :=
  | MessageNotFound (msg : string)   (* Error(`Message '${msg}' not found`) *)
  | TypeError                        (* a method called on what has none *)
  | BadHeap                          (* a location that holds no such cell *)
  | NotModelled.                     (* a read through a prototype that was set *)

Inductive Result (A : Type) :=
  | Ret (a : A) (h : Heap)
  | Throw (e : Error) (h : Heap)
  | OutOfFuel.
Arguments Ret {A} a h.
Arguments Throw {A} e h.
Arguments OutOfFuel {A}.

Definition M (A : Type) : Type := Heap -> Result A.

Definition ret {A} (a : A) : M A := fun h => Ret a h.
Definition throw {A} (e : Error) : M A := fun h => Throw e h.
Definition out_of_fuel {A} : M A := fun _ => OutOfFuel.
Definition bind {A B} (m : M A) (k : A -> M B) : M B :=
  fun h =>
    match m h with
    | Ret a h' => k a h'
    | Throw e h' => Throw e h'
    | OutOfFuel => OutOfFuel
    end.

Notation "'let*' x ':=' m 'in' k" := (bind m (fun x => k))
  (at level 10, x pattern, m at level 100, k at level 200).

Definition alloc (c : Cell) : M Loc :=
  fun h => Ret (length h) (h ++ [c]).

Definition load (l : Loc) : M Cell :=
  fun h => match h !! l with Some c => Ret c h | None => Throw BadHeap h end.

Definition store (l : Loc) (c : Cell) : M unit :=
  fun h => match h !! l with
           | Some _ => Ret tt (<[l := c]> h)
           | None => Throw BadHeap h
           end.

Definition load_self (l : Loc) : M SelfObject :=
  let* c := load l in
  match c with CSelf o => ret o | _ => throw TypeError end.

(** The [{}] at [l], for a read or a write of one of its properties by a
    dispatch, [evaluate], [assignSlot] or a native function. *)
Definition load_slots (l : Loc) : M (gmap string Value) :=
  let* c := load l in
  match c with
  | CSlots m => ret m
  | CSlotsProto _ _ => throw NotModelled
  | _ => throw BadHeap
  end.

(** The own keys of the [{}] at [l]: what [{ ...slots }] reads. *)
Definition load_own_keys (l : Loc) : M (gmap string Value) :=
  let* c := load l in
  match c with
  | CSlots m | CSlotsProto _ m => ret m
  | _ => throw BadHeap
  end.

Definition load_set (l : Loc) : M (list string) :=
  let* c := load l in
  match c with CSet s => ret s | _ => throw BadHeap end.

Definition load_arr (l : Loc) : M (list string) :=
  let* c := load l in
  match c with CArr a => ret a | _ => throw BadHeap end.

(** [v.method(...)]: the receiver must be a [SelfObject]. *)
Definition as_self (v : Value) : M Loc :=
  match v with
  | VRef l => let* _ := load_self l in ret l
  | _ => throw TypeError
  end.

(** ** [Object.prototype] *)

(** The property names of [Object.prototype], as
    [Object.getOwnPropertyNames] lists them. *)
Definition Object_prototype_names : list string :=
  ["constructor"; "__defineGetter__"; "__defineSetter__"; "hasOwnProperty";
   "__lookupGetter__"; "__lookupSetter__"; "isPrototypeOf";
   "propertyIsEnumerable"; "toString"; "valueOf"; "__proto__";
   "toLocaleString"].

Fixpoint index_of (name : string) (names : list string) : option nat :=
  match names with
  | [] => None
  | n :: names => if String.eqb name n then Some 0 else S <$> index_of name names
  end.

(** [Object.prototype[name]]: a built-in function for eleven of the
    names, and for [__proto__] the value its getter returns on a [{}],
    [Object.prototype] itself. All twelve are truthy and none is a
    [SelfObject]; the model numbers them from 100 on, with the functions,
    and the table of native functions of an engine says what a call of
    one of them does. Any other name reads [undefined]. *)
Definition Object_prototype (name : string) : Value :=
  match index_of name Object_prototype_names with
  | Some i => VFun (100 + i)
  | None => VUndefined
  end.

(** [m[name]] on a [{}] with the own keys [m]: the own property, or else
    the one inherited from [Object.prototype]. *)
Definition get_prop (m : gmap string Value) (name : string) : Value :=
  match m !! name with
  | Some v => v
  | None => Object_prototype name
  end.

(** What the setter of [__proto__] takes for a prototype: an object or
    [null]. Any other value is ignored. *)
Definition object_or_null (v : Value) : bool :=
  match v with
  | VNull | VFun _ | VRef _ => true
  | _ => false
  end.

(** [m[name] = obj] on a [{}] with the own keys [m], as the cell it
    leaves. [__proto__] is an accessor of [Object.prototype]: unless the
    object has a key of that name, the assignment calls the setter, which
    sets the prototype and writes no key. *)
Definition set_prop (m : gmap string Value) (name : string) (obj : Value) : Cell :=
  if decide (name = "__proto__" ∧ m !! name = None) then
    if object_or_null obj && negb (bool_decide (obj = Object_prototype "__proto__"))
    then CSlotsProto obj m
    else CSlots m
  else CSlots (<[name := obj]> m).

(** [s.add(name)] on a Set kept in insertion order. *)
Definition set_add (name : string) (s : list string) : list string :=
  if decide (name ∈ s) then s else s ++ [name].

(** [visited.has(current)] for a set of objects. *)
Definition has (visited : list Loc) (v : Value) : bool :=
  match v with
  | VRef l => bool_decide (l ∈ visited)
  | _ => false
  end.

(** [slots[name]] for the [{}] at [l]. Where [__proto__] has set its
    prototype to [proto], a key of its own is read as ever; with [null]
    for a prototype nothing is inherited; and [__proto__], an accessor
    that every object hands down, reads the prototype. What else is
    inherited through [proto] is not modelled. *)
Definition cell_prop (c : Cell) (name : string) : M Value :=
  match c with
  | CSlots m => ret (get_prop m name)
  | CSlotsProto proto m =>
    match m !! name with
    | Some v => ret v
    | None =>
      if decide (proto = VNull) then ret VUndefined
      else if decide (name = "__proto__") then ret proto
      else throw NotModelled
    end
  | _ => throw BadHeap
  end.

Definition read_prop (l : Loc) (name : string) : M Value :=
  let* c := load l in cell_prop c name.

(** ** Construction and copy *)

(** [new SelfObject()]. The three containers are allocated before the
    object that holds them; the order shows in the locations only. *)
Definition new_SelfObject : M Loc :=
  let* s := alloc (CSlots ∅) in
  let* p := alloc (CSet []) in
  let* m := alloc (CArr []) in
  alloc (CSelf (mkSelfObject s p m VNull VNull)).

Definition update_self (l : Loc) (f : SelfObject -> SelfObject) : M unit :=
  let* o := load_self l in store l (CSelf (f o)).

Definition with_slots (s : Loc) (o : SelfObject) : SelfObject :=
  mkSelfObject s (parents o) (messages o) (primitive o) (primitiveFn o).
Definition with_parents (p : Loc) (o : SelfObject) : SelfObject :=
  mkSelfObject (slots o) p (messages o) (primitive o) (primitiveFn o).
Definition with_messages (m : Loc) (o : SelfObject) : SelfObject :=
  mkSelfObject (slots o) (parents o) m (primitive o) (primitiveFn o).
Definition with_primitive (v : Value) (o : SelfObject) : SelfObject :=
  mkSelfObject (slots o) (parents o) (messages o) v (primitiveFn o).
Definition with_primitiveFn (v : Value) (o : SelfObject) : SelfObject :=
  mkSelfObject (slots o) (parents o) (messages o) (primitive o) v.

(** [copy()], the same text in the three iterations. *)
Definition copy (this : Loc) : M Loc :=
  let* newObj := new_SelfObject in
  let* o := load_self this in
  let* sl := load_own_keys (slots o) in
  let* s := alloc (CSlots sl) in                 (* { ...this.slots } *)
  let* _ := update_self newObj (with_slots s) in
  let* o := load_self this in
  let* ps := load_set (parents o) in
  let* p := alloc (CSet ps) in                   (* new Set(this.parents) *)
  let* _ := update_self newObj (with_parents p) in
  let* o := load_self this in
  let* ms := load_arr (messages o) in
  let* m := alloc (CArr ms) in                   (* [...this.messages] *)
  let* _ := update_self newObj (with_messages m) in
  let* o := load_self this in
  let* _ := update_self newObj (with_primitive (primitive o)) in
  let* o := load_self this in
  let* _ := update_self newObj (with_primitiveFn (primitiveFn o)) in
  ret newObj.

(** ** The mutation API, the same text in the three iterations *)

Definition assignSlot (this : Loc) (name : string) (obj : Value) : M unit :=
  let* o := load_self this in
  let* sl := load_slots (slots o) in
  store (slots o) (set_prop sl name obj).

Definition makeParent (this : Loc) (name : string) : M unit :=
  let* o := load_self this in
  let* v := read_prop (slots o) name in
  if truthy v then
    let* ps := load_set (parents o) in
    store (parents o) (CSet (set_add name ps))
  else ret tt.

Definition assignParentSlot (this : Loc) (name : string) (obj : Value) : M unit :=
  let* _ := assignSlot this name obj in
  makeParent this name.

(** The field writes of the drivers under "Example usage":
    [obj.primitive = v], [obj.primitiveFn = f], [obj.messages.push(name)]. *)
Definition set_primitive (this : Loc) (v : Value) : M unit :=
  update_self this (with_primitive v).

Definition set_primitiveFn (this : Loc) (f : Value) : M unit :=
  update_self this (with_primitiveFn f).

Definition push_message (this : Loc) (name : string) : M unit :=
  let* o := load_self this in
  let* ms := load_arr (messages o) in
  store (messages o) (CArr (ms ++ [name])).

(** The heap a driver script builds from nothing. *)
Definition built {A} (script : M A) : Heap :=
  match script [] with
  | Ret _ h | Throw _ h => h
  | OutOfFuel => []
  end.

(** ** The engine of [src/SelfObject.js] *)

(** The file holds two texts of the class; they differ in one line of
    [evaluate], the call of the native function. *)
Inductive Edition :=
  | First      (* lines 1-159: this.primitiveFn(this, this.slots['parameter']) *)
  | Second.    (* lines 160-326: this.primitiveFn(this) *)

Module SelfObjectJs.
Section Engine.

(** The native functions, by number: each receives its [this], its
    arguments and the heap. *)
Variable native : nat -> Value -> list Value -> M Value.
Variable edition : Edition.

(** [f(args)] with [this] bound to [thisArg]. *)
Definition call (f : Value) (thisArg : Value) (args : list Value) : M Value :=
  match f with
  | VFun n => native n thisArg args
  | _ => throw TypeError
  end.

(** The [while (queue.length > 0)] loop of [sendAMessage] and of
    [sendAMessageWithParameters], up to the slot it finds: [Some v] where
    the source goes on with [current.slots[name]], [None] where it leaves
    the loop. One unit of fuel per iteration. The loop's variable
    [visited] is returned with the result (the source drops it): it lists
    the objects the loop has looked into, the last one first. *)
Fixpoint search (fuel : nat) (name : string) (visited : list Loc)
    (queue : list Value) : M (option Value * list Loc) :=
  match fuel with
  | 0 => out_of_fuel
  | S fuel =>
    match queue with
    | [] => ret (None, visited)
    | current :: queue =>                                   (* queue.shift() *)
      if negb (truthy current) || has visited current
      then search fuel name visited queue                   (* continue *)
      else
        let* l := as_self current in
        let* o := load_self l in
        let* sl := load_slots (slots o) in
        if truthy (get_prop sl name)
        then ret (Some (get_prop sl name), l :: visited)
        else
          let* ps := load_set (parents o) in
          search fuel name (l :: visited) (queue ++ map (get_prop sl) ps)
    end
  end.

(** [evaluate] and [sendAMessage]; [chain] is the [for (const msg of
    this.messages)] loop of [evaluate], which reads the array [arr] at
    index [i] as the iterator does. *)
Fixpoint evaluate (fuel : nat) (this : Loc) {struct fuel} : M Value :=
  match fuel with
  | 0 => out_of_fuel
  | S fuel =>
    let* o := load_self this in
    if not_null (primitive o) then
      let* c := copy this in ret (VRef c)
    else if truthy (primitiveFn o) then
      match edition with
      | First =>
        let* sl := load_slots (slots o) in
        call (primitiveFn o) (VRef this) [VRef this; get_prop sl "parameter"]
      | Second =>
        call (primitiveFn o) (VRef this) [VRef this]
      end
    else
      let* msgs := load_arr (messages o) in
      if (0 <? length msgs)%nat then
        let* currentObj := copy this in
        chain fuel (messages o) 0 (VRef currentObj) VNull
      else ret (VRef this)
  end
with sendAMessage (fuel : nat) (this : Loc) (name : string) {struct fuel} : M Value :=
  match fuel with
  | 0 => out_of_fuel
  | S fuel =>
    let* o := load_self this in
    let* sl := load_slots (slots o) in
    if truthy (get_prop sl name) then
      let* target := as_self (get_prop sl name) in
      evaluate fuel target
    else
      let* ps := load_set (parents o) in
      let* found := search fuel name [] (map (get_prop sl) ps) in
      match found.1 with
      | Some v => let* target := as_self v in evaluate fuel target
      | None => ret VNull
      end
  end
with chain (fuel : nat) (arr : Loc) (i : nat) (currentObj result : Value)
    {struct fuel} : M Value :=
  match fuel with
  | 0 => out_of_fuel
  | S fuel =>
    let* msgs := load_arr arr in
    match msgs !! i with
    | None => ret result
    | Some msg =>
      let* receiver := as_self currentObj in
      let* result := sendAMessage fuel receiver msg in
      if truthy result then chain fuel arr (S i) result result
      else throw (MessageNotFound msg)
    end
  end.

(** [const target = v.copy(); target.slots["parameter"] = paramObj]. The
    slots of [target] are the [{}] that [copy] has just made, and
    ["parameter"] is no accessor: the assignment writes the key. *)
Definition bind_parameter (v paramObj : Value) : M Loc :=
  let* source := as_self v in
  let* target := copy source in
  let* o := load_self target in
  let* sl := load_slots (slots o) in
  let* _ := store (slots o) (CSlots (<["parameter" := paramObj]> sl)) in
  ret target.

Definition sendAMessageWithParameters (fuel : nat) (this : Loc) (name : string)
    (paramObj : Value) : M Value :=
  let* o := load_self this in
  let* sl := load_slots (slots o) in
  if truthy (get_prop sl name) then
    let* target := bind_parameter (get_prop sl name) paramObj in
    evaluate fuel target
  else
    let* ps := load_set (parents o) in
    let* found := search fuel name [] (map (get_prop sl) ps) in
    match found.1 with
    | Some v =>
      let* target := bind_parameter v paramObj in
      evaluate fuel target
    | None => ret VNull
    end.

End Engine.
End SelfObjectJs.

(** ** The engine of [src/unnamed/part_000] *)

Module Part000.
Section Engine.

Variable native : nat -> Value -> list Value -> M Value.

Definition call (f : Value) (thisArg : Value) (args : list Value) : M Value :=
  match f with
  | VFun n => native n thisArg args
  | _ => throw TypeError
  end.

(** [visited] is the Set the recursion shares: it goes in and comes back.
    [each_parent] is the [for (const parentName of this.parents)] loop of
    [sendAMessage], [each_message] the [for (const msg of copy.messages)]
    loop of [evaluate]. *)
Fixpoint evaluate (fuel : nat) (this : Loc) {struct fuel} : M Value :=
  match fuel with
  | 0 => out_of_fuel
  | S fuel =>
    let* o := load_self this in
    if not_null (primitive o) then
      let* c := copy this in ret (VRef c)
    else if not_null (primitiveFn o) then
      let* c := copy this in
      call (primitiveFn o) (VRef this) [VRef c]
    else
      let* msgs := load_arr (messages o) in
      if (0 <? length msgs)%nat then
        let* c := copy this in
        let* co := load_self c in
        each_message fuel c (messages co) 0 (VRef c)
      else ret (VRef this)
  end
with sendAMessage (fuel : nat) (this : Loc) (name : string) (visited : list Loc)
    {struct fuel} : M (Value * list Loc) :=
  match fuel with
  | 0 => out_of_fuel
  | S fuel =>
    let* o := load_self this in
    let* sl := load_slots (slots o) in
    if truthy (get_prop sl name) then
      let* target := as_self (get_prop sl name) in
      let* r := evaluate fuel target in
      ret (r, visited)
    else
      each_parent fuel this (parents o) 0 name (this :: visited)
  end
with each_parent (fuel : nat) (this : Loc) (set : Loc) (i : nat) (name : string)
    (visited : list Loc) {struct fuel} : M (Value * list Loc) :=
  match fuel with
  | 0 => out_of_fuel
  | S fuel =>
    let* names := load_set set in
    match names !! i with
    | None => ret (VNull, visited)
    | Some parentName =>
      let* o := load_self this in
      let* sl := load_slots (slots o) in
      let parent := get_prop sl parentName in
      if truthy parent && negb (has visited parent) then
        let* p := as_self parent in
        let* (result, visited) := sendAMessage fuel p name visited in
        if truthy result then ret (result, visited)
        else each_parent fuel this set (S i) name visited
      else each_parent fuel this set (S i) name visited
    end
  end
with each_message (fuel : nat) (copy : Loc) (arr : Loc) (i : nat) (result : Value)
    {struct fuel} : M Value :=
  match fuel with
  | 0 => out_of_fuel
  | S fuel =>
    let* msgs := load_arr arr in
    match msgs !! i with
    | None => ret result
    | Some msg =>
      let* (result, _) := sendAMessage fuel copy msg [] in
      each_message fuel copy arr (S i) result
    end
  end.

(** [receiver.sendAMessage(name)] as a caller writes it: [visited] takes
    its default, [new Set()]. *)
Definition dispatch (fuel : nat) (this : Loc) (name : string) : M Value :=
  let* r := sendAMessage fuel this name [] in ret r.1.

Definition bind_parameter (v paramObj : Value) : M Loc :=
  let* source := as_self v in
  let* target := copy source in
  let* o := load_self target in
  let* sl := load_slots (slots o) in
  let* _ := store (slots o) (CSlots (<["parameter" := paramObj]> sl)) in
  ret target.

(** No visited set here: the recursion follows every parent. *)
Fixpoint sendAMessageWithParameters (fuel : nat) (this : Loc) (name : string)
    (paramObj : Value) {struct fuel} : M Value :=
  match fuel with
  | 0 => out_of_fuel
  | S fuel =>
    let* o := load_self this in
    let* sl := load_slots (slots o) in
    if truthy (get_prop sl name) then
      let* target := bind_parameter (get_prop sl name) paramObj in
      evaluate fuel target
    else
      each_parent_with fuel this (parents o) 0 name paramObj
  end
with each_parent_with (fuel : nat) (this : Loc) (set : Loc) (i : nat)
    (name : string) (paramObj : Value) {struct fuel} : M Value :=
  match fuel with
  | 0 => out_of_fuel
  | S fuel =>
    let* names := load_set set in
    match names !! i with
    | None => ret VNull
    | Some parentName =>
      let* o := load_self this in
      let* sl := load_slots (slots o) in
      let* result :=
        match get_prop sl parentName with
        | VUndefined | VNull => ret VUndefined               (* parent?. *)
        | parent =>
          let* p := as_self parent in
          sendAMessageWithParameters fuel p name paramObj
        end in
      if truthy result then ret result
      else each_parent_with fuel this set (S i) name paramObj
    end
  end.

End Engine.
End Part000.

(** ** Example objects *)

(** No native function at all. *)
Definition no_native : nat → Value → list Value → M Value :=
  λ _ _ _, throw TypeError.

(** Two native functions: [(self, param) => param] and
    [() => new SelfObject()]. *)
Definition example_native (n : nat) (this : Value) (args : list Value) : M Value :=
  match n with
  | 0 => ret (default VUndefined (args !! 1))
  | 1 => let* o := new_SelfObject in ret (VRef o)
  | _ => throw TypeError
  end.

(** The driver of [SelfObject.js], but for [objA.primitive]: [objA] (at 3)
    has the messages ["b"] and ["c"], the slot [b] is [objB] (at 7) and the
    parent slot [c] is [objC] (at 11). *)
Definition chain_script : M unit :=
  let* objA := new_SelfObject in
  let* objB := new_SelfObject in
  let* objC := new_SelfObject in
  let* _ := set_primitive objB (VStr "I am B") in
  let* _ := set_primitive objC (VStr "I am C") in
  let* _ := assignSlot objA "b" (VRef objB) in
  let* _ := assignParentSlot objA "c" (VRef objC) in
  let* _ := push_message objA "b" in
  push_message objA "c".

Definition chain_world : Heap := Eval vm_compute in built chain_script.

(** [objA] (at 3) has the messages ["zzz"] and ["b"]; its only slot is
    [b], which holds [objB] (at 7). *)
Definition missing_script : M unit :=
  let* objA := new_SelfObject in
  let* objB := new_SelfObject in
  let* _ := set_primitive objB (VStr "I am B") in
  let* _ := assignSlot objA "b" (VRef objB) in
  let* _ := push_message objA "zzz" in
  push_message objA "b".

Definition missing_world : Heap := Eval vm_compute in built missing_script.

(** An object (at 3) with the native function 0 and a ["parameter"] slot
    that holds another object (at 7). *)
Definition native_script : M unit :=
  let* f := new_SelfObject in
  let* p := new_SelfObject in
  let* _ := set_primitiveFn f (VFun 0) in
  assignSlot f "parameter" (VRef p).

Definition native_world : Heap := Eval vm_compute in built native_script.

(** [A] (at 3) has the parents [B] (at 7) and [C] (at 11), in that order;
    [B] has the parent [D] (at 15); [D] holds [x] and [y], both the object
    of primitive 1 (at 19), and [C] holds [x], the object of primitive 2
    (at 23). *)
Definition grandparent_script : M unit :=
  let* a := new_SelfObject in
  let* b := new_SelfObject in
  let* c := new_SelfObject in
  let* d := new_SelfObject in
  let* x1 := new_SelfObject in
  let* x2 := new_SelfObject in
  let* _ := set_primitive x1 (VNum 1) in
  let* _ := set_primitive x2 (VNum 2) in
  let* _ := assignParentSlot a "b" (VRef b) in
  let* _ := assignParentSlot a "c" (VRef c) in
  let* _ := assignParentSlot b "d" (VRef d) in
  let* _ := assignSlot d "x" (VRef x1) in
  let* _ := assignSlot d "y" (VRef x1) in
  assignSlot c "x" (VRef x2).

Definition grandparent_world : Heap := Eval vm_compute in built grandparent_script.

(** A diamond with a cycle: [A] (at 3) has the parents [B] (at 7) and [C]
    (at 11), both have the parent [D] (at 15), and [D] has the parent [A]. *)
Definition diamond_script : M unit :=
  let* a := new_SelfObject in
  let* b := new_SelfObject in
  let* c := new_SelfObject in
  let* d := new_SelfObject in
  let* _ := assignParentSlot a "b" (VRef b) in
  let* _ := assignParentSlot a "c" (VRef c) in
  let* _ := assignParentSlot b "d" (VRef d) in
  let* _ := assignParentSlot c "d" (VRef d) in
  assignParentSlot d "a" (VRef a).

Definition diamond_world : Heap := Eval vm_compute in built diamond_script.

(** An object (at 3) whose slot [n] holds the number 0. *)
Definition falsy_script : M unit :=
  let* o := new_SelfObject in
  assignSlot o "n" (VNum 0).

Definition falsy_world : Heap := Eval vm_compute in built falsy_script.

(** ** Reading the heap *)

(** The object at [l], with the contents of its three containers. *)
Definition object_at (h : Heap) (l : Loc) (o : SelfObject)
    (sl : gmap string Value) (ps ms : list string) : Prop :=
  h !! l = Some (CSelf o) ∧ h !! slots o = Some (CSlots sl) ∧
  h !! parents o = Some (CSet ps) ∧ h !! messages o = Some (CArr ms).

(** The fields of the object at [l]. *)
Definition self_at (h : Heap) (l : Loc) : option SelfObject :=
  match h !! l with Some (CSelf o) => Some o | _ => None end.

(** [l.slots], [l.parents], [l.messages] as they stand in [h]. *)
Definition slots_of (h : Heap) (l : Loc) : option (gmap string Value) :=
  o ← self_at h l;
  match h !! slots o with Some (CSlots m) => Some m | _ => None end.

Definition parents_of (h : Heap) (l : Loc) : option (list string) :=
  o ← self_at h l;
  match h !! parents o with Some (CSet s) => Some s | _ => None end.

Definition messages_of (h : Heap) (l : Loc) : option (list string) :=
  o ← self_at h l;
  match h !! messages o with Some (CArr a) => Some a | _ => None end.

(** The own keys of the [{}] at [l], whatever its prototype. *)
Definition own_keys_at (h : Heap) (l : Loc) : option (gmap string Value) :=
  match h !! l with
  | Some (CSlots m) | Some (CSlotsProto _ m) => Some m
  | _ => None
  end.

(** [l.slots[name]], for slots with the prototype of every [{}]. *)
Definition slot_of (h : Heap) (l : Loc) (name : string) : option Value :=
  m ← slots_of h l; Some (get_prop m name).

(** [h'] has every cell of [h], unchanged, and maybe more cells after
    them. *)
Definition extends (h h' : Heap) : Prop := ∃ k, h' = h ++ k.

(** What holds of a result: [Q] of a returned value, [E] of the heap an
    exception leaves. *)
Definition post {A} (r : Result A) (Q : A → Heap → Prop) (E : Heap → Prop) : Prop :=
  match r with
  | Ret a h => Q a h
  | Throw _ h => E h
  | OutOfFuel => True
  end.

(** The result leaves the cells of [h0] as they were. *)
Definition keeps {A} (h0 : Heap) (r : Result A) : Prop :=
  post r (λ _ h, extends h0 h) (extends h0).

(** [m] changes no cell that exists when it starts. *)
Definition framed {A} (m : M A) : Prop :=
  ∀ h0 h, extends h0 h → keeps h0 (m h).

(** [m'] does what [m] does wherever [m] has fuel enough. *)
Definition refines {A} (m m' : M A) : Prop :=
  ∀ h, m h = OutOfFuel ∨ m' h = m h.

(** The seven cells [copy] allocates on [h] for the object [o]. *)
Definition copied (h : Heap) (o : SelfObject) (sl : gmap string Value)
    (ps ms : list string) : list Cell :=
  [CSlots ∅; CSet []; CArr [];
   CSelf (mkSelfObject (length h + 4) (length h + 5) (length h + 6)
            (primitive o) (primitiveFn o));
   CSlots sl; CSet ps; CArr ms].

(** ** Statements about [copy] and the parameter *)

(** [l.slots[name].slots[n]]: a slot of a referenced sub-object, reached
    through [l]. *)
Definition slot_through (h : Heap) (l : Loc) (name n : string) : option Value :=
  match slot_of h l name with
  | Some (VRef r) => slot_of h r n
  | _ => None
  end.

(** The cells of the copy that receives the parameter. *)
Definition bound_copy (h : Heap) (o : SelfObject) (sl : gmap string Value)
    (ps ms : list string) (paramObj : Value) : list Cell :=
  [CSlots ∅; CSet []; CArr [];
   CSelf (mkSelfObject (length h + 4) (length h + 5) (length h + 6)
            (primitive o) (primitiveFn o));
   CSlots (<["parameter" := paramObj]> sl); CSet ps; CArr ms].

(** The heap a call leaves, returning or throwing. *)
Definition ends_in {A} (r : Result A) (h : Heap) : Prop :=
  match r with
  | Ret _ h' | Throw _ h' => h' = h
  | OutOfFuel => False
  end.

(** Any number of calls of [send], one after the other, with any
    receivers, names and parameters. *)
Inductive after_calls (send : nat → Loc → string → Value → M Value) :
    Heap → Heap → Prop :=
  | after_none h : after_calls send h h
  | after_call h fuel this name paramObj h1 h2 :
      ends_in (send fuel this name paramObj h) h1 →
      after_calls send h1 h2 →
      after_calls send h h2.

(** C4 as the claim states it, of an [evaluate]: the native function is
    called on the object and the value of its ["parameter"] slot. *)
Definition calls_native_with_parameter
    (native : nat → Value → list Value → M Value)
    (evaluate : nat → Loc → M Value) : Prop :=
  ∀ fuel h this o sl ps ms f,
    object_at h this o sl ps ms →
    primitive o = VNull → primitiveFn o = VFun f →
    evaluate (S fuel) this h =
      native f (VRef this) [VRef this; get_prop sl "parameter"] h.

(** ** Statements about message chains *)

(** Spec, 4.3 step 3, in its words: starting from [current], each name is
    sent to the result of the one before, every dispatch yields a match,
    and [result] is what the last one returns. *)
Fixpoint threaded (send : nat → Loc → string → M Value) (names : list string)
    (current : Value) (h : Heap) (result : Value) (h' : Heap) : Prop :=
  match names with
  | [] => result = current ∧ h' = h
  | name :: names =>
    ∃ fuel receiver next h1,
      current = VRef receiver ∧
      send fuel receiver name h = Ret next h1 ∧
      truthy next = true ∧
      threaded send names next h1 result h'
  end.

(** What [part_000] does with a chain: every name is sent to the copy,
    whatever the dispatch before returned, and [result] is what the last
    one returns. *)
Fixpoint sent_to_copy (send : nat → Loc → string → M Value) (names : list string)
    (copy : Loc) (h : Heap) (last : Value) (result : Value) (h' : Heap) : Prop :=
  match names with
  | [] => result = last ∧ h' = h
  | name :: names =>
    ∃ fuel next h1,
      send fuel copy name h = Ret next h1 ∧
      sent_to_copy send names copy h1 next result h'
  end.

(** C1 as the claim states it, of an [evaluate] and its [send]: the
    object with messages only evaluates to [result] exactly when the chain
    threaded from its copy ends in [result]. *)
Definition chain_is_threaded (evaluate : nat → Loc → M Value)
    (send : nat → Loc → string → M Value) : Prop :=
  ∀ h this o sl ps ms result h',
    object_at h this o sl ps ms →
    primitive o = VNull → primitiveFn o = VNull → ms ≠ [] →
    (∃ fuel, evaluate fuel this h = Ret result h') ↔
    (∃ c h0, copy this h = Ret c h0 ∧ threaded send ms (VRef c) h0 result h').

(** C2 as the claim states it: when the names before [name] thread from
    the copy to [receiver] and [receiver] has no match for [name],
    [evaluate] throws [MessageNotFound name] from the heap that dispatch
    leaves, and returns nothing, whatever the fuel. *)
Definition missing_message_fails (evaluate : nat → Loc → M Value)
    (send : nat → Loc → string → M Value) : Prop :=
  ∀ h this o sl ps pre name post c h0 receiver h1 fuel h2,
    object_at h this o sl ps (pre ++ name :: post) →
    primitive o = VNull → primitiveFn o = VNull →
    copy this h = Ret c h0 →
    threaded send pre (VRef c) h0 (VRef receiver) h1 →
    send fuel receiver name h1 = Ret VNull h2 →
    (∃ fuel0, ∀ fuel', fuel0 ≤ fuel' →
       evaluate fuel' this h = Throw (MessageNotFound name) h2) ∧
    (∀ fuel' result h', evaluate fuel' this h ≠ Ret result h').

(** ** Statements about the parent search *)

(** [scans h name visited level visited' next]: the search looks into
    the entries of [level] from left to right and reads a falsy
    [slots[name]] in each object it looks into; it skips the falsy entries
    and the objects already visited, marks the others, which leaves
    [visited'], and [next] lists the parents of those it marks, in order:
    what it has put at the back of the queue. *)
Inductive scans (h : Heap) (name : string) :
    list Loc → list Value → list Loc → list Value → Prop :=
  | scans_nil visited : scans h name visited [] visited []
  | scans_skip visited v level visited' next :
      truthy v = false ∨ has visited v = true →
      scans h name visited level visited' next →
      scans h name visited (v :: level) visited' next
  | scans_visit visited l o sl ps ms level visited' next :
      has visited (VRef l) = false →
      object_at h l o sl ps ms →
      truthy (get_prop sl name) = false →
      scans h name (l :: visited) level visited' next →
      scans h name visited (VRef l :: level) visited'
        (map (get_prop sl) ps ++ next).

(** The levels below [start], the receiver's parents: level 0 is [start],
    and the level after a level scanned without a match is what the scan
    has queued. *)
Inductive level_of (h : Heap) (name : string) (start : list Value) :
    nat → list Loc → list Value → Prop :=
  | level_0 : level_of h name start 0 [] start
  | level_S k visited level visited' next :
      level_of h name start k visited level →
      scans h name visited level visited' next →
      level_of h name start (S k) visited' next.

(** C3 as the claim states it for the direct parents: when
    [slots[name]] reads a falsy value in the receiver and in the parents
    declared before [a], and a truthy one in [a], the receiver answers
    with [a]'s slot, whatever the grandparents hold. *)
Definition direct_parent_first (send : nat → Loc → string → M Value)
    (evaluate : nat → Loc → M Value) : Prop :=
  ∀ h this o sl ps ms name pre a post visited next ao asl aps ams,
    object_at h this o sl ps ms → truthy (get_prop sl name) = false →
    map (get_prop sl) ps = pre ++ VRef a :: post →
    scans h name [] pre visited next →
    has visited (VRef a) = false →
    object_at h a ao asl aps ams → truthy (get_prop asl name) = true →
    ∃ n, ∀ fuel, n ≤ fuel →
      send (S fuel) this name h =
        (let* target := as_self (get_prop asl name) in evaluate fuel target) h.

(** The values of the parent slots of [l], in declaration order: what the
    search puts in its queue for [l]. *)
Definition parent_values (h : Heap) (l : Loc) : list Value :=
  match slots_of h l, parents_of h l with
  | Some sl, Some ps => map (get_prop sl) ps
  | _, _ => []
  end.

(** [l] is a parent of [this], or a parent of one of its ancestors. *)
Inductive ancestor (h : Heap) (this : Loc) : Loc → Prop :=
  | ancestor_parent l :
      VRef l ∈ parent_values h this → ancestor h this l
  | ancestor_step l l' :
      ancestor h this l → VRef l' ∈ parent_values h l → ancestor h this l'.

(** [l] is an object in which [slots[name]] reads a falsy value (the
    name is no key and no property of [Object.prototype], or a key that
    holds a falsy value), and its parent slots read objects or falsy
    values. *)
Definition lacks (h : Heap) (name : string) (l : Loc) : Prop :=
  ∃ o sl ps ms,
    object_at h l o sl ps ms ∧ truthy (get_prop sl name) = false ∧
    Forall (λ v, truthy v = false ∨ ∃ l', v = VRef l') (map (get_prop sl) ps).

(** A queue entry the search of a family of objects may meet: a falsy
    value or an object of the family. *)
Definition in_family (family : Loc → Prop) (v : Value) : Prop :=
  truthy v = false ∨ ∃ l, v = VRef l ∧ family l.

(** The fuel the objects not yet visited may still cost, [cost l] each. *)
Definition weight (cost : Loc → nat) (size : nat) (visited : list Loc) : nat :=
  sum_list_with (λ l, if decide (l ∈ visited) then 0 else cost l) (seq 0 size).

(** ** The drivers under "Example usage" *)

(** [v.primitive], a property read: it fails on [undefined] and [null],
    and a value that is no object has no such property. *)
Definition get_primitive (v : Value) : M Value :=
  match v with
  | VUndefined | VNull => throw TypeError
  | VRef l => let* o := load_self l in ret (primitive o)
  | _ => ret VUndefined
  end.

(** The objects the driver of [SelfObject.js] builds (lines 142-155 and
    309-322), for any three primitive values; the file has ["I am A"],
    ["I am B"] and ["I am C"]. [objA] is at 3, [objB] at 7, [objC] at 11. *)
Definition SelfObject_js_objects (pa pb pc : Value) : M Loc :=
  let* objA := new_SelfObject in
  let* _ := set_primitive objA pa in
  let* objB := new_SelfObject in
  let* _ := set_primitive objB pb in
  let* objC := new_SelfObject in
  let* _ := set_primitive objC pc in
  let* _ := assignSlot objA "b" (VRef objB) in
  let* _ := assignParentSlot objA "c" (VRef objC) in
  let* _ := push_message objA "b" in
  let* _ := push_message objA "c" in
  ret objA.

(** [const result = objA.evaluate(); ... result.primitive], with the
    [evaluate] of an iteration. *)
Definition SelfObject_js_example (evaluate : Loc → M Value) (pa pb pc : Value)
    : M Value :=
  let* objA := SelfObject_js_objects pa pb pc in
  let* result := evaluate objA in
  get_primitive result.

Section Part000Example.

(** [v + 1]. The model has integers only, and JavaScript's [+] also
    concatenates strings and yields [NaN]: the sum is left open. *)
Variable plus_one : Value → Value.

(** The native function of [addOne] (part_000, lines 111-116). *)
Definition addOne_primitiveFn (args : list Value) : M Value :=
  let self := default VUndefined (args !! 0) in
  let* s := as_self self in
  let* o := load_self s in
  let* sl := load_slots (slots o) in
  let param := get_prop sl "parameter" in
  let* result := new_SelfObject in
  let* p := get_primitive param in
  let* _ := set_primitive result (plus_one p) in
  ret (VRef result).

Definition part_000_native (n : nat) (this : Value) (args : list Value) : M Value :=
  match n with
  | 0 => addOne_primitiveFn args
  | _ => throw TypeError
  end.

(** The objects the driver of [part_000] builds (lines 107-118), for any
    primitive value of [numberObj]; the file has 5. [numberObj] is at 3,
    [addOne] at 7. *)
Definition part_000_objects (number : Value) : M Loc :=
  let* numberObj := new_SelfObject in
  let* _ := set_primitive numberObj number in
  let* addOne := new_SelfObject in
  let* _ := set_primitiveFn addOne (VFun 0) in
  let* _ := assignSlot numberObj "increment" (VRef addOne) in
  ret numberObj.

(** [const result = numberObj.sendAMessageWithParameters("increment",
    numberObj); ... result.primitive], with the method of an iteration. *)
Definition part_000_example
    (send : (nat → Value → list Value → M Value) → Loc → string → Value → M Value)
    (number : Value) : M Value :=
  let* numberObj := part_000_objects number in
  let* result := send part_000_native numberObj "increment" (VRef numberObj) in
  get_primitive result.

End Part000Example.

(** An instance of [plus_one] for the examples: the successor of an
    integer. What JavaScript adds to other values is not modelled. *)
Definition integer_plus_one (v : Value) : Value :=
  match v with
  | VNum z => VNum (z + 1)
  | _ => VUndefined
  end.

(** ** More example objects *)

(** The objects of the driver of [part_000], with 5 as in the file. *)
Definition increment_world : Heap := Eval vm_compute in built (part_000_objects (VNum 5)).

(** An object (at 3) whose message ["me"] names a slot that holds the
    object itself. *)
Definition loop_script : M unit :=
  let* o := new_SelfObject in
  let* _ := assignSlot o "me" (VRef o) in
  push_message o "me".

Definition loop_world : Heap := Eval vm_compute in built loop_script.

(** An object (at 3) whose slot [five] holds the number 5, not an
    object. *)
Definition scalar_script : M unit :=
  let* o := new_SelfObject in
  assignSlot o "five" (VNum 5).

Definition scalar_world : Heap := Eval vm_compute in built scalar_script.

(** An object (at 3) whose parent slot [p], first an object (at 7), is
    assigned the number 0. *)
Definition reassigned_script : M unit :=
  let* o := new_SelfObject in
  let* p := new_SelfObject in
  let* _ := assignParentSlot o "p" (VRef p) in
  assignSlot o "p" (VNum 0).

Definition reassigned_world : Heap := Eval vm_compute in built reassigned_script.

(** An object (at 3) whose message [f] names a slot that holds an object
    (at 7) with the native function 0, [(self, param) => param], and no
    parameter. *)
Definition silent_script : M unit :=
  let* o := new_SelfObject in
  let* t := new_SelfObject in
  let* _ := set_primitiveFn t (VFun 0) in
  let* _ := assignSlot o "f" (VRef t) in
  push_message o "f".

Definition silent_world : Heap := Eval vm_compute in built silent_script.

(** ** Statements about construction and about how a run ends *)

(** The four cells [new SelfObject()] allocates on [h]. *)
Definition constructed (h : Heap) : list Cell :=
  [CSlots ∅; CSet []; CArr [];
   CSelf (mkSelfObject (length h) (length h + 1) (length h + 2) VNull VNull)].

(** How a run ends: with a value and a heap of which [Q] holds, with the
    value [a], or with the exception [e]. Running out of fuel is none of
    them. *)
Definition returns_with {A} (r : Result A) (Q : A → Heap → Prop) : Prop :=
  match r with
  | Ret a h => Q a h
  | _ => False
  end.

Definition returns {A} (r : Result A) (a : A) : Prop :=
  returns_with r (λ a' _, a' = a).

Definition throws {A} (r : Result A) (e : Error) : Prop :=
  match r with
  | Throw e' _ => e' = e
  | _ => False
  end.

(** ** Statements about runs that do not end, and about runs that do *)

(** In a looping family [slots[name]] reads a falsy value in every
    object, and its first parent is an object of the family. *)
Definition first_parent_loops (h : Heap) (name : string) (family : Loc → Prop) : Prop :=
  ∀ l, family l →
    ∃ o sl p ps ms l',
      object_at h l o sl (p :: ps) ms ∧ truthy (get_prop sl name) = false ∧
      get_prop sl p = VRef l' ∧ family l'.

(** In a family that evaluates in a circle every object has messages
    only, and its own slot for the first message holds an object of the
    family. *)
Definition first_message_loops (h : Heap) (family : Loc → Prop) : Prop :=
  ∀ l, family l →
    ∃ o sl ps m ms l',
      object_at h l o sl ps (m :: ms) ∧
      primitive o = VNull ∧ primitiveFn o = VNull ∧
      get_prop sl m = VRef l' ∧ family l'.

(** In a family ranked by [rank], [slots[name]] reads a falsy value in
    every object, which has at most [width] parents; each parent slot
    reads [undefined], [null] or an object of the family of a lower rank:
    the parent graph has no cycle. *)
Definition ranked_lacks (h : Heap) (name : string) (rank : Loc → nat) (width : nat)
    (family : Loc → Prop) : Prop :=
  ∀ l, family l →
    ∃ o sl ps ms,
      object_at h l o sl ps ms ∧ truthy (get_prop sl name) = false ∧
      length ps ≤ width ∧
      Forall (λ v, v = VUndefined ∨ v = VNull ∨
                   ∃ l', v = VRef l' ∧ family l' ∧ rank l' < rank l)
             (map (get_prop sl) ps).

(** [l] is an object in which [l.slots[name]] reads a falsy value. *)
Definition holds_no (h : Heap) (name : string) (l : Loc) : Prop :=
  ∃ v, slot_of h l name = Some v ∧ truthy v = false.

(** ** Statements about the heaps a program builds *)

(** The object at [l] has its three containers, its parents hold no name
    twice, and every parent names a key of the slots. *)
Definition well_formed (h : Heap) (l : Loc) : Prop :=
  ∃ o sl ps ms,
    object_at h l o sl ps ms ∧ NoDup ps ∧ ∀ p, p ∈ ps → is_Some (sl !! p).

(** No container belongs to two objects. *)
Definition unshared (h : Heap) : Prop :=
  ∀ l l' o o',
    h !! l = Some (CSelf o) → h !! l' = Some (CSelf o') → l ≠ l' →
    slots o ≠ slots o' ∧ parents o ≠ parents o' ∧ messages o ≠ messages o'.

Definition heap_ok (h : Heap) : Prop :=
  (∀ l o, h !! l = Some (CSelf o) → well_formed h l) ∧ unshared h.

(** [m] keeps [P], whether it returns or throws. *)
Definition invariant (P : Heap → Prop) {A} (m : M A) : Prop :=
  ∀ h, P h → post (m h) (λ _ h', P h') P.

(** What [r] leaves of the objects of [h]: all of them, as they were. *)
Definition changes_no_object {A} (h : Heap) (r : Result A) : Prop :=
  ∀ h', ends_in r h' →
    extends h h' ∧
    ∀ l o sl ps ms, object_at h l o sl ps ms → object_at h' l o sl ps ms.

(** * Lemmas *)

(** ** The heap *)

Lemma lookup_above (h k : Heap) i : (h ++ k) !! (length h + i) = k !! i.
Proof. rewrite lookup_app_r by lia. f_equal. lia. Qed.

Lemma extends_refl h : extends h h.
Proof. exists []. by rewrite app_nil_r. Qed.

Lemma extends_trans h1 h2 h3 : extends h1 h2 → extends h2 h3 → extends h1 h3.
Proof. intros [k1 ->] [k2 ->]. exists (k1 ++ k2). by rewrite app_assoc. Qed.

Lemma extends_app h k : extends h (h ++ k).
Proof. by exists k. Qed.

Lemma extends_snoc h0 h c : extends h0 h → extends h0 (h ++ [c]).
Proof. intros H. eapply extends_trans; [exact H | apply extends_app]. Qed.

Lemma extends_lookup h h' l c : extends h h' → h !! l = Some c → h' !! l = Some c.
Proof. intros [k ->] H. by apply lookup_app_l_Some. Qed.

Lemma extends_length h h' : extends h h' → length h ≤ length h'.
Proof. intros [k ->]. rewrite length_app. lia. Qed.

Lemma extends_insert h0 h l c :
  extends h0 h → length h0 ≤ l → extends h0 (<[l := c]> h).
Proof.
  intros [k ->] Hl. exists (<[l - length h0 := c]> k).
  replace l with (length h0 + (l - length h0)) at 1 by lia.
  apply insert_app_r.
Qed.

Lemma extends_fresh h h' l : extends h h' → h' !! l = None → h !! l = None.
Proof.
  intros He Hn. destruct (h !! l) eqn:E; [|done].
  by rewrite (extends_lookup _ _ _ _ He E) in Hn.
Qed.

(** ** The monad *)

Lemma bind_assoc {A B C} (m : M A) (f : A → M B) (g : B → M C) h :
  bind (bind m f) g h = bind m (λ a, bind (f a) g) h.
Proof. unfold bind. by destruct (m h). Qed.

Lemma bind_Ret {A B} (m : M A) (k : A → M B) h a h' :
  m h = Ret a h' → bind m k h = k a h'.
Proof. intros H. unfold bind. by rewrite H. Qed.

Lemma bind_Throw {A B} (m : M A) (k : A → M B) h e h' :
  m h = Throw e h' → bind m k h = Throw e h'.
Proof. intros H. unfold bind. by rewrite H. Qed.

Lemma bind_OutOfFuel {A B} (m : M A) (k : A → M B) h :
  m h = OutOfFuel → bind m k h = OutOfFuel.
Proof. intros H. unfold bind. by rewrite H. Qed.

Lemma bind_Ret_inv {A B} (m : M A) (k : A → M B) h b h' :
  bind m k h = Ret b h' → ∃ a h1, m h = Ret a h1 ∧ k a h1 = Ret b h'.
Proof. unfold bind. destruct (m h); [eauto | done | done]. Qed.

Lemma bind_alloc {B} c (k : Loc → M B) h :
  bind (alloc c) k h = k (length h) (h ++ [c]).
Proof. reflexivity. Qed.

Lemma bind_load_self {B} l o (k : SelfObject → M B) (h : Heap) :
  h !! l = Some (CSelf o) → bind (load_self l) k h = k o h.
Proof. intros H. unfold bind, load_self, load, bind. by rewrite H. Qed.

Lemma bind_load_slots {B} l m (k : _ → M B) (h : Heap) :
  h !! l = Some (CSlots m) → bind (load_slots l) k h = k m h.
Proof. intros H. unfold bind, load_slots, load, bind. by rewrite H. Qed.

Lemma bind_read_prop {B} l m name (k : _ → M B) (h : Heap) :
  h !! l = Some (CSlots m) → bind (read_prop l name) k h = k (get_prop m name) h.
Proof. intros H. unfold bind, read_prop, load, bind. by rewrite H. Qed.

Lemma bind_read_prop_cell {B} l c name (k : _ → M B) (h : Heap) :
  h !! l = Some c → bind (read_prop l name) k h = bind (cell_prop c name) k h.
Proof. intros H. unfold read_prop. rewrite bind_assoc. unfold bind at 1, load. by rewrite H. Qed.

Lemma bind_load_own_keys {B} l m (k : _ → M B) (h : Heap) :
  h !! l = Some (CSlots m) → bind (load_own_keys l) k h = k m h.
Proof. intros H. unfold bind, load_own_keys, load, bind. by rewrite H. Qed.

Lemma bind_load_set {B} l s (k : _ → M B) (h : Heap) :
  h !! l = Some (CSet s) → bind (load_set l) k h = k s h.
Proof. intros H. unfold bind, load_set, load, bind. by rewrite H. Qed.

Lemma bind_load_arr {B} l a (k : _ → M B) (h : Heap) :
  h !! l = Some (CArr a) → bind (load_arr l) k h = k a h.
Proof. intros H. unfold bind, load_arr, load, bind. by rewrite H. Qed.

Lemma bind_store {B} l c c' (k : unit → M B) (h : Heap) :
  h !! l = Some c' → bind (store l c) k h = k tt (<[l := c]> h).
Proof. intros H. unfold bind, store. by rewrite H. Qed.

Lemma bind_update_self {B} l f o (k : unit → M B) (h : Heap) :
  h !! l = Some (CSelf o) →
  bind (update_self l f) k h = k tt (<[l := CSelf (f o)]> h).
Proof.
  intros H. unfold update_self. unfold bind at 1.
  rewrite (bind_load_self _ _ _ _ H). unfold store. by rewrite H.
Qed.

Lemma bind_as_self {B} l o (k : Loc → M B) (h : Heap) :
  h !! l = Some (CSelf o) → bind (as_self (VRef l)) k h = k l h.
Proof.
  intros H. unfold as_self. rewrite bind_assoc.
  by rewrite (bind_load_self _ _ _ _ H).
Qed.

(** Normal form of a heap under construction: [h ++ cells]. *)
Ltac heap_norm :=
  repeat first
    [ rewrite <- app_assoc
    | rewrite length_app
    | rewrite insert_app_r ];
  cbn [app length insert list_insert Nat.add].

Ltac heap_lookup :=
  first
    [ eassumption
    | apply lookup_app_l_Some; eassumption
    | rewrite lookup_above; reflexivity ].

(** One step of a computation whose reads are known. *)
Ltac mstep :=
  first
    [ rewrite bind_assoc
    | rewrite bind_alloc
    | erewrite bind_load_self by heap_lookup
    | erewrite bind_load_slots by heap_lookup
    | erewrite bind_load_own_keys by heap_lookup
    | erewrite bind_load_set by heap_lookup
    | erewrite bind_load_arr by heap_lookup
    | erewrite bind_update_self by heap_lookup
    | erewrite bind_as_self by heap_lookup
    | erewrite bind_store by heap_lookup ];
  heap_norm.

(** ** [copy] *)

Lemma copy_Ret h this o sl ps ms :
  object_at h this o sl ps ms →
  copy this h = Ret (length h + 3) (h ++ copied h o sl ps ms).
Proof.
  intros (Ho & Hs & Hp & Hm).
  unfold copy, new_SelfObject.
  repeat mstep. reflexivity.
Qed.

Lemma bind_load_own_keys_at {B} l m (k : _ → M B) (h : Heap) :
  own_keys_at h l = Some m → bind (load_own_keys l) k h = k m h.
Proof.
  unfold own_keys_at, bind, load_own_keys, load, bind.
  destruct (h !! l) as [[]|]; simpl; try done; by intros [= ->].
Qed.

Lemma own_keys_at_extends h h' l m :
  extends h h' → own_keys_at h l = Some m → own_keys_at h' l = Some m.
Proof.
  intros He. unfold own_keys_at. destruct (h !! l) as [c|] eqn:Hl; [|done].
  by rewrite (extends_lookup _ _ _ _ He Hl).
Qed.

(** [copy] reads the own keys of the source's slots: their prototype
    plays no part. *)
Lemma copy_Ret_keys h this o sl ps ms :
  h !! this = Some (CSelf o) → own_keys_at h (slots o) = Some sl →
  h !! parents o = Some (CSet ps) → h !! messages o = Some (CArr ms) →
  copy this h = Ret (length h + 3) (h ++ copied h o sl ps ms).
Proof.
  intros Ho Hs Hp Hm.
  unfold copy, new_SelfObject.
  repeat first
    [ mstep
    | erewrite bind_load_own_keys_at
        by (eapply own_keys_at_extends; [apply extends_app|exact Hs]) ].
  reflexivity.
Qed.

(** ** Postconditions *)

Lemma post_bind {A B} (m : M A) (k : A → M B) h Q1 Q E :
  post (m h) Q1 E → (∀ a h1, Q1 a h1 → post (k a h1) Q E) →
  post (bind m k h) Q E.
Proof. unfold bind. destruct (m h); simpl; auto. Qed.

Lemma post_weaken {A} (r : Result A) (Q Q' : A → Heap → Prop) (E E' : Heap → Prop) :
  post r Q E → (∀ a h, Q a h → Q' a h) → (∀ h, E h → E' h) → post r Q' E'.
Proof. destruct r; simpl; auto. Qed.

Lemma post_load {B} l (k : Cell → M B) h Q E :
  (∀ c, h !! l = Some c → post (k c h) Q E) → E h →
  post (bind (load l) k h) Q E.
Proof. intros Hk HE. unfold bind, load. destruct (h !! l); simpl; auto. Qed.

Lemma post_load_self {B} l (k : SelfObject → M B) h Q E :
  (∀ o, h !! l = Some (CSelf o) → post (k o h) Q E) → E h →
  post (bind (load_self l) k h) Q E.
Proof.
  intros Hk HE. unfold load_self. rewrite bind_assoc.
  apply post_load; [|done]. intros [] Hc; unfold bind, ret, throw; simpl; auto.
Qed.

Lemma post_load_slots {B} l (k : _ → M B) h Q E :
  (∀ m, h !! l = Some (CSlots m) → post (k m h) Q E) → E h →
  post (bind (load_slots l) k h) Q E.
Proof.
  intros Hk HE. unfold load_slots. rewrite bind_assoc.
  apply post_load; [|done]. intros [] Hc; unfold bind, ret, throw; simpl; auto.
Qed.

Lemma post_load_own_keys {B} l (k : _ → M B) h Q E :
  (∀ m, (h !! l = Some (CSlots m) ∨ ∃ proto, h !! l = Some (CSlotsProto proto m)) →
        post (k m h) Q E) →
  E h →
  post (bind (load_own_keys l) k h) Q E.
Proof.
  intros Hk HE. unfold load_own_keys. rewrite bind_assoc.
  apply post_load; [|done]. intros [] Hc; unfold bind, ret, throw; simpl; eauto.
Qed.

Lemma post_load_set {B} l (k : _ → M B) h Q E :
  (∀ s, h !! l = Some (CSet s) → post (k s h) Q E) → E h →
  post (bind (load_set l) k h) Q E.
Proof.
  intros Hk HE. unfold load_set. rewrite bind_assoc.
  apply post_load; [|done]. intros [] Hc; unfold bind, ret, throw; simpl; auto.
Qed.

Lemma post_load_arr {B} l (k : _ → M B) h Q E :
  (∀ a, h !! l = Some (CArr a) → post (k a h) Q E) → E h →
  post (bind (load_arr l) k h) Q E.
Proof.
  intros Hk HE. unfold load_arr. rewrite bind_assoc.
  apply post_load; [|done]. intros [] Hc; unfold bind, ret, throw; simpl; auto.
Qed.

Lemma post_as_self {B} v (k : Loc → M B) h Q E :
  (∀ l o, v = VRef l → h !! l = Some (CSelf o) → post (k l h) Q E) → E h →
  post (bind (as_self v) k h) Q E.
Proof.
  intros Hk HE. destruct v; simpl; try done.
  rewrite bind_assoc. apply post_load_self; [|done]. intros o Ho. eapply Hk; eauto.
Qed.

(** Whatever [copy] reads, it only adds cells, and the new object's
    [slots] is one of them. *)
Lemma copy_post h this :
  post (copy this h)
    (λ c h', extends h h' ∧ length h ≤ c ∧
             ∃ o', h' !! c = Some (CSelf o') ∧ length h ≤ slots o')
    (extends h).
Proof.
  unfold copy, new_SelfObject.
  repeat first
    [ mstep
    | apply post_load_self; [intros ? ?|apply extends_app]
    | apply post_load_own_keys; [intros ? ?|apply extends_app]
    | apply post_load_set; [intros ? ?|apply extends_app]
    | apply post_load_arr; [intros ? ?|apply extends_app] ].
  simpl. split; [apply extends_app|]. split; [lia|].
  rewrite lookup_above. simpl. eexists; split; [reflexivity|]. simpl. lia.
Qed.

(** ** Frames *)

Lemma keeps_bind {A B} (m : M A) (k : A → M B) h0 h :
  keeps h0 (m h) → (∀ a h1, extends h0 h1 → keeps h0 (k a h1)) →
  keeps h0 (bind m k h).
Proof. intros Hm Hk. eapply post_bind; [exact Hm|]. simpl. auto. Qed.

Lemma framed_bind {A B} (m : M A) (k : A → M B) :
  framed m → (∀ a, framed (k a)) → framed (bind m k).
Proof.
  intros Hm Hk h0 h He. apply keeps_bind; [by apply Hm|].
  intros a h1 H1. by apply Hk.
Qed.

Lemma framed_ret {A} (a : A) : framed (ret a).
Proof. intros h0 h He. exact He. Qed.

Lemma framed_throw {A} e : framed (@throw A e).
Proof. intros h0 h He. exact He. Qed.

Lemma framed_out_of_fuel {A} : framed (@out_of_fuel A).
Proof. intros h0 h He. exact I. Qed.

Lemma framed_alloc c : framed (alloc c).
Proof. intros h0 h He. by apply extends_snoc. Qed.

Lemma framed_load l : framed (load l).
Proof. intros h0 h He. unfold load. by destruct (h !! l). Qed.

Lemma framed_load_self l : framed (load_self l).
Proof.
  apply framed_bind; [apply framed_load|].
  intros []; (apply framed_ret || apply framed_throw).
Qed.

Lemma framed_load_slots l : framed (load_slots l).
Proof.
  apply framed_bind; [apply framed_load|].
  intros []; (apply framed_ret || apply framed_throw).
Qed.

Lemma framed_load_set l : framed (load_set l).
Proof.
  apply framed_bind; [apply framed_load|].
  intros []; (apply framed_ret || apply framed_throw).
Qed.

Lemma framed_load_arr l : framed (load_arr l).
Proof.
  apply framed_bind; [apply framed_load|].
  intros []; (apply framed_ret || apply framed_throw).
Qed.

Lemma framed_as_self v : framed (as_self v).
Proof.
  destruct v; try apply framed_throw.
  apply framed_bind; [apply framed_load_self|]. intros _. apply framed_ret.
Qed.

Lemma framed_copy this : framed (copy this).
Proof.
  intros h0 h He. eapply post_weaken; [apply copy_post| |].
  - intros c h' [H _]. by eapply extends_trans.
  - intros h' H. by eapply extends_trans.
Qed.

(** [v.copy()] followed by [target.slots["parameter"] = paramObj]: the
    store goes to the container [copy] has just allocated. *)
Lemma framed_copy_then_store v paramObj :
  framed (let* source := as_self v in
          let* target := copy source in
          let* o := load_self target in
          let* sl := load_slots (slots o) in
          let* _ := store (slots o) (CSlots (<["parameter" := paramObj]> sl)) in
          ret target).
Proof.
  intros h0 h He.
  apply post_as_self; [|done]. intros l o -> Ho.
  eapply post_bind.
  { eapply post_weaken; [apply copy_post|intros ? ? H; exact H|].
    intros h1 H1. by eapply extends_trans. }
  simpl. intros c h1 (H1 & Hc & o' & Ho' & Hs).
  assert (extends h0 h1) as He1 by by eapply extends_trans.
  rewrite (bind_load_self _ _ _ _ Ho').
  apply post_load_slots; [|done]. intros m Hm.
  rewrite (bind_store _ _ _ _ _ Hm). simpl.
  apply extends_insert; [done|].
  pose proof (extends_length _ _ He). lia.
Qed.

Create HintDb framed.

#[global] Hint Resolve framed_ret framed_throw framed_out_of_fuel framed_alloc
  framed_load framed_load_self framed_load_slots framed_load_set framed_load_arr
  framed_as_self framed_copy framed_copy_then_store : framed.

(** Breaks a frame goal down along the structure of the computation. *)
Ltac framed_tac :=
  repeat first
    [ progress eauto with framed
    | apply framed_bind; [|intros ?]
    | match goal with
      | |- framed (match ?x with _ => _ end) => destruct x
      | |- framed (let (_, _) := ?x in _) => destruct x
      end ].

(** ** Fuel *)

Lemma refines_refl {A} (m : M A) : refines m m.
Proof. intros h. by right. Qed.

Lemma refines_out_of_fuel {A} (m : M A) : refines out_of_fuel m.
Proof. intros h. by left. Qed.

Lemma refines_bind {A B} (m m' : M A) (k k' : A → M B) :
  refines m m' → (∀ a, refines (k a) (k' a)) → refines (bind m k) (bind m' k').
Proof.
  intros Hm Hk h. unfold bind.
  destruct (Hm h) as [->| ->]; [by left|].
  destruct (m h) as [a h1| |]; [apply Hk | by right | by left].
Qed.

Lemma refines_Ret {A} (m m' : M A) h a h' :
  refines m m' → m h = Ret a h' → m' h = Ret a h'.
Proof. intros H E. destruct (H h) as [E'|E']; congruence. Qed.

Lemma refines_Throw {A} (m m' : M A) h e h' :
  refines m m' → m h = Throw e h' → m' h = Throw e h'.
Proof. intros H E. destruct (H h) as [E'|E']; congruence. Qed.

Ltac refines_tac IH :=
  repeat first
    [ apply refines_refl
    | apply refines_out_of_fuel
    | apply IH; lia
    | apply refines_bind; [|intros ?]
    | match goal with
      | |- refines (match ?x with _ => _ end) _ => destruct x
      | |- refines (let (_, _) := ?x in _) _ => destruct x
      end ].

(** ** The engine of [src/SelfObject.js]: frames and fuel *)

Section SelfObjectJsFacts.

Variable native : nat → Value → list Value → M Value.
Variable edition : Edition.

Lemma js_search_framed fuel name visited queue :
  framed (SelfObjectJs.search fuel name visited queue).
Proof.
  revert visited queue. induction fuel as [|fuel IH]; intros visited queue; simpl.
  - framed_tac.
  - destruct queue as [|current queue]; framed_tac.
Qed.

(** The loop reads the heap and leaves it as it is. *)
Lemma js_search_pure fuel name visited queue h :
  post (SelfObjectJs.search fuel name visited queue h)
    (λ _ h', h' = h) (λ h', h' = h).
Proof.
  revert visited queue. induction fuel as [|fuel IH]; intros visited queue; simpl.
  - done.
  - destruct queue as [|current queue]; [done|].
    destruct (negb (truthy current) || has visited current); [apply IH|].
    apply post_as_self; [|done]. intros l o _ Ho.
    apply post_load_self; [|done]. intros o' _.
    apply post_load_slots; [|done]. intros sl _.
    destruct (truthy (get_prop sl name)); [done|].
    apply post_load_set; [|done]. intros ps _. apply IH.
Qed.

Lemma js_search_mono fuel fuel' name visited queue :
  fuel ≤ fuel' →
  refines (SelfObjectJs.search fuel name visited queue)
          (SelfObjectJs.search fuel' name visited queue).
Proof.
  revert fuel' visited queue.
  induction fuel as [|fuel IH]; intros fuel' visited queue Hle; simpl.
  - apply refines_out_of_fuel.
  - destruct fuel' as [|fuel']; [lia|]. simpl.
    refines_tac IH.
Qed.

Lemma js_engine_mono fuel fuel' :
  fuel ≤ fuel' →
  (∀ this, refines (SelfObjectJs.evaluate native edition fuel this)
                   (SelfObjectJs.evaluate native edition fuel' this)) ∧
  (∀ this name, refines (SelfObjectJs.sendAMessage native edition fuel this name)
                        (SelfObjectJs.sendAMessage native edition fuel' this name)) ∧
  (∀ arr i cur res, refines (SelfObjectJs.chain native edition fuel arr i cur res)
                            (SelfObjectJs.chain native edition fuel' arr i cur res)).
Proof.
  revert fuel'. induction fuel as [|fuel IH]; intros fuel' Hle.
  - repeat split; intros; apply refines_out_of_fuel.
  - destruct fuel' as [|fuel']; [lia|].
    destruct (IH fuel' ltac:(lia)) as (IHe & IHs & IHc).
    assert (∀ name v q, refines (SelfObjectJs.search fuel name v q)
                                (SelfObjectJs.search fuel' name v q)) as IHq
      by (intros; apply js_search_mono; lia).
    repeat split; intros; simpl; refines_tac IHe; try apply IHs; try apply IHc;
      try apply IHq.
Qed.

Lemma js_evaluate_mono fuel fuel' this :
  fuel ≤ fuel' →
  refines (SelfObjectJs.evaluate native edition fuel this)
          (SelfObjectJs.evaluate native edition fuel' this).
Proof. intros H. by apply js_engine_mono. Qed.

Lemma js_sendAMessage_mono fuel fuel' this name :
  fuel ≤ fuel' →
  refines (SelfObjectJs.sendAMessage native edition fuel this name)
          (SelfObjectJs.sendAMessage native edition fuel' this name).
Proof. intros H. by apply js_engine_mono. Qed.

Lemma js_chain_mono fuel fuel' arr i cur res :
  fuel ≤ fuel' →
  refines (SelfObjectJs.chain native edition fuel arr i cur res)
          (SelfObjectJs.chain native edition fuel' arr i cur res).
Proof. intros H. by apply js_engine_mono. Qed.

Lemma js_sendAMessageWithParameters_mono fuel fuel' this name p :
  fuel ≤ fuel' →
  refines (SelfObjectJs.sendAMessageWithParameters native edition fuel this name p)
          (SelfObjectJs.sendAMessageWithParameters native edition fuel' this name p).
Proof.
  intros H. unfold SelfObjectJs.sendAMessageWithParameters.
  pose proof (js_evaluate_mono fuel fuel') as IHe.
  pose proof (js_search_mono fuel fuel') as IHq.
  refines_tac IHe; try (apply IHe; lia); try (apply IHq; lia).
Qed.

Hypothesis native_framed : ∀ n this args, framed (native n this args).

Lemma js_call_framed f this args : framed (SelfObjectJs.call native f this args).
Proof. destruct f; simpl; auto using framed_throw. Qed.

Lemma js_engine_framed fuel :
  (∀ this, framed (SelfObjectJs.evaluate native edition fuel this)) ∧
  (∀ this name, framed (SelfObjectJs.sendAMessage native edition fuel this name)) ∧
  (∀ arr i cur res, framed (SelfObjectJs.chain native edition fuel arr i cur res)).
Proof.
  induction fuel as [|fuel (IHe & IHs & IHc)]; simpl.
  - repeat split; intros; apply framed_out_of_fuel.
  - pose proof js_call_framed. pose proof js_search_framed.
    repeat split; intros; framed_tac.
Qed.

Lemma js_evaluate_framed fuel this :
  framed (SelfObjectJs.evaluate native edition fuel this).
Proof. apply js_engine_framed. Qed.

Lemma js_sendAMessage_framed fuel this name :
  framed (SelfObjectJs.sendAMessage native edition fuel this name).
Proof. apply js_engine_framed. Qed.

Lemma js_bind_parameter_framed v p : framed (SelfObjectJs.bind_parameter v p).
Proof. apply framed_copy_then_store. Qed.

Lemma js_sendAMessageWithParameters_framed fuel this name p :
  framed (SelfObjectJs.sendAMessageWithParameters native edition fuel this name p).
Proof.
  unfold SelfObjectJs.sendAMessageWithParameters.
  pose proof js_evaluate_framed. pose proof js_search_framed.
  pose proof js_bind_parameter_framed.
  framed_tac.
Qed.

End SelfObjectJsFacts.

(** ** The engine of [src/unnamed/part_000]: frames and fuel *)

Section Part000Facts.

Variable native : nat → Value → list Value → M Value.

Lemma p0_engine_mono fuel fuel' :
  fuel ≤ fuel' →
  (∀ this, refines (Part000.evaluate native fuel this)
                   (Part000.evaluate native fuel' this)) ∧
  (∀ this name v, refines (Part000.sendAMessage native fuel this name v)
                          (Part000.sendAMessage native fuel' this name v)) ∧
  (∀ this set i name v, refines (Part000.each_parent native fuel this set i name v)
                                (Part000.each_parent native fuel' this set i name v)) ∧
  (∀ c arr i res, refines (Part000.each_message native fuel c arr i res)
                          (Part000.each_message native fuel' c arr i res)).
Proof.
  revert fuel'. induction fuel as [|fuel IH]; intros fuel' Hle.
  - repeat split; intros; apply refines_out_of_fuel.
  - destruct fuel' as [|fuel']; [lia|].
    destruct (IH fuel' ltac:(lia)) as (IHe & IHs & IHp & IHm).
    repeat split; intros; simpl; refines_tac IHe;
      try apply IHs; try apply IHp; try apply IHm.
Qed.

Lemma p0_evaluate_mono fuel fuel' this :
  fuel ≤ fuel' →
  refines (Part000.evaluate native fuel this) (Part000.evaluate native fuel' this).
Proof. intros H. by apply p0_engine_mono. Qed.

Lemma p0_sendAMessage_mono fuel fuel' this name v :
  fuel ≤ fuel' →
  refines (Part000.sendAMessage native fuel this name v)
          (Part000.sendAMessage native fuel' this name v).
Proof. intros H. by apply p0_engine_mono. Qed.

Hypothesis native_framed : ∀ n this args, framed (native n this args).

Lemma p0_call_framed f this args : framed (Part000.call native f this args).
Proof. destruct f; simpl; auto using framed_throw. Qed.

Lemma p0_engine_framed fuel :
  (∀ this, framed (Part000.evaluate native fuel this)) ∧
  (∀ this name v, framed (Part000.sendAMessage native fuel this name v)) ∧
  (∀ this set i name v, framed (Part000.each_parent native fuel this set i name v)) ∧
  (∀ c arr i res, framed (Part000.each_message native fuel c arr i res)).
Proof.
  induction fuel as [|fuel (IHe & IHs & IHp & IHm)]; simpl.
  - repeat split; intros; apply framed_out_of_fuel.
  - pose proof p0_call_framed.
    repeat split; intros; framed_tac.
Qed.

Lemma p0_evaluate_framed fuel this : framed (Part000.evaluate native fuel this).
Proof. apply p0_engine_framed. Qed.

Lemma p0_sendAMessageWithParameters_framed fuel :
  (∀ this name p,
     framed (Part000.sendAMessageWithParameters native fuel this name p)) ∧
  (∀ this set i name p,
     framed (Part000.each_parent_with native fuel this set i name p)).
Proof.
  induction fuel as [|fuel (IHs & IHp)]; simpl.
  - repeat split; intros; apply framed_out_of_fuel.
  - pose proof p0_evaluate_framed.
    pose proof (framed_copy_then_store : ∀ v p, framed (Part000.bind_parameter v p)).
    repeat split; intros; framed_tac.
Qed.

End Part000Facts.

(** ** Objects in the heap *)

Lemma object_at_extends h h' l o sl ps ms :
  extends h h' → object_at h l o sl ps ms → object_at h' l o sl ps ms.
Proof.
  intros He (H1 & H2 & H3 & H4).
  repeat split; by eapply extends_lookup.
Qed.

Lemma object_at_insert h l o sl ps ms l' c :
  object_at h l o sl ps ms →
  l' ≠ l → l' ≠ slots o → l' ≠ parents o → l' ≠ messages o →
  object_at (<[l' := c]> h) l o sl ps ms.
Proof.
  intros (H1 & H2 & H3 & H4) ? ? ? ?.
  repeat split; by rewrite list_lookup_insert_ne.
Qed.

Lemma object_at_lt h l o sl ps ms :
  object_at h l o sl ps ms →
  l < length h ∧ slots o < length h ∧ parents o < length h ∧ messages o < length h.
Proof. intros (H1 & H2 & H3 & H4). repeat split; by eapply lookup_lt_Some. Qed.

Lemma object_at_distinct h l o sl ps ms :
  object_at h l o sl ps ms →
  slots o ≠ l ∧ parents o ≠ l ∧ messages o ≠ l ∧
  slots o ≠ parents o ∧ slots o ≠ messages o ∧ parents o ≠ messages o.
Proof. intros (H1 & H2 & H3 & H4). repeat split; congruence. Qed.

Lemma slots_of_object_at h l o sl ps ms :
  object_at h l o sl ps ms → slots_of h l = Some sl.
Proof. intros (H1 & H2 & _). unfold slots_of, self_at. rewrite H1. simpl. by rewrite H2. Qed.

Lemma parents_of_object_at h l o sl ps ms :
  object_at h l o sl ps ms → parents_of h l = Some ps.
Proof. intros (H1 & _ & H3 & _). unfold parents_of, self_at. rewrite H1. simpl. by rewrite H3. Qed.

Lemma messages_of_object_at h l o sl ps ms :
  object_at h l o sl ps ms → messages_of h l = Some ms.
Proof. intros (H1 & _ & _ & H4). unfold messages_of, self_at. rewrite H1. simpl. by rewrite H4. Qed.

Lemma copied_object_at h o sl ps ms :
  object_at (h ++ copied h o sl ps ms) (length h + 3)
    (mkSelfObject (length h + 4) (length h + 5) (length h + 6)
       (primitive o) (primitiveFn o)) sl ps ms.
Proof. repeat split; simpl; by rewrite lookup_above. Qed.

(** ** The mutation API on an object *)

Lemma set_prop_key sl name v :
  name ≠ "__proto__" → set_prop sl name v = CSlots (<[name := v]> sl).
Proof. intros Hname. unfold set_prop. rewrite decide_False; [done|]. by intros [? _]. Qed.

Lemma set_prop_own_key sl name v :
  is_Some (sl !! name) → set_prop sl name v = CSlots (<[name := v]> sl).
Proof.
  intros [w Hw]. unfold set_prop. rewrite decide_False; [done|].
  intros [_ Hnone]. by rewrite Hnone in Hw.
Qed.

Lemma set_prop_prototype sl (v : Value) :
  sl !! "__proto__" = None →
  set_prop sl "__proto__" v =
    if object_or_null v && negb (bool_decide (v = Object_prototype "__proto__"))
    then CSlotsProto v sl else CSlots sl.
Proof. intros Hnone. unfold set_prop. by rewrite decide_True. Qed.

Lemma assignSlot_Ret h this o sl ps ms name v :
  object_at h this o sl ps ms →
  assignSlot this name v h = Ret tt (<[slots o := set_prop sl name v]> h).
Proof.
  intros (Ho & Hs & _). unfold assignSlot.
  rewrite (bind_load_self _ _ _ _ Ho), (bind_load_slots _ _ _ _ Hs).
  unfold store. by rewrite Hs.
Qed.

Lemma assignSlot_key_Ret h this o sl ps ms name v :
  object_at h this o sl ps ms → name ≠ "__proto__" →
  assignSlot this name v h = Ret tt (<[slots o := CSlots (<[name := v]> sl)]> h).
Proof. intros Hobj Hname. by rewrite (assignSlot_Ret _ _ _ _ _ _ _ _ Hobj), set_prop_key. Qed.

Lemma makeParent_Ret h this o sl ps ms name :
  object_at h this o sl ps ms →
  makeParent this name h =
    Ret tt (if truthy (get_prop sl name)
            then <[parents o := CSet (set_add name ps)]> h else h).
Proof.
  intros (Ho & Hs & Hp & _). unfold makeParent.
  rewrite (bind_load_self _ _ _ _ Ho), (bind_read_prop _ _ _ _ _ Hs).
  destruct (truthy (get_prop sl name)); [|done].
  rewrite (bind_load_set _ _ _ _ Hp). unfold store. by rewrite Hp.
Qed.

Lemma object_at_assignSlot h this o sl ps ms name v :
  object_at h this o sl ps ms →
  object_at (<[slots o := CSlots (<[name := v]> sl)]> h) this o (<[name := v]> sl) ps ms.
Proof.
  intros H. pose proof (object_at_distinct _ _ _ _ _ _ H) as (?&?&?&?&?&?).
  pose proof (object_at_lt _ _ _ _ _ _ H) as (?&?&?&?).
  destruct H as (Ho & Hs & Hp & Hm).
  repeat split; rewrite ?list_lookup_insert_ne by done; try done.
  by rewrite list_lookup_insert_eq.
Qed.

(** A write to the slots of an object leaves its fields, its parents and
    its messages. *)
Lemma object_at_store_slots h this o sl ps ms cell :
  object_at h this o sl ps ms →
  self_at (<[slots o := cell]> h) this = Some o ∧
  parents_of (<[slots o := cell]> h) this = Some ps ∧
  messages_of (<[slots o := cell]> h) this = Some ms.
Proof.
  intros H. pose proof (object_at_distinct _ _ _ _ _ _ H) as (?&?&?&?&?&?).
  destruct H as (Ho & Hs & Hp & Hm).
  unfold parents_of, messages_of, self_at.
  rewrite !list_lookup_insert_ne by done. rewrite Ho. simpl.
  rewrite !list_lookup_insert_ne by done. by rewrite Hp, Hm.
Qed.

Lemma object_at_makeParent h this o sl ps ms ps' :
  object_at h this o sl ps ms →
  object_at (<[parents o := CSet ps']> h) this o sl ps' ms.
Proof.
  intros H. pose proof (object_at_distinct _ _ _ _ _ _ H) as (?&?&?&?&?&?).
  pose proof (object_at_lt _ _ _ _ _ _ H) as (?&?&?&?).
  destruct H as (Ho & Hs & Hp & Hm).
  repeat split; rewrite ?list_lookup_insert_ne by done; try done.
  by rewrite list_lookup_insert_eq.
Qed.

Lemma push_message_Ret h this o sl ps ms name :
  object_at h this o sl ps ms →
  push_message this name h = Ret tt (<[messages o := CArr (ms ++ [name])]> h).
Proof.
  intros (Ho & _ & _ & Hm). unfold push_message.
  rewrite (bind_load_self _ _ _ _ Ho), (bind_load_arr _ _ _ _ Hm).
  unfold store. by rewrite Hm.
Qed.

Lemma object_at_push_message h this o sl ps ms ms' :
  object_at h this o sl ps ms →
  object_at (<[messages o := CArr ms']> h) this o sl ps ms'.
Proof.
  intros H. pose proof (object_at_distinct _ _ _ _ _ _ H) as (?&?&?&?&?&?).
  pose proof (object_at_lt _ _ _ _ _ _ H) as (?&?&?&?).
  destruct H as (Ho & Hs & Hp & Hm).
  repeat split; rewrite ?list_lookup_insert_ne by done; try done.
  by rewrite list_lookup_insert_eq.
Qed.

(** ** Copies and parameters *)

Lemma slot_through_object_at h l lo sl ps ms name r ro rsl rps rms n :
  object_at h l lo sl ps ms → sl !! name = Some (VRef r) →
  object_at h r ro rsl rps rms →
  slot_through h l name n = Some (get_prop rsl n).
Proof.
  intros Hl Hname Hr. unfold slot_through, slot_of.
  rewrite (slots_of_object_at _ _ _ _ _ _ Hl). simpl.
  unfold get_prop at 1. rewrite Hname. simpl.
  by rewrite (slots_of_object_at _ _ _ _ _ _ Hr).
Qed.

Lemma get_prop_insert sl name v : get_prop (<[name := v]> sl) name = v.
Proof. unfold get_prop. by rewrite lookup_insert_eq. Qed.

Lemma get_prop_key sl name v : sl !! name = Some v → get_prop sl name = v.
Proof. intros H. unfold get_prop. by rewrite H. Qed.

Lemma index_of_elem name names : name ∈ names → is_Some (index_of name names).
Proof.
  induction names as [|n names IH]; intros Hin; [by apply not_elem_of_nil in Hin|].
  simpl. destruct (String.eqb name n) eqn:E; [by eexists|].
  apply elem_of_cons in Hin as [->|Hin]; [by rewrite String.eqb_refl in E|].
  destruct (IH Hin) as [i ->]. by eexists.
Qed.

Lemma index_of_not_elem name names : name ∉ names → index_of name names = None.
Proof.
  induction names as [|n names IH]; intros Hin; [done|].
  simpl. destruct (String.eqb name n) eqn:E.
  - apply String.eqb_eq in E as ->. destruct Hin. apply list_elem_of_here.
  - rewrite IH; [done|]. intros H. apply Hin. by apply list_elem_of_further.
Qed.

(** A member of [Object.prototype] is a function: truthy, and no
    [SelfObject]. *)
Lemma Object_prototype_inherited name :
  name ∈ Object_prototype_names → ∃ f, Object_prototype name = VFun f.
Proof.
  intros Hin. unfold Object_prototype.
  destruct (index_of_elem _ _ Hin) as [i ->]. by eexists.
Qed.

Lemma Object_prototype_not_inherited name :
  name ∉ Object_prototype_names → Object_prototype name = VUndefined.
Proof. intros Hin. unfold Object_prototype. by rewrite index_of_not_elem. Qed.

Lemma Object_prototype_cases name :
  Object_prototype name = VUndefined ∨ ∃ f, Object_prototype name = VFun f.
Proof. unfold Object_prototype. destruct (index_of _ _); eauto. Qed.

Lemma get_prop_not_inherited sl name :
  sl !! name = None → name ∉ Object_prototype_names → get_prop sl name = VUndefined.
Proof.
  intros Hnone Hname. unfold get_prop. rewrite Hnone.
  by apply Object_prototype_not_inherited.
Qed.

Lemma truthy_get_prop_inherited sl name :
  sl !! name = None → name ∈ Object_prototype_names → truthy (get_prop sl name) = true.
Proof.
  intros Hnone Hname. unfold get_prop. rewrite Hnone.
  by destruct (Object_prototype_inherited _ Hname) as [f ->].
Qed.

(** What reads truthy is a key or an inherited property. *)
Lemma truthy_get_prop_cases sl name :
  truthy (get_prop sl name) = true →
  is_Some (sl !! name) ∨ name ∈ Object_prototype_names.
Proof.
  unfold get_prop. destruct (sl !! name) as [v|]; [by left; eexists|].
  intros Htruthy. right.
  destruct (decide (name ∈ Object_prototype_names)) as [|Hout]; [done|].
  by rewrite Object_prototype_not_inherited in Htruthy.
Qed.

(** An object that is read is a key: nothing inherited is a
    [SelfObject]. *)
Lemma get_prop_VRef sl name l : get_prop sl name = VRef l → sl !! name = Some (VRef l).
Proof.
  unfold get_prop. destruct (sl !! name) as [v|]; [by intros ->|].
  by destruct (Object_prototype_cases name) as [->|[f ->]].
Qed.

Lemma copy_then_store_Ret h t o sl ps ms paramObj :
  object_at h t o sl ps ms →
  (let* source := as_self (VRef t) in
   let* target := copy source in
   let* o := load_self target in
   let* sl := load_slots (slots o) in
   let* _ := store (slots o) (CSlots (<["parameter" := paramObj]> sl)) in
   ret target) h = Ret (length h + 3) (h ++ bound_copy h o sl ps ms paramObj).
Proof.
  intros Hobj.
  rewrite (bind_as_self _ _ _ _ (proj1 Hobj)).
  rewrite (bind_Ret _ _ _ _ _ (copy_Ret _ _ _ _ _ _ Hobj)).
  unfold copied. mstep. cbn [slots]. repeat mstep. reflexivity.
Qed.

Lemma bound_copy_object_at h o sl ps ms paramObj :
  object_at (h ++ bound_copy h o sl ps ms paramObj) (length h + 3)
    (mkSelfObject (length h + 4) (length h + 5) (length h + 6)
       (primitive o) (primitiveFn o))
    (<["parameter" := paramObj]> sl) ps ms.
Proof. split_and!; cbn [slots parents messages]; by rewrite lookup_above. Qed.

Lemma keeps_ends_in {A} h0 (r : Result A) h : keeps h0 r → ends_in r h → extends h0 h.
Proof. destruct r; simpl; [by intros ? <- | by intros ? <- | done]. Qed.

Lemma after_calls_extends send h h' :
  (∀ fuel this name p, framed (send fuel this name p)) →
  after_calls send h h' → extends h h'.
Proof.
  intros Hframed. induction 1 as [h|h fuel this name p h1 h2 Hend _ IH].
  - apply extends_refl.
  - eapply extends_trans; [|exact IH].
    eapply keeps_ends_in; [|exact Hend].
    apply Hframed, extends_refl.
Qed.

(** ** Message chains *)

Lemma load_self_Ret_inv l h o h' :
  load_self l h = Ret o h' → h' = h ∧ h !! l = Some (CSelf o).
Proof.
  unfold load_self, load, bind. destruct (h !! l) as [[]|]; simpl; try done.
  unfold ret. by intros [= -> ->].
Qed.

Lemma as_self_Ret_inv v h l h' :
  as_self v h = Ret l h' → v = VRef l ∧ h' = h ∧ ∃ o, h !! l = Some (CSelf o).
Proof.
  destruct v; simpl; try done. intros H.
  apply bind_Ret_inv in H as (o & h1 & H1 & H2).
  apply load_self_Ret_inv in H1 as (-> & H1).
  unfold ret in H2. injection H2 as -> ->. eauto.
Qed.

Lemma drop_cons_inv {A} (l : list A) i x k :
  drop i l = x :: k → l !! i = Some x ∧ drop (S i) l = k.
Proof.
  intros H.
  assert (l !! i = Some x) as Hx.
  { rewrite <- (Nat.add_0_r i), <- lookup_drop, H. done. }
  split; [done|]. rewrite (drop_S _ _ _ Hx) in H. by injection H.
Qed.

Section JsChains.

Variable native : nat → Value → list Value → M Value.
Variable edition : Edition.
Hypothesis native_framed : ∀ n this args, framed (native n this args).

Local Abbreviation send := (SelfObjectJs.sendAMessage native edition).
Local Abbreviation chain := (SelfObjectJs.chain native edition).

Lemma js_sendAMessage_receiver fuel this name h v h' :
  send fuel this name h = Ret v h' → ∃ o, h !! this = Some (CSelf o).
Proof.
  destruct fuel; [done|]. simpl. intros H.
  apply bind_Ret_inv in H as (o & h1 & H1 & _).
  apply load_self_Ret_inv in H1 as (_ & H1). eauto.
Qed.

Lemma js_chain_sound n : ∀ h0 arr ms i cur res h1 result h',
  h0 !! arr = Some (CArr ms) → extends h0 h1 →
  i < length ms ∨ res = cur →
  chain n arr i cur res h1 = Ret result h' →
  threaded send (drop i ms) cur h1 result h'.
Proof.
  induction n as [|n IH]; intros h0 arr ms i cur res h1 result h' Harr He Hi; [done|].
  simpl. rewrite (bind_load_arr _ _ _ _ (extends_lookup _ _ _ _ He Harr)).
  destruct (ms !! i) as [msg|] eqn:Hmsg.
  - rewrite (drop_S _ _ _ Hmsg). intros H.
    apply bind_Ret_inv in H as (receiver & h2 & Hrecv & H).
    apply as_self_Ret_inv in Hrecv as (-> & -> & _).
    apply bind_Ret_inv in H as (next & h3 & Hsend & H).
    destruct (truthy next) eqn:Hnext; [|done].
    simpl. exists n, receiver, next, h3. split_and!; try done.
    eapply IH; [exact Harr| |by right|exact H].
    pose proof (js_sendAMessage_framed native edition native_framed n receiver msg h0 h1 He) as Hk.
    unfold keeps in Hk. by rewrite Hsend in Hk.
  - apply lookup_ge_None_1 in Hmsg.
    destruct Hi as [Hi| ->]; [lia|].
    rewrite drop_ge by done. unfold ret. by intros [= -> ->].
Qed.

Lemma js_chain_complete names : ∀ h0 arr ms i cur res h1 result h',
  h0 !! arr = Some (CArr ms) → extends h0 h1 →
  i < length ms ∨ res = cur →
  drop i ms = names →
  threaded send names cur h1 result h' →
  ∃ n, ∀ n', n ≤ n' → chain n' arr i cur res h1 = Ret result h'.
Proof.
  induction names as [|name names IH];
    intros h0 arr ms i cur res h1 result h' Harr He Hi Hdrop.
  - intros [-> ->]. exists 1. intros [|n'] Hn; [lia|]. simpl.
    rewrite (bind_load_arr _ _ _ _ (extends_lookup _ _ _ _ He Harr)).
    apply drop_nil_inv in Hdrop.
    destruct Hi as [Hi| ->]; [lia|].
    by rewrite (lookup_ge_None_2 _ _ Hdrop).
  - intros (fuel & receiver & next & h2 & -> & Hsend & Hnext & Hrest).
    destruct (drop_cons_inv _ _ _ _ Hdrop) as [Hmsg Hdrop'].
    assert (extends h0 h2) as He2.
    { pose proof (js_sendAMessage_framed native edition native_framed fuel receiver name h0 h1 He) as Hk.
      unfold keeps in Hk. by rewrite Hsend in Hk. }
    destruct (IH h0 arr ms (S i) next next h2 result h' Harr He2 (or_intror eq_refl) Hdrop' Hrest)
      as (n & Hn).
    destruct (js_sendAMessage_receiver _ _ _ _ _ _ Hsend) as (ro & Hro).
    exists (S (max fuel n)). intros [|n'] Hle; [lia|]. simpl.
    rewrite (bind_load_arr _ _ _ _ (extends_lookup _ _ _ _ He Harr)), Hmsg.
    rewrite (bind_as_self _ _ _ _ Hro).
    assert (send n' receiver name h1 = Ret next h2) as Hsend'.
    { eapply refines_Ret; [|exact Hsend]. apply js_sendAMessage_mono. lia. }
    rewrite (bind_Ret _ _ _ _ _ Hsend'), Hnext. apply Hn. lia.
Qed.

Lemma js_chain_fails pre : ∀ h0 arr ms i name post cur res h1 receiver h2 fuel h3,
  h0 !! arr = Some (CArr ms) → extends h0 h1 →
  drop i ms = pre ++ name :: post →
  threaded send pre cur h1 (VRef receiver) h2 →
  send fuel receiver name h2 = Ret VNull h3 →
  ∃ n, ∀ n', n ≤ n' →
    chain n' arr i cur res h1 = Throw (MessageNotFound name) h3.
Proof.
  induction pre as [|m pre IH];
    intros h0 arr ms i name post cur res h1 receiver h2 fuel h3 Harr He Hdrop.
  - intros [<- ->] Hsend. simpl in Hdrop.
    destruct (drop_cons_inv _ _ _ _ Hdrop) as [Hmsg _].
    destruct (js_sendAMessage_receiver _ _ _ _ _ _ Hsend) as (ro & Hro).
    exists (S fuel). intros [|n'] Hle; [lia|]. simpl.
    rewrite (bind_load_arr _ _ _ _ (extends_lookup _ _ _ _ He Harr)), Hmsg.
    rewrite (bind_as_self _ _ _ _ Hro).
    assert (send n' receiver name h1 = Ret VNull h3) as Hsend'.
    { eapply refines_Ret; [|exact Hsend]. apply js_sendAMessage_mono. lia. }
    by rewrite (bind_Ret _ _ _ _ _ Hsend').
  - intros (f & r & next & h1' & -> & Hsend1 & Hnext & Hrest) Hsend.
    destruct (drop_cons_inv _ _ _ _ Hdrop) as [Hmsg Hdrop'].
    assert (extends h0 h1') as He2.
    { pose proof (js_sendAMessage_framed native edition native_framed f r m h0 h1 He) as Hk.
      unfold keeps in Hk. by rewrite Hsend1 in Hk. }
    destruct (IH h0 arr ms (S i) name post next next h1' receiver h2 fuel h3
                Harr He2 Hdrop' Hrest Hsend) as (n & Hn).
    destruct (js_sendAMessage_receiver _ _ _ _ _ _ Hsend1) as (ro & Hro).
    exists (S (max f n)). intros [|n'] Hle; [lia|]. simpl.
    rewrite (bind_load_arr _ _ _ _ (extends_lookup _ _ _ _ He Harr)), Hmsg.
    rewrite (bind_as_self _ _ _ _ Hro).
    assert (send n' r m h1 = Ret next h1') as Hsend'.
    { eapply refines_Ret; [|exact Hsend1]. apply js_sendAMessage_mono. lia. }
    rewrite (bind_Ret _ _ _ _ _ Hsend'), Hnext. apply Hn. lia.
Qed.

End JsChains.

Section Part000Chains.

Variable native : nat → Value → list Value → M Value.
Hypothesis native_framed : ∀ n this args, framed (native n this args).

Local Abbreviation dispatch := (Part000.dispatch native).
Local Abbreviation each_message := (Part000.each_message native).

Lemma p0_dispatch_mono fuel fuel' this name :
  fuel ≤ fuel' → refines (dispatch fuel this name) (dispatch fuel' this name).
Proof.
  intros H. apply refines_bind; [by apply p0_sendAMessage_mono|].
  intros ?; apply refines_refl.
Qed.

Lemma p0_dispatch_framed fuel this name : framed (dispatch fuel this name).
Proof.
  apply framed_bind; [by apply p0_engine_framed|]. intros ?; apply framed_ret.
Qed.

Lemma p0_dispatch_Ret fuel this name h next h1 :
  dispatch fuel this name h = Ret next h1 ↔
  ∃ visited, Part000.sendAMessage native fuel this name [] h = Ret (next, visited) h1.
Proof.
  unfold Part000.dispatch, bind, ret.
  destruct (Part000.sendAMessage native fuel this name [] h) as [[v vis] h2| |]; simpl.
  - split; [intros [= -> ->]; eauto | by intros (? & [= -> _ ->])].
  - split; [done | by intros (? & ?)].
  - split; [done | by intros (? & ?)].
Qed.

Lemma p0_each_message_sound n : ∀ h0 arr ms i c last h1 result h',
  h0 !! arr = Some (CArr ms) → extends h0 h1 →
  each_message n c arr i last h1 = Ret result h' →
  sent_to_copy dispatch (drop i ms) c h1 last result h'.
Proof.
  induction n as [|n IH]; intros h0 arr ms i c last h1 result h' Harr He; [done|].
  simpl. rewrite (bind_load_arr _ _ _ _ (extends_lookup _ _ _ _ He Harr)).
  destruct (ms !! i) as [msg|] eqn:Hmsg.
  - rewrite (drop_S _ _ _ Hmsg). intros H.
    apply bind_Ret_inv in H as ([next vis] & h2 & Hsend & H).
    simpl. exists n, next, h2. split.
    + apply p0_dispatch_Ret. eauto.
    + eapply IH; [exact Harr| |exact H].
      pose proof (proj1 (proj2 (p0_engine_framed native native_framed n)) c msg [] h0 h1 He) as Hk.
      unfold keeps in Hk. by rewrite Hsend in Hk.
  - apply lookup_ge_None_1 in Hmsg.
    rewrite drop_ge by done. unfold ret. by intros [= -> ->].
Qed.

Lemma p0_each_message_complete names : ∀ h0 arr ms i c last h1 result h',
  h0 !! arr = Some (CArr ms) → extends h0 h1 →
  drop i ms = names →
  sent_to_copy dispatch names c h1 last result h' →
  ∃ n, ∀ n', n ≤ n' → each_message n' c arr i last h1 = Ret result h'.
Proof.
  induction names as [|name names IH];
    intros h0 arr ms i c last h1 result h' Harr He Hdrop.
  - intros [-> ->]. exists 1. intros [|n'] Hn; [lia|]. simpl.
    rewrite (bind_load_arr _ _ _ _ (extends_lookup _ _ _ _ He Harr)).
    apply drop_nil_inv in Hdrop.
    by rewrite (lookup_ge_None_2 _ _ Hdrop).
  - intros (fuel & next & h2 & Hsend & Hrest).
    destruct (drop_cons_inv _ _ _ _ Hdrop) as [Hmsg Hdrop'].
    assert (extends h0 h2) as He2.
    { pose proof (p0_dispatch_framed fuel c name h0 h1 He) as Hk.
      unfold keeps in Hk. by rewrite Hsend in Hk. }
    destruct (IH h0 arr ms (S i) c next h2 result h' Harr He2 Hdrop' Hrest)
      as (n & Hn).
    apply p0_dispatch_Ret in Hsend as (vis & Hsend).
    exists (S (max fuel n)). intros [|n'] Hle; [lia|]. simpl.
    rewrite (bind_load_arr _ _ _ _ (extends_lookup _ _ _ _ He Harr)), Hmsg.
    assert (Part000.sendAMessage native n' c name [] h1 = Ret (next, vis) h2) as Hsend'.
    { eapply refines_Ret; [|exact Hsend]. apply p0_sendAMessage_mono. lia. }
    rewrite (bind_Ret _ _ _ _ _ Hsend'). apply Hn. lia.
Qed.

Lemma sent_to_copy_app send pre post c h last mid h1 result h' :
  sent_to_copy send pre c h last mid h1 →
  sent_to_copy send post c h1 mid result h' →
  sent_to_copy send (pre ++ post) c h last result h'.
Proof.
  revert h last. induction pre as [|name pre IH]; intros h last; simpl.
  - by intros [-> ->].
  - intros (fuel & next & h2 & Hsend & Hrest) Hpost.
    exists fuel, next, h2. split; [done|]. by apply IH.
Qed.

End Part000Chains.

(** The chain of an object with messages only, in the three iterations. *)
Lemma js_evaluate_chain native edition fuel h this o sl ps ms :
  object_at h this o sl ps ms →
  primitive o = VNull → truthy (primitiveFn o) = false → ms ≠ [] →
  SelfObjectJs.evaluate native edition (S fuel) this h =
    SelfObjectJs.chain native edition fuel (messages o) 0 (VRef (length h + 3)) VNull
      (h ++ copied h o sl ps ms).
Proof.
  intros Hobj Hp Hf Hms. simpl.
  rewrite (bind_load_self _ _ _ _ (proj1 Hobj)), Hp, Hf. cbn [not_null].
  rewrite (bind_load_arr _ _ _ _ (proj2 (proj2 (proj2 Hobj)))).
  destruct ms; [done|]. cbn [length Nat.ltb Nat.leb].
  by rewrite (bind_Ret _ _ _ _ _ (copy_Ret _ _ _ _ _ _ Hobj)).
Qed.

Lemma p0_evaluate_chain native fuel h this o sl ps ms :
  object_at h this o sl ps ms →
  primitive o = VNull → primitiveFn o = VNull → ms ≠ [] →
  Part000.evaluate native (S fuel) this h =
    Part000.each_message native fuel (length h + 3) (length h + 6) 0
      (VRef (length h + 3)) (h ++ copied h o sl ps ms).
Proof.
  intros Hobj Hp Hf Hms. simpl.
  rewrite (bind_load_self _ _ _ _ (proj1 Hobj)), Hp, Hf. cbn [not_null].
  rewrite (bind_load_arr _ _ _ _ (proj2 (proj2 (proj2 Hobj)))).
  destruct ms; [done|]. cbn [length Nat.ltb Nat.leb].
  rewrite (bind_Ret _ _ _ _ _ (copy_Ret _ _ _ _ _ _ Hobj)).
  unfold copied. by mstep.
Qed.

Lemma js_chain_is_threaded native edition :
  (∀ n this args, framed (native n this args)) →
  chain_is_threaded (SelfObjectJs.evaluate native edition)
                    (SelfObjectJs.sendAMessage native edition).
Proof.
  intros Hnative h this o sl ps ms result h' Hobj Hp Hf Hms.
  assert (truthy (primitiveFn o) = false) as Hf' by by rewrite Hf.
  pose proof (object_at_lt _ _ _ _ _ _ Hobj) as (_ & _ & _ & Lm).
  rewrite (copy_Ret _ _ _ _ _ _ Hobj).
  assert (0 < length ms) as Hlen by (destruct ms; [done|simpl; lia]).
  split.
  - intros ([|fuel] & Hev); [done|].
    rewrite (js_evaluate_chain _ _ _ _ _ _ _ _ _ Hobj Hp Hf' Hms) in Hev.
    eexists _, _. split; [reflexivity|].
    apply (js_chain_sound native edition Hnative fuel h (messages o) ms 0) in Hev;
      [done|by destruct Hobj as (_&_&_&?)|apply extends_app|by left].
  - intros (c & h0 & [= <- <-] & Hthr).
    destruct (js_chain_complete native edition Hnative ms h (messages o) ms 0
                (VRef (length h + 3)) VNull (h ++ copied h o sl ps ms) result h')
      as (n & Hn); [by destruct Hobj as (_&_&_&?)|apply extends_app|by left|done|done|].
    exists (S n).
    rewrite (js_evaluate_chain _ _ _ _ _ _ _ _ _ Hobj Hp Hf' Hms). by apply Hn.
Qed.

Lemma js_missing_message_fails native edition :
  (∀ n this args, framed (native n this args)) →
  missing_message_fails (SelfObjectJs.evaluate native edition)
                        (SelfObjectJs.sendAMessage native edition).
Proof.
  intros Hnative h this o sl ps pre name post c h0 receiver h1 fuel h2
    Hobj Hp Hf Hcopy Hthr Hsend.
  assert (truthy (primitiveFn o) = false) as Hf' by by rewrite Hf.
  assert (pre ++ name :: post ≠ []) as Hms by by destruct pre.
  rewrite (copy_Ret _ _ _ _ _ _ Hobj) in Hcopy. injection Hcopy as <- <-.
  destruct (js_chain_fails native edition Hnative pre h (messages o)
              (pre ++ name :: post) 0 name post
              (VRef (length h + 3)) VNull (h ++ copied h o sl ps (pre ++ name :: post))
              receiver h1 fuel h2) as (n & Hn);
    [by destruct Hobj as (_&_&_&?)|apply extends_app|done|done|done|].
  assert (∀ fuel', S n ≤ fuel' →
            SelfObjectJs.evaluate native edition fuel' this h =
              Throw (MessageNotFound name) h2) as Hthrow.
  { intros [|fuel'] Hle; [lia|].
    rewrite (js_evaluate_chain _ _ _ _ _ _ _ _ _ Hobj Hp Hf' Hms). apply Hn. lia. }
  split; [by exists (S n)|].
  intros fuel' result h' Hret.
  pose proof (Hthrow (max (S n) fuel') ltac:(lia)) as Ht.
  eapply (refines_Ret _ _ _ _ _ (js_evaluate_mono native edition fuel' (max (S n) fuel') this ltac:(lia)))
    in Hret.
  congruence.
Qed.

Lemma refines_agree {A} (m : nat → M A) :
  (∀ f f', f ≤ f' → refines (m f) (m f')) →
  ∀ f1 f2 h a1 h1, m f1 h = Ret a1 h1 → m f2 h ≠ OutOfFuel → m f2 h = Ret a1 h1.
Proof.
  intros Hmono f1 f2 h a1 h1 H1 H2.
  pose proof (refines_Ret _ _ _ _ _ (Hmono f1 (max f1 f2) ltac:(lia)) H1) as Hmax.
  destruct (Hmono f2 (max f1 f2) ltac:(lia) h) as [E|E]; congruence.
Qed.

(** ** The parent search *)

Lemma js_search_scans h name visited level visited' next :
  scans h name visited level visited' next →
  ∀ fuel tail,
    SelfObjectJs.search (length level + fuel) name visited (level ++ tail) h =
    SelfObjectJs.search fuel name visited' (tail ++ next) h.
Proof.
  induction 1 as [visited|visited v level visited' next Hskip _ IH
                 |visited l o sl ps ms level visited' next Hvis Hobj Hname _ IH];
    intros fuel tail.
  - by rewrite app_nil_r.
  - cbn [length Nat.add app SelfObjectJs.search].
    assert (negb (truthy v) || has visited v = true) as ->
      by (destruct Hskip as [-> | ->]; [done|by rewrite orb_true_r]).
    apply IH.
  - cbn [length Nat.add app SelfObjectJs.search].
    rewrite Hvis. cbn [truthy negb orb].
    destruct Hobj as (Ho & Hs & Hp & _).
    rewrite (bind_as_self _ _ _ _ Ho), (bind_load_self _ _ _ _ Ho).
    rewrite (bind_load_slots _ _ _ _ Hs), Hname, (bind_load_set _ _ _ _ Hp).
    rewrite <- (app_assoc level), IH. by rewrite <- app_assoc.
Qed.

Lemma js_search_level h name start k visited level :
  level_of h name start k visited level →
  ∃ n, ∀ fuel,
    SelfObjectJs.search (n + fuel) name [] start h =
    SelfObjectJs.search fuel name visited level h.
Proof.
  induction 1 as [|k visited level visited' next _ (n & IH) Hscan].
  - by exists 0.
  - exists (n + length level). intros fuel.
    rewrite <- Nat.add_assoc, IH.
    rewrite <- (app_nil_r level) at 2.
    by rewrite (js_search_scans _ _ _ _ _ _ Hscan).
Qed.

Lemma js_search_hit h name visited a o sl ps ms queue fuel :
  has visited (VRef a) = false →
  object_at h a o sl ps ms → truthy (get_prop sl name) = true →
  SelfObjectJs.search (S fuel) name visited (VRef a :: queue) h =
    Ret (Some (get_prop sl name), a :: visited) h.
Proof.
  intros Hvis (Ho & Hs & _) Hname. cbn [SelfObjectJs.search].
  rewrite Hvis. cbn [truthy negb orb].
  rewrite (bind_as_self _ _ _ _ Ho), (bind_load_self _ _ _ _ Ho).
  by rewrite (bind_load_slots _ _ _ _ Hs), Hname.
Qed.

(** The search finds the first holder of [name] in level order. *)
Lemma js_search_level_order h name start k visited level pre a post
    visited' next ao asl aps ams :
  level_of h name start k visited level →
  level = pre ++ VRef a :: post →
  scans h name visited pre visited' next →
  has visited' (VRef a) = false →
  object_at h a ao asl aps ams → truthy (get_prop asl name) = true →
  ∃ n, ∀ fuel, n ≤ fuel →
    SelfObjectJs.search fuel name [] start h =
      Ret (Some (get_prop asl name), a :: visited') h.
Proof.
  intros Hlevel -> Hscan Hvis Ha Hname.
  destruct (js_search_level _ _ _ _ _ _ Hlevel) as (n & Hn).
  exists (n + (length pre + 1)). intros fuel Hle.
  replace fuel with (n + (length pre + S (fuel - (n + (length pre + 1))))) by lia.
  rewrite Hn, (js_search_scans _ _ _ _ _ _ Hscan). cbn [app].
  by erewrite js_search_hit.
Qed.

Lemma js_sendAMessage_inherits native edition h this o sl ps ms name fuel v visited :
  object_at h this o sl ps ms → truthy (get_prop sl name) = false →
  SelfObjectJs.search fuel name [] (map (get_prop sl) ps) h = Ret (Some v, visited) h →
  SelfObjectJs.sendAMessage native edition (S fuel) this name h =
    (let* target := as_self v in SelfObjectJs.evaluate native edition fuel target) h.
Proof.
  intros (Ho & Hs & Hp & _) Hname Hsearch. cbn [SelfObjectJs.sendAMessage].
  rewrite (bind_load_self _ _ _ _ Ho), (bind_load_slots _ _ _ _ Hs), Hname.
  by rewrite (bind_load_set _ _ _ _ Hp), (bind_Ret _ _ _ _ _ Hsearch).
Qed.

Lemma weight_visit_aux cost visited l (ls : list Loc) :
  l ∉ visited → NoDup ls →
  sum_list_with (λ x, if decide (x ∈ visited) then 0 else cost x) ls =
  sum_list_with (λ x, if decide (x ∈ l :: visited) then 0 else cost x) ls +
  (if decide (l ∈ ls) then cost l else 0).
Proof.
  intros Hl. induction ls as [|x ls IH]; intros Hnd; [done|].
  apply NoDup_cons in Hnd as [Hx Hnd]. cbn [sum_list_with].
  rewrite (IH Hnd).
  destruct (decide (x = l)) as [->|Hne].
  - rewrite (decide_False (P := l ∈ visited)) by done.
    rewrite (decide_True (P := l ∈ l :: visited)) by apply list_elem_of_here.
    rewrite (decide_False (P := l ∈ ls)) by done.
    rewrite (decide_True (P := l ∈ l :: ls)) by apply list_elem_of_here. lia.
  - assert (x ∈ l :: visited ↔ x ∈ visited) as Hiff
      by (rewrite elem_of_cons; tauto).
    assert (l ∈ x :: ls ↔ l ∈ ls) as Hiff'
      by (rewrite elem_of_cons; split; [intros [?|?]; [congruence|done]|auto]).
    destruct (decide (x ∈ visited)), (decide (x ∈ l :: visited)),
      (decide (l ∈ ls)), (decide (l ∈ x :: ls)); try tauto; lia.
Qed.

Lemma weight_visit cost size visited l :
  l ∉ visited → l < size →
  weight cost size visited = weight cost size (l :: visited) + cost l.
Proof.
  intros Hl Hlt. unfold weight.
  rewrite (weight_visit_aux cost visited l _ Hl (NoDup_seq 0 size)).
  rewrite decide_True; [done|]. apply elem_of_seq. lia.
Qed.

Lemma weight_mono cost size visited visited' :
  visited ⊆ visited' → weight cost size visited' ≤ weight cost size visited.
Proof.
  intros Hsub. unfold weight.
  induction (seq 0 size) as [|x ls IH]; [done|]. cbn [sum_list_with].
  destruct (decide (x ∈ visited)) as [Hx|Hx].
  - rewrite decide_True by by apply Hsub. lia.
  - destruct (decide (x ∈ visited')); lia.
Qed.

Lemma parent_values_object_at h l o sl ps ms :
  object_at h l o sl ps ms → parent_values h l = map (get_prop sl) ps.
Proof.
  intros H. unfold parent_values.
  by rewrite (slots_of_object_at _ _ _ _ _ _ H), (parents_of_object_at _ _ _ _ _ _ H).
Qed.

Section Termination.

Variable h : Heap.
Variable name : string.

(** A set of objects closed under the parent slots, none of which holds
    [name]. *)
Variable family : Loc → Prop.
Hypothesis family_lacks : ∀ l, family l → lacks h name l.
Hypothesis family_closed :
  ∀ l l', family l → VRef l' ∈ parent_values h l → family l'.

Lemma family_parents l o sl ps ms :
  family l → object_at h l o sl ps ms →
  Forall (in_family family) (map (get_prop sl) ps).
Proof.
  intros Hl Hobj.
  destruct (family_lacks l Hl) as (o' & sl' & ps' & ms' & Hobj' & _ & Hall).
  assert (map (get_prop sl') ps' = map (get_prop sl) ps) as Heq.
  { by rewrite <- (parent_values_object_at _ _ _ _ _ _ Hobj'),
               <- (parent_values_object_at _ _ _ _ _ _ Hobj). }
  rewrite Heq in Hall.
  apply Forall_forall. intros v Hv.
  rewrite Forall_forall in Hall. destruct (Hall v Hv) as [Hf|(l' & ->)]; [by left|].
  right. exists l'. split; [done|]. eapply family_closed; [exact Hl|].
  by rewrite (parent_values_object_at _ _ _ _ _ _ Hobj).
Qed.

Lemma js_search_misses fuel : ∀ visited queue,
  NoDup visited → Forall (in_family family) queue →
  length queue + weight (λ l, length (parent_values h l)) (length h) visited < fuel →
  ∃ visited',
    SelfObjectJs.search fuel name visited queue h = Ret (None, visited') h ∧
    NoDup visited' ∧ ∀ l, l ∈ visited' → l ∈ visited ∨ family l.
Proof.
  induction fuel as [|fuel IH]; intros visited queue Hnd Hq Hfuel; [lia|].
  destruct queue as [|v queue].
  - exists visited. split_and!; [done|done|auto].
  - apply Forall_cons in Hq as [Hv Hq]. cbn [length] in Hfuel.
    cbn [SelfObjectJs.search].
    destruct (negb (truthy v) || has visited v) eqn:Hskip.
    + apply IH; [done|done|lia].
    + apply orb_false_iff in Hskip as [Htruthy Hhas].
      destruct Hv as [Hv|(l & -> & Hl)]; [by rewrite Hv in Htruthy|].
      cbn [has] in Hhas. apply bool_decide_eq_false in Hhas.
      destruct (family_lacks l Hl) as (o & sl & ps & ms & Hobj & Hname & _).
      pose proof (family_parents l _ _ _ _ Hl Hobj) as Hkids.
      pose proof (object_at_lt _ _ _ _ _ _ Hobj) as (Hlt & _).
      pose proof (weight_visit (λ l, length (parent_values h l)) _ _ _ Hhas Hlt) as Hw.
      cbn beta in Hw. rewrite (parent_values_object_at _ _ _ _ _ _ Hobj) in Hw.
      destruct Hobj as (Ho & Hs & Hp & _).
      rewrite (bind_as_self _ _ _ _ Ho), (bind_load_self _ _ _ _ Ho).
      rewrite (bind_load_slots _ _ _ _ Hs), Hname, (bind_load_set _ _ _ _ Hp).
      destruct (IH (l :: visited) (queue ++ map (get_prop sl) ps))
        as (visited' & Hsearch & Hnd' & Hsub).
      * by apply NoDup_cons.
      * by apply Forall_app.
      * rewrite length_app. lia.
      * exists visited'. split_and!; [done|done|].
        intros l' Hl'. destruct (Hsub l' Hl') as [Hin|?]; [|by right].
        apply elem_of_cons in Hin as [->|?]; [by right|by left].
Qed.

Variable native : nat → Value → list Value → M Value.

Lemma p0_search_misses fuel :
  (∀ this visited,
     family this → this ∉ visited → NoDup visited →
     weight (λ l, length (parent_values h l) + 2) (length h) visited ≤ fuel →
     ∃ visited',
       Part000.sendAMessage native fuel this name visited h = Ret (VNull, visited') h ∧
       NoDup visited' ∧ this :: visited ⊆ visited' ∧
       ∀ l, l ∈ visited' → l ∈ visited ∨ family l) ∧
  (∀ this o sl ps ms i visited,
     family this → object_at h this o sl ps ms → NoDup visited →
     (length ps - i) + 1 +
       weight (λ l, length (parent_values h l) + 2) (length h) visited ≤ fuel →
     ∃ visited',
       Part000.each_parent native fuel this (parents o) i name visited h =
         Ret (VNull, visited') h ∧
       NoDup visited' ∧ visited ⊆ visited' ∧
       ∀ l, l ∈ visited' → l ∈ visited ∨ family l).
Proof.
  induction fuel as [|fuel [IHsend IHeach]].
  - split.
    + intros this visited Hthis Hnew _ Hfuel.
      destruct (family_lacks this Hthis) as (o & sl & ps & ms & Hobj & _).
      pose proof (object_at_lt _ _ _ _ _ _ Hobj) as (Hlt & _).
      pose proof (weight_visit (λ l, length (parent_values h l) + 2) _ _ _ Hnew Hlt).
      cbn beta in *. lia.
    + intros; lia.
  - split.
    + intros this visited Hthis Hnew Hnd Hfuel.
      destruct (family_lacks this Hthis) as (o & sl & ps & ms & Hobj & Hname & _).
      pose proof (object_at_lt _ _ _ _ _ _ Hobj) as (Hlt & _).
      pose proof (weight_visit (λ l, length (parent_values h l) + 2) _ _ _ Hnew Hlt) as Hw.
      cbn beta in Hw.
      rewrite (parent_values_object_at _ _ _ _ _ _ Hobj), length_map in Hw.
      destruct (IHeach this o sl ps ms 0 (this :: visited) Hthis Hobj)
        as (visited' & Heach & Hnd' & Hsub & Hfam);
        [by apply NoDup_cons|lia|].
      exists visited'. cbn [Part000.sendAMessage].
      rewrite (bind_load_self _ _ _ _ (proj1 Hobj)).
      rewrite (bind_load_slots _ _ _ _ (proj1 (proj2 Hobj))), Hname.
      split_and!; [done|done|done|].
      intros l Hl. destruct (Hfam l Hl) as [Hin|?]; [|by right].
      apply elem_of_cons in Hin as [->|?]; [by right|by left].
    + intros this o sl ps ms i visited Hthis Hobj Hnd Hfuel.
      cbn [Part000.each_parent].
      rewrite (bind_load_set _ _ _ _ (proj1 (proj2 (proj2 Hobj)))).
      destruct (ps !! i) as [p|] eqn:Hp.
      2:{ exists visited. split_and!; [done|done|done|auto]. }
      pose proof (lookup_lt_Some _ _ _ Hp) as Hi.
      rewrite (bind_load_self _ _ _ _ (proj1 Hobj)).
      rewrite (bind_load_slots _ _ _ _ (proj1 (proj2 Hobj))). cbn zeta.
      assert (in_family family (get_prop sl p)) as Hparent.
      { pose proof (family_parents this _ _ _ _ Hthis Hobj) as Hall.
        rewrite Forall_forall in Hall. apply Hall.
        apply list_elem_of_fmap. exists p. split; [done|].
        by eapply list_elem_of_lookup_2. }
      destruct (truthy (get_prop sl p) && negb (has visited (get_prop sl p))) eqn:Hgo.
      * apply andb_true_iff in Hgo as [Htruthy Hhas].
        destruct Hparent as [Hf|(l & Hl & Hfam)]; [by rewrite Hf in Htruthy|].
        rewrite Hl in *. cbn [has] in Hhas.
        apply negb_true_iff, bool_decide_eq_false in Hhas.
        destruct (family_lacks l Hfam) as (lo & _ & _ & _ & (Hlo & _) & _).
        rewrite (bind_as_self _ _ _ _ Hlo).
        destruct (IHsend l visited Hfam Hhas Hnd ltac:(lia))
          as (visited1 & Hsend & Hnd1 & Hsub1 & Hfam1).
        rewrite (bind_Ret _ _ _ _ _ Hsend). cbn [truthy].
        assert (visited ⊆ visited1) as Hsub1'
          by (intros x Hx; apply Hsub1; by apply list_elem_of_further).
        pose proof (weight_mono (λ l, length (parent_values h l) + 2) (length h)
                      _ _ Hsub1') as Hmono.
        destruct (IHeach this o sl ps ms (S i) visited1 Hthis Hobj Hnd1 ltac:(lia))
          as (visited' & Heach & Hnd' & Hsub & Hfam').
        exists visited'. split_and!; [done|done| |].
        -- by etrans.
        -- intros x Hx. destruct (Hfam' x Hx) as [Hin|?]; [|by right]. by apply Hfam1.
      * destruct (IHeach this o sl ps ms (S i) visited Hthis Hobj Hnd ltac:(lia))
          as (visited' & Heach & Hnd' & Hsub & Hfam').
        by exists visited'.
Qed.

End Termination.

(** ** The example objects *)

Lemma example_native_framed n this args : framed (example_native n this args).
Proof.
  destruct n as [|[|n]]; simpl; [apply framed_ret| |apply framed_throw].
  apply framed_bind; [|intros ?; apply framed_ret].
  unfold new_SelfObject. framed_tac.
Qed.

Lemma chain_world_objA :
  object_at chain_world 3 (mkSelfObject 0 1 2 VNull VNull)
    (<["c" := VRef 11]> {["b" := VRef 7]}) ["c"] ["b"; "c"].
Proof. split_and!; vm_compute; reflexivity. Qed.

Lemma chain_world_objB :
  object_at chain_world 7 (mkSelfObject 4 5 6 (VStr "I am B") VNull) ∅ [] [].
Proof. split_and!; vm_compute; reflexivity. Qed.

Lemma missing_world_objA :
  object_at missing_world 3 (mkSelfObject 0 1 2 VNull VNull)
    {["b" := VRef 7]} [] ["zzz"; "b"].
Proof. split_and!; vm_compute; reflexivity. Qed.

Lemma native_world_obj :
  object_at native_world 3 (mkSelfObject 0 1 2 VNull (VFun 0))
    {["parameter" := VRef 7]} [] [].
Proof. split_and!; vm_compute; reflexivity. Qed.

Lemma falsy_world_obj :
  object_at falsy_world 3 (mkSelfObject 0 1 2 VNull VNull)
    {["n" := VNum 0]} [] [].
Proof. split_and!; vm_compute; reflexivity. Qed.

Lemma grandparent_world_A :
  object_at grandparent_world 3 (mkSelfObject 0 1 2 VNull VNull)
    (<["c" := VRef 11]> {["b" := VRef 7]}) ["b"; "c"] [].
Proof. split_and!; vm_compute; reflexivity. Qed.

Lemma grandparent_world_B :
  object_at grandparent_world 7 (mkSelfObject 4 5 6 VNull VNull)
    {["d" := VRef 15]} ["d"] [].
Proof. split_and!; vm_compute; reflexivity. Qed.

Lemma grandparent_world_C :
  object_at grandparent_world 11 (mkSelfObject 8 9 10 VNull VNull)
    {["x" := VRef 23]} [] [].
Proof. split_and!; vm_compute; reflexivity. Qed.

Lemma grandparent_world_D :
  object_at grandparent_world 15 (mkSelfObject 12 13 14 VNull VNull)
    (<["y" := VRef 19]> {["x" := VRef 19]}) [] [].
Proof. split_and!; vm_compute; reflexivity. Qed.

Lemma grandparent_world_x1 :
  object_at grandparent_world 19 (mkSelfObject 16 17 18 (VNum 1) VNull) ∅ [] [].
Proof. split_and!; vm_compute; reflexivity. Qed.

Lemma diamond_world_A :
  object_at diamond_world 3 (mkSelfObject 0 1 2 VNull VNull)
    (<["c" := VRef 11]> {["b" := VRef 7]}) ["b"; "c"] [].
Proof. split_and!; vm_compute; reflexivity. Qed.

Lemma diamond_world_B :
  object_at diamond_world 7 (mkSelfObject 4 5 6 VNull VNull)
    {["d" := VRef 15]} ["d"] [].
Proof. split_and!; vm_compute; reflexivity. Qed.

Lemma diamond_world_C :
  object_at diamond_world 11 (mkSelfObject 8 9 10 VNull VNull)
    {["d" := VRef 15]} ["d"] [].
Proof. split_and!; vm_compute; reflexivity. Qed.

Lemma diamond_world_D :
  object_at diamond_world 15 (mkSelfObject 12 13 14 VNull VNull)
    {["a" := VRef 3]} ["a"] [].
Proof. split_and!; vm_compute; reflexivity. Qed.

Ltac in_list :=
  repeat first [apply list_elem_of_here | apply list_elem_of_further].

Lemma diamond_world_lacks l :
  l ∈ [3; 7; 11; 15] → lacks diamond_world "x" l.
Proof.
  intros Hl. repeat (apply elem_of_cons in Hl as [->|Hl]);
    [| | | |by apply not_elem_of_nil in Hl].
  - eexists _, _, _, _. split; [exact diamond_world_A|].
    split; [vm_compute; reflexivity|]. cbn [map].
    repeat (constructor; [right; eexists; vm_compute; reflexivity|]). constructor.
  - eexists _, _, _, _. split; [exact diamond_world_B|].
    split; [vm_compute; reflexivity|]. cbn [map].
    repeat (constructor; [right; eexists; vm_compute; reflexivity|]). constructor.
  - eexists _, _, _, _. split; [exact diamond_world_C|].
    split; [vm_compute; reflexivity|]. cbn [map].
    repeat (constructor; [right; eexists; vm_compute; reflexivity|]). constructor.
  - eexists _, _, _, _. split; [exact diamond_world_D|].
    split; [vm_compute; reflexivity|]. cbn [map].
    repeat (constructor; [right; eexists; vm_compute; reflexivity|]). constructor.
Qed.

Lemma diamond_world_parents l l' :
  l ∈ [3; 7; 11; 15] → VRef l' ∈ parent_values diamond_world l →
  l' ∈ [3; 7; 11; 15].
Proof.
  intros Hl. repeat (apply elem_of_cons in Hl as [->|Hl]);
    [| | | |by apply not_elem_of_nil in Hl].
  - rewrite (parent_values_object_at _ _ _ _ _ _ diamond_world_A).
    vm_compute. intros H. repeat (apply elem_of_cons in H as [[= ->]|H]);
      [in_list..|by apply not_elem_of_nil in H].
  - rewrite (parent_values_object_at _ _ _ _ _ _ diamond_world_B).
    vm_compute. intros H. repeat (apply elem_of_cons in H as [[= ->]|H]);
      [in_list..|by apply not_elem_of_nil in H].
  - rewrite (parent_values_object_at _ _ _ _ _ _ diamond_world_C).
    vm_compute. intros H. repeat (apply elem_of_cons in H as [[= ->]|H]);
      [in_list..|by apply not_elem_of_nil in H].
  - rewrite (parent_values_object_at _ _ _ _ _ _ diamond_world_D).
    vm_compute. intros H. repeat (apply elem_of_cons in H as [[= ->]|H]);
      [in_list..|by apply not_elem_of_nil in H].
Qed.

Lemma diamond_world_ancestors l :
  ancestor diamond_world 3 l → l ∈ [3; 7; 11; 15].
Proof.
  induction 1 as [l Hl|l l' _ IH Hl'].
  - eapply diamond_world_parents; [|exact Hl]. in_list.
  - by eapply diamond_world_parents.
Qed.

(** ** Slots that read no object *)

Lemma as_self_not_object {A} v (k : Loc → M A) h :
  (∀ l, v ≠ VRef l) → bind (as_self v) k h = Throw TypeError h.
Proof. intros Hv. destruct v; try done. by destruct (Hv l). Qed.

(** A slot that reads a truthy value which is no object: [.evaluate()]
    and [.copy()] are called on it. *)
Lemma slot_without_object_throws native edition h this o sl ps ms name fuel paramObj :
  object_at h this o sl ps ms →
  truthy (get_prop sl name) = true → (∀ l, get_prop sl name ≠ VRef l) →
  SelfObjectJs.sendAMessage native edition (S fuel) this name h = Throw TypeError h ∧
  Part000.dispatch native (S fuel) this name h = Throw TypeError h ∧
  SelfObjectJs.sendAMessageWithParameters native edition fuel this name paramObj h =
    Throw TypeError h ∧
  Part000.sendAMessageWithParameters native (S fuel) this name paramObj h =
    Throw TypeError h.
Proof.
  intros (Ho & Hs & _) Htruthy Hv. split_and!.
  - cbn [SelfObjectJs.sendAMessage].
    rewrite (bind_load_self _ _ _ _ Ho), (bind_load_slots _ _ _ _ Hs), Htruthy.
    by apply as_self_not_object.
  - unfold Part000.dispatch. cbn [Part000.sendAMessage].
    rewrite bind_assoc, (bind_load_self _ _ _ _ Ho).
    rewrite bind_assoc, (bind_load_slots _ _ _ _ Hs), Htruthy.
    rewrite bind_assoc. by apply as_self_not_object.
  - unfold SelfObjectJs.sendAMessageWithParameters, SelfObjectJs.bind_parameter.
    rewrite (bind_load_self _ _ _ _ Ho), (bind_load_slots _ _ _ _ Hs), Htruthy.
    rewrite bind_assoc. by apply as_self_not_object.
  - cbn [Part000.sendAMessageWithParameters]. unfold Part000.bind_parameter.
    rewrite (bind_load_self _ _ _ _ Ho), (bind_load_slots _ _ _ _ Hs), Htruthy.
    rewrite bind_assoc. by apply as_self_not_object.
Qed.

(** A name of [Object.prototype] that is no key reads a function. *)
Lemma inherited_name_throws native edition h this o sl ps ms name fuel paramObj :
  object_at h this o sl ps ms →
  sl !! name = None → name ∈ Object_prototype_names →
  SelfObjectJs.sendAMessage native edition (S fuel) this name h = Throw TypeError h ∧
  Part000.dispatch native (S fuel) this name h = Throw TypeError h ∧
  SelfObjectJs.sendAMessageWithParameters native edition fuel this name paramObj h =
    Throw TypeError h ∧
  Part000.sendAMessageWithParameters native (S fuel) this name paramObj h =
    Throw TypeError h.
Proof.
  intros Hobj Hnone Hname. apply (slot_without_object_throws _ _ _ _ _ _ _ _ _ _ _ Hobj).
  - by apply truthy_get_prop_inherited.
  - intros l Hl. apply get_prop_VRef in Hl. by rewrite Hnone in Hl.
Qed.

(** * The claims *)

(** ** C1: a message chain threads its results *)

(** C1, amended. In both texts of [SelfObject.js], an object with no
    primitive, no native function and some messages evaluates to [result]
    exactly when the names, sent in order from a copy of the object, each
    to the result of the one before, all find a match and the last
    dispatch returns [result]. In [part_000] every name is sent to the
    copy itself, and [result] is what the last dispatch returns. (The
    native functions change no existing cell.) *)
Theorem message_chain_is_threaded native edition :
  (∀ n this args, framed (native n this args)) →
  chain_is_threaded (SelfObjectJs.evaluate native edition)
                    (SelfObjectJs.sendAMessage native edition) ∧
  (∀ h this o sl ps ms result h',
     object_at h this o sl ps ms →
     primitive o = VNull → primitiveFn o = VNull → ms ≠ [] →
     (∃ fuel, Part000.evaluate native fuel this h = Ret result h') ↔
     (∃ c h0, copy this h = Ret c h0 ∧
        sent_to_copy (Part000.dispatch native) ms c h0 (VRef c) result h')).
Proof.
  intros Hnative. split; [by apply js_chain_is_threaded|].
  intros h this o sl ps ms result h' Hobj Hp Hf Hms.
  rewrite (copy_Ret _ _ _ _ _ _ Hobj).
  assert ((h ++ copied h o sl ps ms) !! (length h + 6) = Some (CArr ms)) as Harr
    by by rewrite lookup_above.
  split.
  - intros ([|fuel] & Hev); [done|].
    rewrite (p0_evaluate_chain _ _ _ _ _ _ _ _ Hobj Hp Hf Hms) in Hev.
    eexists _, _. split; [reflexivity|].
    by apply (p0_each_message_sound native Hnative fuel _ _ ms 0 _ _ _ _ _
                Harr (extends_refl _)) in Hev.
  - intros (c & h0 & [= <- <-] & Hsent).
    destruct (p0_each_message_complete native Hnative ms _ _ ms 0 _ _ _ _ _
                Harr (extends_refl _) eq_refl Hsent) as (n & Hn).
    exists (S n).
    rewrite (p0_evaluate_chain _ _ _ _ _ _ _ _ Hobj Hp Hf Hms). by apply Hn.
Qed.

(** C1 with the example native functions. *)
Lemma message_chain_is_threaded_witness :
  (∀ n this args, framed (example_native n this args)) ∧
  chain_is_threaded (SelfObjectJs.evaluate example_native First)
                    (SelfObjectJs.sendAMessage example_native First).
Proof.
  split; [exact example_native_framed|].
  exact (proj1 (message_chain_is_threaded example_native First example_native_framed)).
Defined.

(** C1 fails on [part_000]: [objA] evaluates to a copy of [objC], for
    ["c"] is sent to the copy of [objA]; sent to the result of ["b"], a
    copy of [objB], it finds nothing. *)
Lemma part_000_chain_is_not_threaded :
  ¬ chain_is_threaded (Part000.evaluate no_native) (Part000.dispatch no_native).
Proof.
  intros H.
  destruct (Part000.evaluate no_native 20 3 chain_world) as [result h'| |] eqn:Hev;
    [|by vm_compute in Hev..].
  destruct (H _ _ _ _ _ _ result h' chain_world_objA eq_refl eq_refl ltac:(done))
    as [Hfwd _].
  destruct (Hfwd (ex_intro _ 20 Hev)) as (c & h0 & Hcopy & Hthr).
  vm_compute in Hcopy. injection Hcopy as <- <-.
  simpl in Hthr.
  destruct Hthr as (f1 & r1 & n1 & h1 & [= <-] & Hs1 & _ &
                    f2 & r2 & n2 & h2 & -> & Hs2 & Ht2 & _).
  pose proof (refines_agree _
    (λ f f' Hle, p0_dispatch_mono no_native f f' 15 "b" Hle) f1 20 _ _ _ Hs1) as E.
  vm_compute in E. specialize (E ltac:(done)). injection E as <- <-.
  pose proof (refines_agree _
    (λ f f' Hle, p0_dispatch_mono no_native f f' _ "c" Hle) f2 20 _ _ _ Hs2) as E.
  vm_compute in E. specialize (E ltac:(done)). injection E as <- _.
  done.
Qed.

(** ** C2: a message with no match *)

(** C2, amended. In both texts of [SelfObject.js], when the names before
    [name] thread from the copy to [receiver] and [receiver] has no match
    for [name], [evaluate] throws [MessageNotFound name] from the heap
    that dispatch leaves and returns nothing. In [part_000] nothing is
    thrown: the names after [name] are sent to the copy as well, and
    [evaluate] returns what the last dispatch returns. (The native
    functions change no existing cell.) *)
Theorem missing_message_throws_in_SelfObject_js native edition :
  (∀ n this args, framed (native n this args)) →
  missing_message_fails (SelfObjectJs.evaluate native edition)
                        (SelfObjectJs.sendAMessage native edition) ∧
  (∀ h this o sl ps pre name post c h0 last h1 fuel h2 result h',
     object_at h this o sl ps (pre ++ name :: post) →
     primitive o = VNull → primitiveFn o = VNull →
     copy this h = Ret c h0 →
     sent_to_copy (Part000.dispatch native) pre c h0 (VRef c) last h1 →
     Part000.dispatch native fuel c name h1 = Ret VNull h2 →
     sent_to_copy (Part000.dispatch native) post c h2 VNull result h' →
     ∃ fuel0, ∀ fuel', fuel0 ≤ fuel' →
       Part000.evaluate native fuel' this h = Ret result h').
Proof.
  intros Hnative. split; [by apply js_missing_message_fails|].
  intros h this o sl ps pre name post c h0 last h1 fuel h2 result h'
    Hobj Hp Hf Hcopy Hpre Hmiss Hpost.
  assert (pre ++ name :: post ≠ []) as Hms by by destruct pre.
  rewrite (copy_Ret _ _ _ _ _ _ Hobj) in Hcopy. injection Hcopy as <- <-.
  assert ((h ++ copied h o sl ps (pre ++ name :: post)) !! (length h + 6) =
            Some (CArr (pre ++ name :: post))) as Harr
    by by rewrite lookup_above.
  assert (sent_to_copy (Part000.dispatch native) (pre ++ name :: post)
            (length h + 3) (h ++ copied h o sl ps (pre ++ name :: post))
            (VRef (length h + 3)) result h') as Hall.
  { eapply sent_to_copy_app; [exact Hpre|]. simpl. eauto. }
  destruct (p0_each_message_complete native Hnative _ _ _ _ 0 _ _ _ _ _
              Harr (extends_refl _) eq_refl Hall) as (n & Hn).
  exists (S n). intros [|fuel'] Hle; [lia|].
  rewrite (p0_evaluate_chain _ _ _ _ _ _ _ _ Hobj Hp Hf Hms). apply Hn. lia.
Qed.

(** C2 with the example native functions. *)
Lemma missing_message_throws_in_SelfObject_js_witness :
  (∀ n this args, framed (example_native n this args)) ∧
  missing_message_fails (SelfObjectJs.evaluate example_native First)
                        (SelfObjectJs.sendAMessage example_native First).
Proof.
  split; [exact example_native_framed|].
  exact (proj1 (missing_message_throws_in_SelfObject_js example_native First example_native_framed)).
Defined.

(** C2 fails on [part_000]: ["zzz"], the first message of [objA], has no
    match on the copy, and yet [objA] evaluates to an object: nothing is
    thrown, and the message after it is sent as well. *)
Lemma part_000_missing_message_is_skipped :
  ¬ missing_message_fails (Part000.evaluate no_native) (Part000.dispatch no_native).
Proof.
  intros H.
  edestruct (λ c h0 receiver h1 h2,
               H missing_world 3 _ _ _ [] "zzz" ["b"] c h0 receiver h1 20 h2
                 missing_world_objA eq_refl eq_refl) as [_ Hnever].
  - vm_compute. reflexivity.
  - split; reflexivity.
  - vm_compute. reflexivity.
  - eapply (Hnever 20). vm_compute. reflexivity.
Qed.

(** On the example, [SelfObject.js] throws for ["zzz"] and [part_000]
    returns a copy of [objB]. *)
Example missing_world_evaluates :
  (match SelfObjectJs.evaluate no_native First 20 3 missing_world with
   | Throw e _ => Some e
   | _ => None
   end) = Some (MessageNotFound "zzz") ∧
  (match Part000.evaluate no_native 20 3 missing_world with
   | Ret (VRef c) h => primitive <$> self_at h c
   | _ => None
   end) = Some (VStr "I am B").
Proof. split; vm_compute; reflexivity. Qed.

(** ** C3: the order of the parent search *)




(** On the example of C3, [SelfObject.js] answers with a copy of [C]'s
    [x], and [part_000] with a copy of [D]'s. *)
Example grandparent_world_answers :
  (match SelfObjectJs.sendAMessage no_native First 20 3 "x" grandparent_world with
   | Ret (VRef c) h => primitive <$> self_at h c
   | _ => None
   end) = Some (VNum 2) ∧
  (match Part000.dispatch no_native 20 3 "x" grandparent_world with
   | Ret (VRef c) h => primitive <$> self_at h c
   | _ => None
   end) = Some (VNum 1).
Proof. split; vm_compute; reflexivity. Qed.

(** ** C4: the call of the native function *)

(** C4, amended. An object with no primitive and a native function [f]
    evaluates to what [f] returns. The first text of [SelfObject.js] calls
    [f(this, this.slots['parameter'])], the second [f(this)], and
    [part_000] calls [f(this.copy())]: the first argument is then a new
    copy of the object, and there is no second argument. *)
Theorem evaluate_calls_native native fuel h this o sl ps ms f :
  object_at h this o sl ps ms →
  primitive o = VNull → primitiveFn o = VFun f →
  SelfObjectJs.evaluate native First (S fuel) this h =
    native f (VRef this) [VRef this; get_prop sl "parameter"] h ∧
  SelfObjectJs.evaluate native Second (S fuel) this h =
    native f (VRef this) [VRef this] h ∧
  Part000.evaluate native (S fuel) this h =
    native f (VRef this) [VRef (length h + 3)] (h ++ copied h o sl ps ms).
Proof.
  intros Hobj Hprim Hfn. split_and!; simpl;
    rewrite (bind_load_self _ _ _ _ (proj1 Hobj)), Hprim, Hfn; simpl.
  - by rewrite (bind_load_slots _ _ _ _ (proj1 (proj2 Hobj))).
  - done.
  - by rewrite (bind_Ret _ _ _ _ _ (copy_Ret _ _ _ _ _ _ Hobj)).
Qed.

(** C4 on the example: the first text hands the parameter over. *)
Lemma evaluate_calls_native_witness :
  object_at native_world 3 (mkSelfObject 0 1 2 VNull (VFun 0))
    {["parameter" := VRef 7]} [] [] ∧
  SelfObjectJs.evaluate example_native First 1 3 native_world =
    example_native 0 (VRef 3)
      [VRef 3; get_prop {["parameter" := VRef 7]} "parameter"] native_world.
Proof.
  split; [exact native_world_obj|].
  exact (proj1 (evaluate_calls_native example_native 0 _ _ _ _ _ _ 0
                  native_world_obj eq_refl eq_refl)).
Defined.

(** C4 fails on the second text of [SelfObject.js]: the native function
    gets no second argument, and here returns [undefined], not the object
    in the ["parameter"] slot. *)
Lemma second_text_passes_no_parameter :
  ¬ calls_native_with_parameter example_native
      (SelfObjectJs.evaluate example_native Second).
Proof.
  intros H.
  specialize (H 0 _ _ _ _ _ _ 0 native_world_obj eq_refl eq_refl).
  vm_compute in H. discriminate H.
Qed.

(** ** C5: [sendAMessageWithParameters] *)

(** The loop of [sendAMessageWithParameters] in [part_000] passes over
    the parent slots that read [undefined] or [null]: [parent?.] makes
    no call there. *)
Lemma p0_each_parent_with_skips native h this o sl ps ms name paramObj pre :
  object_at h this o sl ps ms →
  Forall (λ q, get_prop sl q = VUndefined ∨ get_prop sl q = VNull) pre →
  ∀ before rest fuel, ps = before ++ pre ++ rest →
    Part000.each_parent_with native (length pre + fuel) this (parents o) (length before)
      name paramObj h =
    Part000.each_parent_with native fuel this (parents o) (length before + length pre)
      name paramObj h.
Proof.
  intros (Ho & Hs & Hp & _). induction 1 as [|q pre Hq _ IH]; intros before rest fuel Hps.
  - by rewrite Nat.add_0_r.
  - cbn [length Nat.add Part000.each_parent_with].
    rewrite (bind_load_set _ _ _ _ Hp).
    assert (ps !! length before = Some q) as ->.
    { rewrite Hps. by rewrite lookup_app_r, Nat.sub_diag by lia. }
    rewrite (bind_load_self _ _ _ _ Ho), (bind_load_slots _ _ _ _ Hs).
    assert (bind (match get_prop sl q with
                  | VUndefined | VNull => ret VUndefined
                  | parent =>
                    let* p := as_self parent in
                    Part000.sendAMessageWithParameters native (length pre + fuel) p
                      name paramObj
                  end)
              (λ result, if truthy result then ret result
                         else Part000.each_parent_with native (length pre + fuel) this
                                (parents o) (S (length before)) name paramObj) h =
            Part000.each_parent_with native (length pre + fuel) this
              (parents o) (S (length before)) name paramObj h) as ->
      by (destruct Hq as [-> | ->]; reflexivity).
    specialize (IH (before ++ [q]) rest fuel).
    rewrite length_app in IH. cbn [length] in IH.
    rewrite Nat.add_1_r in IH. rewrite IH; [f_equal; lia|].
    by rewrite <- app_assoc.
Qed.

(** In [part_000], what the first parent that is an object answers to a
    message with a parameter, the receiver answers, if it is truthy. *)
Lemma p0_sendAMessageWithParameters_inherits native h this o sl ps ms name paramObj
    pre p rest b fuel r h' :
  object_at h this o sl ps ms → truthy (get_prop sl name) = false →
  ps = pre ++ p :: rest →
  Forall (λ q, get_prop sl q = VUndefined ∨ get_prop sl q = VNull) pre →
  get_prop sl p = VRef b →
  Part000.sendAMessageWithParameters native fuel b name paramObj h = Ret r h' →
  truthy r = true →
  Part000.sendAMessageWithParameters native (S (S (length pre + fuel))) this name paramObj h =
    Ret r h'.
Proof.
  intros Hobj Hname Hps Hpre Hb Hsend Hr.
  assert (∃ bo, h !! b = Some (CSelf bo)) as (bo & Hbo).
  { destruct fuel; [done|]. cbn [Part000.sendAMessageWithParameters] in Hsend.
    apply bind_Ret_inv in Hsend as (bo & h1 & H1 & _).
    apply load_self_Ret_inv in H1 as (_ & H1). eauto. }
  pose proof Hobj as (Ho & Hs & Hp & _).
  cbn [Part000.sendAMessageWithParameters].
  rewrite (bind_load_self _ _ _ _ Ho), (bind_load_slots _ _ _ _ Hs), Hname.
  pose proof (p0_each_parent_with_skips native h this o sl ps ms name paramObj pre
                Hobj Hpre [] (p :: rest) (S fuel) Hps) as Hskip.
  cbn [length Nat.add] in Hskip.
  replace (S (length pre + fuel)) with (length pre + S fuel) by lia.
  rewrite Hskip. cbn [Part000.each_parent_with].
  rewrite (bind_load_set _ _ _ _ Hp).
  assert (ps !! length pre = Some p) as ->.
  { rewrite Hps. by rewrite lookup_app_r, Nat.sub_diag by lia. }
  rewrite (bind_load_self _ _ _ _ Ho), (bind_load_slots _ _ _ _ Hs), Hb.
  rewrite bind_assoc, (bind_as_self _ _ _ _ Hbo).
  by rewrite (bind_Ret _ _ _ _ _ Hsend), Hr.
Qed.



(** On the example of C5 the three iterations answer with a new object of
    primitive 1 that holds the parameter, and [D]'s [y] has no
    ["parameter"] slot afterwards. *)
Example grandparent_world_parameter :
  (match SelfObjectJs.sendAMessageWithParameters no_native First 20 3 "y" (VRef 3)
           grandparent_world with
   | Ret (VRef c) h => Some (primitive <$> self_at h c, slot_of h c "parameter",
                             slot_of h 19 "parameter")
   | _ => None
   end) = Some (Some (VNum 1), Some (VRef 3), Some VUndefined) ∧
  (match Part000.sendAMessageWithParameters no_native 20 3 "y" (VRef 3)
           grandparent_world with
   | Ret (VRef c) h => Some (primitive <$> self_at h c, slot_of h c "parameter",
                             slot_of h 19 "parameter")
   | _ => None
   end) = Some (Some (VNum 1), Some (VRef 3), Some VUndefined).
Proof. split; vm_compute; reflexivity. Qed.

(** ** C6: [copy] *)



(** ** C7: the search ends on cycles and diamonds *)

(** C7 at the names of [Object.prototype]. In the diamond with a cycle
    ([A] with the parents [B] and [C], both with the parent [D], whose
    parent is [A]) no object holds a slot of any of the twelve names, and
    yet [sendAMessage] does not return [null] for them: the receiver's
    [this.slots[name]] reads the function every object inherits,
    [.evaluate()] is called on it, and a [TypeError] is thrown, in the
    three iterations, before any parent is looked into. For ["x"], which
    no object holds and nothing hands down, the answer is [null]. *)
Theorem inherited_name_is_not_NotFound native edition fuel :
  Forall (λ name,
            Forall (λ l, (slots_of diamond_world l ≫= (.!! name)) = None) [3; 7; 11; 15] ∧
            SelfObjectJs.sendAMessage native edition (S fuel) 3 name diamond_world =
              Throw TypeError diamond_world ∧
            Part000.dispatch native (S fuel) 3 name diamond_world =
              Throw TypeError diamond_world)
         Object_prototype_names ∧
  Forall (λ l, (slots_of diamond_world l ≫= (.!! "x")) = None) [3; 7; 11; 15] ∧
  SelfObjectJs.sendAMessage no_native edition 10 3 "x" diamond_world =
    Ret VNull diamond_world ∧
  Part000.dispatch no_native 20 3 "x" diamond_world = Ret VNull diamond_world.
Proof.
  split; [|split_and!; [repeat constructor|destruct edition|]; vm_compute; reflexivity].
  apply Forall_forall. intros name Hname.
  destruct (inherited_name_throws native edition _ _ _ _ _ _ name fuel VNull
              diamond_world_A) as (Hjs & Hp0 & _).
  - unfold Object_prototype_names in Hname.
    repeat (apply elem_of_cons in Hname as [->|Hname]); try (vm_compute; reflexivity).
    by apply not_elem_of_nil in Hname.
  - done.
  - split; [|done].
    unfold Object_prototype_names in Hname.
    repeat (apply elem_of_cons in Hname as [->|Hname]);
      try (repeat constructor; vm_compute; reflexivity).
    by apply not_elem_of_nil in Hname.
Qed.

(** ** C8: an object with a primitive value *)

(** C8. An object whose [primitive] is not [null] evaluates, in the three
    iterations, to a new object [c] that is not the source nor any object of
    the heap, and whose [primitive] is the source's; whatever its
    messages, native function, slots and parents are. *)
Theorem evaluate_primitive_returns_copy native edition fuel h this o sl ps ms :
  object_at h this o sl ps ms →
  primitive o ≠ VNull →
  ∃ c o' h',
    SelfObjectJs.evaluate native edition (S fuel) this h = Ret (VRef c) h' ∧
    Part000.evaluate native (S fuel) this h = Ret (VRef c) h' ∧
    c ≠ this ∧ h !! c = None ∧
    object_at h' c o' sl ps ms ∧ primitive o' = primitive o ∧
    object_at h' this o sl ps ms.
Proof.
  intros Hobj Hprim.
  pose proof (object_at_lt _ _ _ _ _ _ Hobj) as (Lt & _).
  assert (not_null (primitive o) = true) as Hnn by by destruct (primitive o).
  eexists (length h + 3), _, (h ++ copied h o sl ps ms).
  split_and!.
  - simpl. rewrite (bind_load_self _ _ _ _ (proj1 Hobj)), Hnn.
    by rewrite (bind_Ret _ _ _ _ _ (copy_Ret _ _ _ _ _ _ Hobj)).
  - simpl. rewrite (bind_load_self _ _ _ _ (proj1 Hobj)), Hnn.
    by rewrite (bind_Ret _ _ _ _ _ (copy_Ret _ _ _ _ _ _ Hobj)).
  - lia.
  - apply lookup_ge_None_2. lia.
  - apply copied_object_at.
  - done.
  - eapply object_at_extends; [apply extends_app|done].
Qed.

(** C8 on [objB] of the example. *)
Lemma evaluate_primitive_returns_copy_witness :
  object_at chain_world 7 (mkSelfObject 4 5 6 (VStr "I am B") VNull) ∅ [] [] ∧
  VStr "I am B" ≠ VNull ∧
  ∃ c h', SelfObjectJs.evaluate no_native First 1 7 chain_world = Ret (VRef c) h' ∧
          Part000.evaluate no_native 1 7 chain_world = Ret (VRef c) h' ∧ c ≠ 7.
Proof.
  split; [exact chain_world_objB|]. split; [discriminate|].
  destruct (evaluate_primitive_returns_copy no_native First 0 _ _ _ _ _ _
              chain_world_objB ltac:(discriminate))
    as (c & o' & h' & H1 & H2 & H3 & _).
  exists c, h'. exact (conj H1 (conj H2 H3)).
Defined.

(** ** C9: [makeParent] *)

(** C9 at the names of [Object.prototype]. [makeParent] tests
    [this.slots[name]], and [this.slots] is a plain [{}]: for a name such
    as ["toString"] the test reads the function every object inherits,
    which is truthy. So the name becomes a parent although no slot of that
    name exists: on a new object, for each of the twelve names, and on
    [objA] of the example, whose slots are [b] and [c]. The slots stay as
    they are. A name that is no slot and is not inherited (["zzz"]) is
    not marked. *)
Theorem makeParent_marks_an_inherited_name :
  Forall (λ name,
            returns_with
              ((let* o := new_SelfObject in
                let* _ := makeParent o name in ret o) [])
              (λ o h, slots_of h o = Some ∅ ∧ parents_of h o = Some [name]))
         Object_prototype_names ∧
  (slots_of chain_world 3 ≫= (.!! "toString")) = None ∧
  returns_with (makeParent 3 "toString" chain_world)
    (λ _ h, slots_of h 3 = slots_of chain_world 3 ∧
            parents_of h 3 = Some ["c"; "toString"]) ∧
  makeParent 3 "zzz" chain_world = Ret tt chain_world.
Proof.
  split; [|split_and!; vm_compute; done].
  unfold Object_prototype_names. repeat constructor; vm_compute; done.
Qed.

(** ** C10: a slot that holds a falsy value *)

(** C10. A slot whose value is falsy is a key of the slots, and yet: the
    receiver's own lookup does not stop at it (with no parents the
    message is not found, and otherwise the answer is up to the parent
    search); the breadth-first search of [SelfObject.js] passes over an
    ancestor that holds it and goes on with that ancestor's parents; the
    recursive search of [part_000] goes on with the parents as well; and
    [makeParent] adds no parent. *)
Theorem falsy_slot_is_treated_as_absent native edition h this o sl ps ms name v :
  object_at h this o sl ps ms →
  sl !! name = Some v → truthy v = false →
  name ∈ dom sl ∧
  makeParent this name h = Ret tt h ∧
  (ps = [] → ∀ fuel,
     SelfObjectJs.sendAMessage native edition (S (S fuel)) this name h = Ret VNull h ∧
     Part000.sendAMessage native (S (S fuel)) this name [] h = Ret (VNull, [this]) h) ∧
  (∀ fuel,
     SelfObjectJs.sendAMessage native edition (S fuel) this name h =
     (let* found := SelfObjectJs.search fuel name [] (map (get_prop sl) ps) in
      match found.1 with
      | Some v =>
        let* target := as_self v in SelfObjectJs.evaluate native edition fuel target
      | None => ret VNull
      end) h) ∧
  (∀ fuel visited queue, has visited (VRef this) = false →
     SelfObjectJs.search (S fuel) name visited (VRef this :: queue) h =
     SelfObjectJs.search fuel name (this :: visited)
       (queue ++ map (get_prop sl) ps) h) ∧
  (∀ fuel visited,
     Part000.sendAMessage native (S fuel) this name visited h =
     Part000.each_parent native fuel this (parents o) 0 name (this :: visited) h).
Proof.
  intros Hobj Hv Hfalsy.
  assert (truthy (get_prop sl name) = false) as Hg
    by (unfold get_prop; by rewrite Hv).
  destruct Hobj as (Ho & Hs & Hp & Hm).
  split_and!.
  - apply elem_of_dom. by eexists.
  - rewrite (makeParent_Ret _ _ _ _ _ _ _ (conj Ho (conj Hs (conj Hp Hm)))).
    by rewrite Hg.
  - intros -> fuel. split; simpl.
    + rewrite (bind_load_self _ _ _ _ Ho), (bind_load_slots _ _ _ _ Hs), Hg.
      by rewrite (bind_load_set _ _ _ _ Hp).
    + rewrite (bind_load_self _ _ _ _ Ho), (bind_load_slots _ _ _ _ Hs), Hg.
      by rewrite (bind_load_set _ _ _ _ Hp).
  - intros fuel. cbn [SelfObjectJs.sendAMessage].
    rewrite (bind_load_self _ _ _ _ Ho), (bind_load_slots _ _ _ _ Hs), Hg.
    by rewrite (bind_load_set _ _ _ _ Hp).
  - intros fuel visited queue Hvis. simpl in *. rewrite Hvis. simpl.
    rewrite (bind_as_self _ _ _ _ Ho).
    rewrite (bind_load_self _ _ _ _ Ho), (bind_load_slots _ _ _ _ Hs), Hg.
    by rewrite (bind_load_set _ _ _ _ Hp).
  - intros fuel visited. simpl.
    by rewrite (bind_load_self _ _ _ _ Ho), (bind_load_slots _ _ _ _ Hs), Hg.
Qed.

(** C10 on the object whose slot [n] holds 0. *)
Lemma falsy_slot_is_treated_as_absent_witness :
  object_at falsy_world 3 (mkSelfObject 0 1 2 VNull VNull) {["n" := VNum 0]} [] [] ∧
  ({["n" := VNum 0]} : gmap string Value) !! "n" = Some (VNum 0) ∧
  truthy (VNum 0) = false ∧
  makeParent 3 "n" falsy_world = Ret tt falsy_world ∧
  SelfObjectJs.sendAMessage no_native First 2 3 "n" falsy_world = Ret VNull falsy_world.
Proof.
  assert (({["n" := VNum 0]} : gmap string Value) !! "n" = Some (VNum 0)) as Hn
    by (vm_compute; reflexivity).
  split; [exact falsy_world_obj|]. split; [exact Hn|]. split; [reflexivity|].
  destruct (falsy_slot_is_treated_as_absent no_native First _ _ _ _ _ _ "n" _
              falsy_world_obj Hn eq_refl) as (_ & Hmp & Hsend & _).
  split; [exact Hmp|]. exact (proj1 (Hsend eq_refl 0)).
Defined.

(** * Further properties of the code *)

(** ** Construction *)

Lemma new_SelfObject_Ret h :
  new_SelfObject h = Ret (length h + 3) (h ++ constructed h).
Proof. unfold new_SelfObject. repeat mstep. unfold alloc. heap_norm. reflexivity. Qed.

Lemma constructed_object_at h :
  object_at (h ++ constructed h) (length h + 3)
    (mkSelfObject (length h) (length h + 1) (length h + 2) VNull VNull) ∅ [] [].
Proof.
  split_and!; cbn [slots parents messages].
  - by rewrite lookup_above.
  - by rewrite <- (Nat.add_0_r (length h)), lookup_above.
  - by rewrite lookup_above.
  - by rewrite lookup_above.
Qed.

(** X1. [new SelfObject()] allocates an object with three empty containers
    of its own, no primitive and no native function, and changes no cell
    that exists. Such an object evaluates to itself. In the three
    iterations, with or without a parameter, it answers [null] to every
    message whose name is no property of [Object.prototype], leaving the
    heap as it is; for the twelve names of [Object.prototype]
    (["toString"], ["constructor"], ...) it reads the inherited function
    as a slot and throws a [TypeError]. *)
Theorem new_object_is_empty_and_inert native edition h :
  ∃ l o h',
    new_SelfObject h = Ret l h' ∧ extends h h' ∧
    h !! l = None ∧ h !! slots o = None ∧ h !! parents o = None ∧
    h !! messages o = None ∧
    object_at h' l o ∅ [] [] ∧ primitive o = VNull ∧ primitiveFn o = VNull ∧
    (∀ fuel,
       SelfObjectJs.evaluate native edition (S fuel) l h' = Ret (VRef l) h' ∧
       Part000.evaluate native (S fuel) l h' = Ret (VRef l) h') ∧
    (∀ fuel name paramObj, name ∉ Object_prototype_names →
       SelfObjectJs.sendAMessage native edition (S (S fuel)) l name h' = Ret VNull h' ∧
       Part000.dispatch native (S (S fuel)) l name h' = Ret VNull h' ∧
       SelfObjectJs.sendAMessageWithParameters native edition (S fuel) l name paramObj h' =
         Ret VNull h' ∧
       Part000.sendAMessageWithParameters native (S (S fuel)) l name paramObj h' =
         Ret VNull h') ∧
    (∀ fuel name paramObj, name ∈ Object_prototype_names →
       SelfObjectJs.sendAMessage native edition (S fuel) l name h' = Throw TypeError h' ∧
       Part000.dispatch native (S fuel) l name h' = Throw TypeError h' ∧
       SelfObjectJs.sendAMessageWithParameters native edition fuel l name paramObj h' =
         Throw TypeError h' ∧
       Part000.sendAMessageWithParameters native (S fuel) l name paramObj h' =
         Throw TypeError h').
Proof.
  pose proof (constructed_object_at h) as Hobj.
  pose proof Hobj as (Ho & Hs & Hp & Hm).
  exists (length h + 3),
    (mkSelfObject (length h) (length h + 1) (length h + 2) VNull VNull),
    (h ++ constructed h).
  split; [apply new_SelfObject_Ret|].
  split; [apply extends_app|].
  split_and!; try (apply lookup_ge_None_2; cbn [slots parents messages]; lia);
    try done.
  - intros fuel. split; simpl.
    + rewrite (bind_load_self _ _ _ _ Ho). cbn [primitive primitiveFn not_null truthy].
      by rewrite (bind_load_arr _ _ _ _ Hm).
    + rewrite (bind_load_self _ _ _ _ Ho). cbn [primitive primitiveFn not_null].
      by rewrite (bind_load_arr _ _ _ _ Hm).
  - intros fuel name p Hname.
    assert (truthy (get_prop (∅ : gmap string Value) name) = false) as Hmiss
      by (by rewrite get_prop_not_inherited).
    split_and!.
    + cbn [SelfObjectJs.sendAMessage].
      rewrite (bind_load_self _ _ _ _ Ho), (bind_load_slots _ _ _ _ Hs), Hmiss.
      by rewrite (bind_load_set _ _ _ _ Hp).
    + unfold Part000.dispatch. cbn [Part000.sendAMessage Part000.each_parent].
      rewrite bind_assoc.
      rewrite (bind_load_self _ _ _ _ Ho), bind_assoc, (bind_load_slots _ _ _ _ Hs), Hmiss.
      rewrite bind_assoc.
      by rewrite (bind_load_set _ _ _ _ Hp).
    + unfold SelfObjectJs.sendAMessageWithParameters.
      rewrite (bind_load_self _ _ _ _ Ho), (bind_load_slots _ _ _ _ Hs), Hmiss.
      by rewrite (bind_load_set _ _ _ _ Hp).
    + cbn [Part000.sendAMessageWithParameters Part000.each_parent_with].
      rewrite (bind_load_self _ _ _ _ Ho), (bind_load_slots _ _ _ _ Hs), Hmiss.
      by rewrite (bind_load_set _ _ _ _ Hp).
  - intros fuel name p Hname.
    by apply (inherited_name_throws _ _ _ _ _ _ _ _ _ _ _ Hobj).
Qed.

(** ** [assignSlot] and [assignParentSlot] *)

Lemma slot_of_object_at h l o sl ps ms name :
  object_at h l o sl ps ms → slot_of h l name = Some (get_prop sl name).
Proof. intros H. unfold slot_of. by rewrite (slots_of_object_at _ _ _ _ _ _ H). Qed.

Lemma self_at_object_at h l o sl ps ms :
  object_at h l o sl ps ms → self_at h l = Some o.
Proof. intros (H & _). unfold self_at. by rewrite H. Qed.

Lemma get_prop_insert_ne sl name n v :
  n ≠ name → get_prop (<[name := v]> sl) n = get_prop sl n.
Proof. intros H. unfold get_prop. by rewrite lookup_insert_ne. Qed.

Lemma set_add_elem name ps : name ∈ ps → set_add name ps = ps.
Proof. intros H. unfold set_add. by rewrite decide_True. Qed.

Lemma set_add_new name ps : name ∉ ps → set_add name ps = ps ++ [name].
Proof. intros H. unfold set_add. by rewrite decide_False. Qed.

Lemma set_add_idemp name ps : set_add name (set_add name ps) = set_add name ps.
Proof.
  apply set_add_elem. unfold set_add. destruct (decide (name ∈ ps)); [done|].
  apply elem_of_app. right. apply list_elem_of_here.
Qed.

Lemma assignParentSlot_Ret h this o sl ps ms name v :
  object_at h this o sl ps ms → name ≠ "__proto__" →
  assignParentSlot this name v h =
    Ret tt (if truthy v
            then <[parents o := CSet (set_add name ps)]>
                   (<[slots o := CSlots (<[name := v]> sl)]> h)
            else <[slots o := CSlots (<[name := v]> sl)]> h).
Proof.
  intros Hobj Hname. unfold assignParentSlot.
  rewrite (bind_Ret _ _ _ _ _ (assignSlot_key_Ret _ _ _ _ _ _ name v Hobj Hname)).
  rewrite (makeParent_Ret _ _ _ _ _ _ name (object_at_assignSlot _ _ _ _ _ _ name v Hobj)).
  by rewrite get_prop_insert.
Qed.

Lemma object_at_assignParentSlot h this o sl ps ms name v :
  object_at h this o sl ps ms →
  object_at (if truthy v
             then <[parents o := CSet (set_add name ps)]>
                    (<[slots o := CSlots (<[name := v]> sl)]> h)
             else <[slots o := CSlots (<[name := v]> sl)]> h)
    this o (<[name := v]> sl) (if truthy v then set_add name ps else ps) ms.
Proof.
  intros Hobj. pose proof (object_at_assignSlot _ _ _ _ _ _ name v Hobj) as H1.
  destruct (truthy v); [|done]. by eapply object_at_makeParent.
Qed.

(** A write of the contents a cell has changes nothing. *)
Lemma store_same_cell (h : Heap) l c : h !! l = Some c → <[l := c]> h = h.
Proof. apply list_insert_id. Qed.





(** X22. [makeParent] never fails on an object, and what it does is
    decided by what [this.slots[name]] reads: a falsy value (a key that
    holds one, or a name that is neither a key nor a property of
    [Object.prototype]) leaves the heap as it is; a truthy value (a key
    that holds one, or a name of [Object.prototype] that is no key) adds
    the name to the parents, once, and changes nothing else. *)
Theorem makeParent_marks_what_reads_truthy h this o sl ps ms name :
  object_at h this o sl ps ms →
  (truthy (get_prop sl name) = false → makeParent this name h = Ret tt h) ∧
  (truthy (get_prop sl name) = true →
   makeParent this name h = Ret tt (<[parents o := CSet (set_add name ps)]> h)) ∧
  (sl !! name = None → name ∉ Object_prototype_names →
   makeParent this name h = Ret tt h) ∧
  (sl !! name = None → name ∈ Object_prototype_names →
   makeParent this name h = Ret tt (<[parents o := CSet (set_add name ps)]> h)) ∧
  ∃ h', makeParent this name h = Ret tt h' ∧
    (h' = h ∨
     (is_Some (sl !! name) ∨ name ∈ Object_prototype_names) ∧
     object_at h' this o sl (set_add name ps) ms ∧
     ∀ l, l ≠ parents o → h' !! l = h !! l).
Proof.
  intros Hobj. rewrite (makeParent_Ret _ _ _ _ _ _ _ Hobj). split_and!.
  - by intros ->.
  - by intros ->.
  - intros Hnone Hname. by rewrite (get_prop_not_inherited _ _ Hnone Hname).
  - intros Hnone Hname. by rewrite (truthy_get_prop_inherited _ _ Hnone Hname).
  - eexists. split; [reflexivity|].
    destruct (truthy (get_prop sl name)) eqn:Htruthy; [right|by left].
    split_and!; [by apply truthy_get_prop_cases | by eapply object_at_makeParent |].
    intros l Hl. by rewrite list_lookup_insert_ne.
Qed.

(** X22 on [objA] of the example, which has no slot ["zzz"]. *)
Lemma makeParent_marks_what_reads_truthy_witness :
  object_at chain_world 3 (mkSelfObject 0 1 2 VNull VNull)
    (<["c" := VRef 11]> {["b" := VRef 7]}) ["c"] ["b"; "c"] ∧
  makeParent 3 "zzz" chain_world = Ret tt chain_world.
Proof.
  split; [exact chain_world_objA|].
  apply (proj1 (makeParent_marks_what_reads_truthy _ _ _ _ _ _ "zzz" chain_world_objA)).
  vm_compute. reflexivity.
Defined.

(** ** The search ends *)

(** X23. The search ends on cycles and diamonds. A receiver for which
    [slots[name]] reads a falsy value, and whose ancestors are objects
    for which it reads one as well (their parent slots holding objects or
    falsy values), gets [null] from [sendAMessage], in the three
    iterations and for any fuel from some bound on, whatever cycles and
    shared ancestors the parent graph has. The objects the search looks
    into ([visited]) are ancestors of the receiver (in [part_000], the
    receiver too), each of them once. *)
Theorem search_ends_on_cycles_and_diamonds native edition h name this :
  lacks h name this →
  (∀ l, ancestor h this l → lacks h name l) →
  ∃ n visited visited',
    (∀ fuel, n ≤ fuel →
       SelfObjectJs.search fuel name [] (parent_values h this) h =
         Ret (None, visited) h ∧
       SelfObjectJs.sendAMessage native edition (S fuel) this name h = Ret VNull h ∧
       Part000.sendAMessage native fuel this name [] h = Ret (VNull, visited') h) ∧
    NoDup visited ∧ (∀ l, l ∈ visited → ancestor h this l) ∧
    NoDup visited' ∧ (∀ l, l ∈ visited' → l = this ∨ ancestor h this l).
Proof.
  intros Hthis Hanc.
  destruct Hthis as (o & sl & ps & ms & Hobj & Hname & Hps).
  assert (lacks h name this) as Hthis by (by exists o, sl, ps, ms).
  pose proof (parent_values_object_at _ _ _ _ _ _ Hobj) as Hpv.
  (* breadth-first, from the parents of the receiver *)
  set (n1 := S (length (parent_values h this) +
                weight (λ l, length (parent_values h l)) (length h) [])).
  destruct (js_search_misses h name (ancestor h this) Hanc
              (λ l l' Hl Hl', ancestor_step h this l l' Hl Hl')
              n1 [] (parent_values h this)) as (visited & Hsearch & Hnd & Hsub).
  { apply NoDup_nil_2. }
  { rewrite Hpv. apply Forall_forall. intros v Hv.
    rewrite Forall_forall in Hps. destruct (Hps v Hv) as [?|(l' & ->)]; [by left|].
    right. exists l'. split; [done|]. apply ancestor_parent. by rewrite Hpv. }
  { unfold n1. lia. }
  (* depth-first, from the receiver *)
  set (family := λ l, l = this ∨ ancestor h this l).
  set (n2 := weight (λ l, length (parent_values h l) + 2) (length h) []).
  destruct (proj1 (p0_search_misses h name family
              ltac:(by intros l [->|?]; [|apply Hanc])
              ltac:(by intros l l' [->|?] ?; right;
                       [apply ancestor_parent|eapply ancestor_step])
              native n2) this [])
    as (visited' & Hsend & Hnd' & _ & Hsub').
  { by left. } { apply not_elem_of_nil. } { apply NoDup_nil_2. } { done. }
  exists (max n1 n2), visited, visited'. split_and!.
  - intros fuel Hle.
    assert (SelfObjectJs.search fuel name [] (parent_values h this) h =
              Ret (None, visited) h) as Hsearch'.
    { eapply refines_Ret; [|exact Hsearch]. apply js_search_mono. lia. }
    split_and!; [done| |].
    + cbn [SelfObjectJs.sendAMessage].
      rewrite (bind_load_self _ _ _ _ (proj1 Hobj)).
      rewrite (bind_load_slots _ _ _ _ (proj1 (proj2 Hobj))), Hname.
      rewrite (bind_load_set _ _ _ _ (proj1 (proj2 (proj2 Hobj)))).
      rewrite <- Hpv. by rewrite (bind_Ret _ _ _ _ _ Hsearch').
    + eapply refines_Ret; [|exact Hsend]. apply p0_sendAMessage_mono. lia.
  - done.
  - intros l Hl. destruct (Hsub l Hl) as [Hin|?]; [|done].
    by apply not_elem_of_nil in Hin.
  - done.
  - intros l Hl. destruct (Hsub' l Hl) as [Hin|?]; [|done].
    by apply not_elem_of_nil in Hin.
Qed.

(** X23 on the diamond with a cycle. *)
Lemma search_ends_on_cycles_and_diamonds_witness :
  lacks diamond_world "x" 3 ∧
  (∀ l, ancestor diamond_world 3 l → lacks diamond_world "x" l) ∧
  ∃ n, ∀ fuel, n ≤ fuel →
    SelfObjectJs.sendAMessage no_native First (S fuel) 3 "x" diamond_world =
      Ret VNull diamond_world ∧
    ∃ visited,
      Part000.sendAMessage no_native fuel 3 "x" [] diamond_world =
        Ret (VNull, visited) diamond_world.
Proof.
  assert (lacks diamond_world "x" 3) as H3
    by (apply diamond_world_lacks; in_list).
  assert (∀ l, ancestor diamond_world 3 l → lacks diamond_world "x" l) as Hall
    by (intros l Hl; apply diamond_world_lacks, diamond_world_ancestors, Hl).
  split; [exact H3|]. split; [exact Hall|].
  destruct (search_ends_on_cycles_and_diamonds no_native First _ _ _ H3 Hall)
    as (n & visited & visited' & Hn & _).
  exists n. intros fuel Hle. destruct (Hn fuel Hle) as (_ & Hjs & Hp0).
  split; [exact Hjs|]. exists visited'. exact Hp0.
Defined.

(** The diamond is looked into once per object: [B], [C], then [D] and,
    through the cycle, [A]. *)
Example diamond_world_visits :
  SelfObjectJs.search 10 "x" [] [VRef 7; VRef 11] diamond_world =
    Ret (None, [3; 15; 11; 7]) diamond_world ∧
  Part000.sendAMessage no_native 20 3 "x" [] diamond_world =
    Ret (VNull, [11; 15; 7; 3]) diamond_world.
Proof. split; vm_compute; reflexivity. Qed.

(** ** What a message returns *)

Lemma evaluate_plain native edition fuel h t to tsl tps :
  object_at h t to tsl tps [] → primitive to = VNull → primitiveFn to = VNull →
  SelfObjectJs.evaluate native edition (S fuel) t h = Ret (VRef t) h ∧
  Part000.evaluate native (S fuel) t h = Ret (VRef t) h.
Proof.
  intros (Ho & _ & _ & Hm) Hp Hf. split; simpl.
  - rewrite (bind_load_self _ _ _ _ Ho), Hp, Hf. cbn [not_null truthy].
    by rewrite (bind_load_arr _ _ _ _ Hm).
  - rewrite (bind_load_self _ _ _ _ Ho), Hp, Hf. cbn [not_null].
    by rewrite (bind_load_arr _ _ _ _ Hm).
Qed.

Lemma evaluate_primitive native edition fuel h t to tsl tps tms :
  object_at h t to tsl tps tms → primitive to ≠ VNull →
  SelfObjectJs.evaluate native edition (S fuel) t h =
    Ret (VRef (length h + 3)) (h ++ copied h to tsl tps tms) ∧
  Part000.evaluate native (S fuel) t h =
    Ret (VRef (length h + 3)) (h ++ copied h to tsl tps tms).
Proof.
  intros Hobj Hp.
  assert (not_null (primitive to) = true) as Hnn by by destruct (primitive to).
  split; simpl; rewrite (bind_load_self _ _ _ _ (proj1 Hobj)), Hnn;
    by rewrite (bind_Ret _ _ _ _ _ (copy_Ret _ _ _ _ _ _ Hobj)).
Qed.

Lemma sendAMessage_own_slot native edition fuel h this o sl ps ms name t to :
  object_at h this o sl ps ms → get_prop sl name = VRef t →
  h !! t = Some (CSelf to) →
  SelfObjectJs.sendAMessage native edition (S fuel) this name h =
    SelfObjectJs.evaluate native edition fuel t h ∧
  Part000.dispatch native (S fuel) this name h =
    Part000.evaluate native fuel t h.
Proof.
  intros (Ho & Hs & _) Hname Ht. split.
  - cbn [SelfObjectJs.sendAMessage].
    rewrite (bind_load_self _ _ _ _ Ho), (bind_load_slots _ _ _ _ Hs), Hname.
    cbn [truthy]. by rewrite (bind_as_self _ _ _ _ Ht).
  - unfold Part000.dispatch. cbn [Part000.sendAMessage].
    rewrite bind_assoc, (bind_load_self _ _ _ _ Ho).
    rewrite bind_assoc, (bind_load_slots _ _ _ _ Hs), Hname.
    cbn [truthy]. rewrite bind_assoc, (bind_as_self _ _ _ _ Ht).
    rewrite bind_assoc. unfold bind, ret.
    by destruct (Part000.evaluate native fuel t h).
Qed.

Lemma sendAMessageWithParameters_own_slot native edition fuel h this o sl ps ms name
    t to tsl tps tms paramObj :
  object_at h this o sl ps ms → get_prop sl name = VRef t →
  object_at h t to tsl tps tms →
  SelfObjectJs.sendAMessageWithParameters native edition fuel this name paramObj h =
    SelfObjectJs.evaluate native edition fuel (length h + 3)
      (h ++ bound_copy h to tsl tps tms paramObj) ∧
  Part000.sendAMessageWithParameters native (S fuel) this name paramObj h =
    Part000.evaluate native fuel (length h + 3)
      (h ++ bound_copy h to tsl tps tms paramObj).
Proof.
  intros (Ho & Hs & _) Hname Ht.
  pose proof (copy_then_store_Ret _ _ _ _ _ _ paramObj Ht) as Hbind.
  split.
  - unfold SelfObjectJs.sendAMessageWithParameters.
    rewrite (bind_load_self _ _ _ _ Ho), (bind_load_slots _ _ _ _ Hs), Hname.
    cbn [truthy]. by rewrite (bind_Ret _ _ _ _ _ Hbind).
  - cbn [Part000.sendAMessageWithParameters].
    rewrite (bind_load_self _ _ _ _ Ho), (bind_load_slots _ _ _ _ Hs), Hname.
    cbn [truthy]. by rewrite (bind_Ret _ _ _ _ _ Hbind).
Qed.

(** X4. What a receiver's own slot answers, whatever its parents hold:
    the slot's object with a primitive is answered by a new copy of it;
    a plain object (no primitive, no native function, no messages) is
    answered by that very object, not by a copy, and the heap stays as it
    is. With a parameter, the plain object is answered by a new copy that
    holds the parameter, and the object in the slot is as before. *)
Theorem own_slot_answers_with_copy_or_object native edition h this o sl ps ms name
    t to tsl tps tms :
  object_at h this o sl ps ms → get_prop sl name = VRef t →
  object_at h t to tsl tps tms →
  (primitive to ≠ VNull → ∀ fuel, ∃ c co h',
     SelfObjectJs.sendAMessage native edition (S (S fuel)) this name h = Ret (VRef c) h' ∧
     Part000.dispatch native (S (S fuel)) this name h = Ret (VRef c) h' ∧
     h !! c = None ∧ object_at h' c co tsl tps tms ∧ primitive co = primitive to ∧
     object_at h' t to tsl tps tms) ∧
  (primitive to = VNull → primitiveFn to = VNull → tms = [] →
   (∀ fuel,
      SelfObjectJs.sendAMessage native edition (S (S fuel)) this name h = Ret (VRef t) h ∧
      Part000.dispatch native (S (S fuel)) this name h = Ret (VRef t) h) ∧
   (∀ fuel paramObj, ∃ c co h',
      SelfObjectJs.sendAMessageWithParameters native edition (S fuel) this name paramObj h =
        Ret (VRef c) h' ∧
      Part000.sendAMessageWithParameters native (S (S fuel)) this name paramObj h =
        Ret (VRef c) h' ∧
      h !! c = None ∧
      object_at h' c co (<["parameter" := paramObj]> tsl) tps [] ∧
      object_at h' t to tsl tps [])).
Proof.
  intros Hobj Hname Ht.
  pose proof (λ fuel, proj1 (sendAMessage_own_slot native edition fuel _ _ _ _ _ _ _ _ _
                               Hobj Hname (proj1 Ht))) as Hjs.
  pose proof (λ fuel, proj2 (sendAMessage_own_slot native edition fuel _ _ _ _ _ _ _ _ _
                               Hobj Hname (proj1 Ht))) as Hp0.
  split.
  - intros Hprim fuel.
    destruct (evaluate_primitive native edition fuel _ _ _ _ _ _ Ht Hprim) as [E1 E2].
    eexists (length h + 3), _, _. rewrite Hjs, Hp0, E1, E2.
    split; [reflexivity|]. split; [reflexivity|].
    split; [apply lookup_ge_None_2; lia|].
    split; [apply copied_object_at|]. split; [reflexivity|].
    eapply object_at_extends; [apply extends_app|done].
  - intros Hprim Hfn ->. split.
    + intros fuel. rewrite Hjs, Hp0.
      apply (evaluate_plain native edition fuel _ _ _ _ _ Ht Hprim Hfn).
    + intros fuel p.
      destruct (sendAMessageWithParameters_own_slot native edition (S fuel)
                  _ _ _ _ _ _ _ _ _ _ _ _ p Hobj Hname Ht) as [E1 E2].
      pose proof (bound_copy_object_at h to tsl tps [] p) as Hc.
      destruct (evaluate_plain native edition fuel _ _ _ _ _ Hc Hprim Hfn) as [E3 E4].
      eexists (length h + 3), _, _. rewrite E1, E2, E3, E4.
      split; [reflexivity|]. split; [reflexivity|].
      split; [apply lookup_ge_None_2; lia|].
      split; [exact Hc|].
      eapply object_at_extends; [apply extends_app|done].
Qed.

(** X4 on the example: the slot [b] of [objA] holds [objB], which has a
    primitive. *)
Lemma own_slot_answers_with_copy_or_object_witness :
  object_at chain_world 3 (mkSelfObject 0 1 2 VNull VNull)
    (<["c" := VRef 11]> {["b" := VRef 7]}) ["c"] ["b"; "c"] ∧
  object_at chain_world 7 (mkSelfObject 4 5 6 (VStr "I am B") VNull) ∅ [] [] ∧
  ∃ c h', SelfObjectJs.sendAMessage no_native First 2 3 "b" chain_world = Ret (VRef c) h' ∧
          chain_world !! c = None.
Proof.
  split; [exact chain_world_objA|]. split; [exact chain_world_objB|].
  destruct (proj1 (own_slot_answers_with_copy_or_object no_native First _ _ _ _ _ _ "b"
                     7 _ _ _ _ chain_world_objA ltac:(vm_compute; reflexivity)
                     chain_world_objB) ltac:(discriminate) 0)
    as (c & co & h' & H1 & _ & H2 & _).
  exists c, h'. exact (conj H1 H2).
Defined.

(** X5. The parameter reaches the native function. When the receiver's
    slot holds an object [t] with a native function [f] and no primitive,
    [sendAMessageWithParameters] calls [f] on a new copy [c] of [t] whose
    ["parameter"] slot holds the parameter, and returns what [f] returns:
    the first text of [SelfObject.js] calls [f(c, paramObj)], the second
    [f(c)], and [part_000] calls [f] on a copy of [c], which holds the
    parameter as well. [t] itself is never handed over and keeps its
    slots. *)
Theorem parameter_reaches_the_native_function native h this o sl ps ms name
    t to tsl tps tms f paramObj :
  object_at h this o sl ps ms → get_prop sl name = VRef t →
  object_at h t to tsl tps tms → primitive to = VNull → primitiveFn to = VFun f →
  ∃ c co h1,
    h !! c = None ∧ extends h h1 ∧
    object_at h1 c co (<["parameter" := paramObj]> tsl) tps tms ∧
    object_at h1 t to tsl tps tms ∧
    (∀ fuel,
       SelfObjectJs.sendAMessageWithParameters native First (S fuel) this name paramObj h =
         native f (VRef c) [VRef c; paramObj] h1 ∧
       SelfObjectJs.sendAMessageWithParameters native Second (S fuel) this name paramObj h =
         native f (VRef c) [VRef c] h1) ∧
    ∃ c' co' h2,
      h1 !! c' = None ∧ extends h1 h2 ∧
      object_at h2 c' co' (<["parameter" := paramObj]> tsl) tps tms ∧
      object_at h2 t to tsl tps tms ∧
      ∀ fuel,
        Part000.sendAMessageWithParameters native (S (S fuel)) this name paramObj h =
          native f (VRef c) [VRef c'] h2.
Proof.
  intros Hobj Hname Ht Hprim Hfn.
  pose proof (bound_copy_object_at h to tsl tps tms paramObj) as Hc.
  set (h1 := h ++ bound_copy h to tsl tps tms paramObj) in *.
  set (co := mkSelfObject (length h + 4) (length h + 5) (length h + 6)
               (primitive to) (primitiveFn to)) in *.
  assert (object_at h1 t to tsl tps tms) as Ht1
    by (eapply object_at_extends; [apply extends_app|done]).
  exists (length h + 3), co, h1.
  split; [apply lookup_ge_None_2; lia|]. split; [apply extends_app|].
  split; [exact Hc|]. split; [exact Ht1|]. split.
  - intros fuel. split.
    + rewrite (proj1 (sendAMessageWithParameters_own_slot native First (S fuel)
                        _ _ _ _ _ _ _ _ _ _ _ _ paramObj Hobj Hname Ht)).
      fold h1. simpl.
      rewrite (bind_load_self _ _ _ _ (proj1 Hc)). cbn [co primitive primitiveFn].
      rewrite Hprim, Hfn. cbn [not_null truthy].
      rewrite (bind_load_slots _ _ _ _ (proj1 (proj2 Hc))).
      by rewrite get_prop_insert.
    + rewrite (proj1 (sendAMessageWithParameters_own_slot native Second (S fuel)
                        _ _ _ _ _ _ _ _ _ _ _ _ paramObj Hobj Hname Ht)).
      fold h1. simpl.
      rewrite (bind_load_self _ _ _ _ (proj1 Hc)). cbn [co primitive primitiveFn].
      by rewrite Hprim, Hfn.
  - pose proof (copied_object_at h1 co (<["parameter" := paramObj]> tsl) tps tms) as Hc'.
    eexists (length h1 + 3), _, (h1 ++ copied h1 co (<["parameter" := paramObj]> tsl) tps tms).
    split; [apply lookup_ge_None_2; lia|]. split; [apply extends_app|].
    split; [exact Hc'|].
    split; [eapply object_at_extends; [apply extends_app|done]|].
    intros fuel.
    rewrite (proj2 (sendAMessageWithParameters_own_slot native First (S fuel)
                      _ _ _ _ _ _ _ _ _ _ _ _ paramObj Hobj Hname Ht)).
    fold h1. simpl.
    rewrite (bind_load_self _ _ _ _ (proj1 Hc)). cbn [co primitive primitiveFn].
    rewrite Hprim, Hfn. cbn [not_null].
    by rewrite (bind_Ret _ _ _ _ _ (copy_Ret _ _ _ _ _ _ Hc)).
Qed.

Lemma increment_world_numberObj :
  object_at increment_world 3 (mkSelfObject 0 1 2 (VNum 5) VNull)
    {["increment" := VRef 7]} [] [].
Proof. split_and!; vm_compute; reflexivity. Qed.

Lemma increment_world_addOne :
  object_at increment_world 7 (mkSelfObject 4 5 6 VNull (VFun 0)) ∅ [] [].
Proof. split_and!; vm_compute; reflexivity. Qed.

(** X5 on the objects of the driver of [part_000]. *)
Lemma parameter_reaches_the_native_function_witness :
  object_at increment_world 3 (mkSelfObject 0 1 2 (VNum 5) VNull)
    {["increment" := VRef 7]} [] [] ∧
  object_at increment_world 7 (mkSelfObject 4 5 6 VNull (VFun 0)) ∅ [] [] ∧
  ∃ c h1,
    SelfObjectJs.sendAMessageWithParameters (part_000_native integer_plus_one) First
      1 3 "increment" (VRef 3) increment_world =
    part_000_native integer_plus_one 0 (VRef c) [VRef c; VRef 3] h1.
Proof.
  split; [exact increment_world_numberObj|]. split; [exact increment_world_addOne|].
  destruct (parameter_reaches_the_native_function (part_000_native integer_plus_one)
              _ _ _ _ _ _ "increment" 7 _ _ _ _ 0 (VRef 3)
              increment_world_numberObj ltac:(vm_compute; reflexivity)
              increment_world_addOne eq_refl eq_refl)
    as (c & co & h1 & _ & _ & _ & _ & H & _).
  exists c, h1. exact (proj1 (H 0)).
Defined.

(** ** The drivers *)

(** X6. The driver of [part_000]: [numberObj.sendAMessageWithParameters(
    "increment", numberObj)] returns a new object whose primitive is
    [n + 1], for [n] the primitive of [numberObj] (6 for the 5 of the
    file), and the three iterations agree on it. Afterwards [numberObj]
    (at 3) has its primitive, and [addOne] (at 7) has no ["parameter"]
    slot. *)
Theorem part_000_example_adds_one plus_one number fuel edition :
  returns_with
    (part_000_example plus_one
       (λ native, Part000.sendAMessageWithParameters native (S (S fuel))) number [])
    (λ v h, v = plus_one number ∧ returns (get_primitive (VRef 3) h) number ∧
            slot_of h 7 "parameter" = Some VUndefined) ∧
  returns_with
    (part_000_example plus_one
       (λ native, SelfObjectJs.sendAMessageWithParameters native edition (S fuel)) number [])
    (λ v h, v = plus_one number ∧ returns (get_primitive (VRef 3) h) number ∧
            slot_of h 7 "parameter" = Some VUndefined).
Proof. split; [|destruct edition]; vm_compute; done. Qed.

(** X7. The driver of [SelfObject.js]: [objA] has a primitive, so
    [objA.evaluate()] is a copy of [objA], and [result.primitive] is the
    primitive of [objA] (["I am A"] in the file, whose comment announces
    ["I am C"]), in the three iterations. Were [objA] without a
    primitive, its messages [b] and [c] would be sent: [SelfObject.js]
    sends [c] to what [b] returned, which has no such slot, and throws;
    [part_000] sends [c] to the copy of [objA] and answers with the
    primitive of [objC]. *)
Theorem SelfObject_js_example_returns_objA native edition fuel pa pb pc :
  (not_null pa = true →
   returns (SelfObject_js_example
              (SelfObjectJs.evaluate native edition (S fuel)) pa pb pc []) pa ∧
   returns (SelfObject_js_example
              (Part000.evaluate native (S fuel)) pa pb pc []) pa) ∧
  (not_null pa = false →
   throws (SelfObject_js_example
             (SelfObjectJs.evaluate native edition (S (S (S (S (S fuel)))))) pa pb pc [])
          (MessageNotFound "c") ∧
   returns (SelfObject_js_example
              (Part000.evaluate native (S (S (S (S (S fuel)))))) pa pb pc []) pc).
Proof.
  split.
  - intros Hpa. split; destruct pa; try discriminate Hpa; vm_compute; reflexivity.
  - intros Hpa. destruct pa; try discriminate Hpa. split.
    + destruct edition, pb; vm_compute; reflexivity.
    + destruct pb, pc; vm_compute; reflexivity.
Qed.

(** X7 with the values of the file. *)
Lemma SelfObject_js_example_returns_objA_witness :
  returns (SelfObject_js_example (SelfObjectJs.evaluate no_native First 1)
             (VStr "I am A") (VStr "I am B") (VStr "I am C") [])
          (VStr "I am A").
Proof.
  exact (proj1 (proj1 (SelfObject_js_example_returns_objA no_native First 0
                         (VStr "I am A") (VStr "I am B") (VStr "I am C")) eq_refl)).
Defined.

(** ** Messages with parameters that find nothing, and runs without end *)

(** X8. [sendAMessageWithParameters] of [SelfObject.js] has the cycle
    protection of [sendAMessage]: when [slots[name]] reads a falsy value
    in the receiver and in every one of its ancestors, it returns [null]
    for any fuel from some bound on, whatever cycles the parent graph has,
    and leaves the heap as it is: no copy is made and no parameter
    bound. *)
Theorem sendAMessageWithParameters_unanswered_is_null native edition h name this paramObj :
  lacks h name this →
  (∀ l, ancestor h this l → lacks h name l) →
  ∃ n, ∀ fuel, n ≤ fuel →
    SelfObjectJs.sendAMessageWithParameters native edition fuel this name paramObj h =
      Ret VNull h.
Proof.
  intros Hthis Hanc.
  destruct Hthis as (o & sl & ps & ms & Hobj & Hname & Hps).
  pose proof (parent_values_object_at _ _ _ _ _ _ Hobj) as Hpv.
  set (n := S (length (parent_values h this) +
               weight (λ l, length (parent_values h l)) (length h) [])).
  destruct (js_search_misses h name (ancestor h this) Hanc
              (λ l l' Hl Hl', ancestor_step h this l l' Hl Hl')
              n [] (parent_values h this)) as (visited & Hsearch & _).
  { apply NoDup_nil_2. }
  { rewrite Hpv. apply Forall_forall. intros v Hv.
    rewrite Forall_forall in Hps. destruct (Hps v Hv) as [?|(l' & ->)]; [by left|].
    right. exists l'. split; [done|]. apply ancestor_parent. by rewrite Hpv. }
  { unfold n. lia. }
  exists n. intros fuel Hle.
  assert (SelfObjectJs.search fuel name [] (parent_values h this) h =
            Ret (None, visited) h) as Hsearch'.
  { eapply refines_Ret; [|exact Hsearch]. by apply js_search_mono. }
  unfold SelfObjectJs.sendAMessageWithParameters.
  rewrite (bind_load_self _ _ _ _ (proj1 Hobj)).
  rewrite (bind_load_slots _ _ _ _ (proj1 (proj2 Hobj))), Hname.
  rewrite (bind_load_set _ _ _ _ (proj1 (proj2 (proj2 Hobj)))).
  rewrite <- Hpv. by rewrite (bind_Ret _ _ _ _ _ Hsearch').
Qed.

(** X8 on the diamond with a cycle. *)
Lemma sendAMessageWithParameters_unanswered_is_null_witness :
  lacks diamond_world "x" 3 ∧
  (∀ l, ancestor diamond_world 3 l → lacks diamond_world "x" l) ∧
  ∃ n, ∀ fuel, n ≤ fuel →
    SelfObjectJs.sendAMessageWithParameters no_native First fuel 3 "x" (VRef 3)
      diamond_world = Ret VNull diamond_world.
Proof.
  assert (lacks diamond_world "x" 3) as H3
    by (apply diamond_world_lacks; in_list).
  assert (∀ l, ancestor diamond_world 3 l → lacks diamond_world "x" l) as Hall
    by (intros l Hl; apply diamond_world_lacks, diamond_world_ancestors, Hl).
  split; [exact H3|]. split; [exact Hall|].
  exact (sendAMessageWithParameters_unanswered_is_null no_native First _ _ _ (VRef 3)
           H3 Hall).
Defined.

(** X9. [sendAMessageWithParameters] of [part_000] keeps no set of visited
    objects: on objects in which [slots[name]] reads a falsy value and
    whose first parents lead back into a circle, the recursion goes on
    for ever, and no fuel is enough for an answer. *)
Theorem part_000_parameters_loop_on_a_parent_cycle native h name family :
  first_parent_loops h name family →
  ∀ fuel this paramObj, family this →
    Part000.sendAMessageWithParameters native fuel this name paramObj h = OutOfFuel.
Proof.
  intros Hloop fuel. induction (lt_wf fuel) as [fuel _ IH].
  intros this paramObj Hthis.
  destruct (Hloop this Hthis) as (o & sl & p & ps & ms & l' & Hobj & Hname & Hp & Hl').
  destruct (Hloop l' Hl') as (o' & _ & _ & _ & _ & _ & (Ho' & _) & _).
  destruct Hobj as (Ho & Hs & Hps & _).
  destruct fuel as [|[|fuel]]; [done| |].
  - cbn [Part000.sendAMessageWithParameters Part000.each_parent_with].
    by rewrite (bind_load_self _ _ _ _ Ho), (bind_load_slots _ _ _ _ Hs), Hname.
  - cbn [Part000.sendAMessageWithParameters Part000.each_parent_with].
    rewrite (bind_load_self _ _ _ _ Ho), (bind_load_slots _ _ _ _ Hs), Hname.
    rewrite (bind_load_set _ _ _ _ Hps). cbn [lookup list_lookup].
    rewrite (bind_load_self _ _ _ _ Ho), (bind_load_slots _ _ _ _ Hs), Hp.
    apply bind_OutOfFuel. rewrite (bind_as_self _ _ _ _ Ho').
    apply IH; [lia|done].
Qed.

(** X9 on the diamond with a cycle: from [A] to [B], [D] and [A] again. *)
Lemma part_000_parameters_loop_on_a_parent_cycle_witness :
  first_parent_loops diamond_world "x" (λ l, l ∈ [3; 7; 15]) ∧
  ∀ fuel,
    Part000.sendAMessageWithParameters no_native fuel 3 "x" (VRef 3) diamond_world =
      OutOfFuel.
Proof.
  assert (first_parent_loops diamond_world "x" (λ l, l ∈ [3; 7; 15])) as Hloop.
  { intros l Hl. repeat (apply elem_of_cons in Hl as [->|Hl]);
      [| | |by apply not_elem_of_nil in Hl].
    - eexists _, _, _, _, _, 7. split; [exact diamond_world_A|].
      split_and!; [vm_compute; reflexivity..|in_list].
    - eexists _, _, _, _, _, 15. split; [exact diamond_world_B|].
      split_and!; [vm_compute; reflexivity..|in_list].
    - eexists _, _, _, _, _, 3. split; [exact diamond_world_D|].
      split_and!; [vm_compute; reflexivity..|in_list]. }
  split; [exact Hloop|].
  intros fuel.
  apply (part_000_parameters_loop_on_a_parent_cycle no_native _ _ _ Hloop fuel 3 (VRef 3)).
  in_list.
Defined.

(** X10. Evaluation has no cycle protection, in none of the iterations:
    an object with messages only, whose slot for the first message leads,
    from object to object, back into a circle, evaluates for ever, and no
    fuel is enough for a result. *)
Theorem evaluation_loops_on_a_message_cycle native edition h family :
  first_message_loops h family →
  ∀ fuel this, family this →
    SelfObjectJs.evaluate native edition fuel this h = OutOfFuel ∧
    Part000.evaluate native fuel this h = OutOfFuel.
Proof.
  intros Hloop fuel.
  assert (∀ h', extends h h' → ∀ this, family this →
            SelfObjectJs.evaluate native edition fuel this h' = OutOfFuel ∧
            Part000.evaluate native fuel this h' = OutOfFuel) as H;
    [|by apply H, extends_refl].
  induction (lt_wf fuel) as [fuel _ IH]. intros h' He this Hthis.
  destruct (Hloop this Hthis) as (o & sl & ps & m & ms & l' & Hobj & Hp & Hf & Hm & Hl').
  destruct (Hloop l' Hl') as (o' & _ & _ & _ & _ & _ & (Ho' & _) & _).
  apply (object_at_extends _ _ _ _ _ _ _ He) in Hobj.
  apply (extends_lookup _ _ _ _ He) in Ho'.
  pose proof (copy_Ret _ _ _ _ _ _ Hobj) as Hcopy.
  pose proof (copied_object_at h' o sl ps (m :: ms)) as Hc.
  set (h1 := h' ++ copied h' o sl ps (m :: ms)) in *.
  assert (extends h h1) as He1
    by (eapply extends_trans; [exact He|apply extends_app]).
  assert (h1 !! messages o = Some (CArr (m :: ms))) as Harr
    by (apply lookup_app_l_Some, Hobj).
  assert (h1 !! l' = Some (CSelf o')) as Ho1 by by apply lookup_app_l_Some.
  destruct Hobj as (Ho & Hs & Hps & Hms).
  destruct Hc as (Hco & Hcs & _ & Hcm).
  destruct fuel as [|[|[|fuel]]]; [done| | |].
  - split; cbn [SelfObjectJs.evaluate SelfObjectJs.chain
                Part000.evaluate Part000.each_message];
      rewrite (bind_load_self _ _ _ _ Ho), Hp, Hf; cbn [not_null truthy];
      rewrite (bind_load_arr _ _ _ _ Hms); cbn [length Nat.ltb Nat.leb];
      rewrite (bind_Ret _ _ _ _ _ Hcopy); [done|].
    by rewrite (bind_load_self _ _ _ _ Hco).
  - split; cbn [SelfObjectJs.evaluate SelfObjectJs.chain SelfObjectJs.sendAMessage
                Part000.evaluate Part000.each_message Part000.sendAMessage];
      rewrite (bind_load_self _ _ _ _ Ho), Hp, Hf; cbn [not_null truthy];
      rewrite (bind_load_arr _ _ _ _ Hms); cbn [length Nat.ltb Nat.leb];
      rewrite (bind_Ret _ _ _ _ _ Hcopy).
    + rewrite (bind_load_arr _ _ _ _ Harr). cbn [lookup list_lookup].
      by rewrite (bind_as_self _ _ _ _ Hco).
    + rewrite (bind_load_self _ _ _ _ Hco). cbn [messages].
      by rewrite (bind_load_arr _ _ _ _ Hcm).
  - destruct (IH fuel ltac:(lia) h1 He1 l' Hl') as [IHjs IHp0].
    split; cbn [SelfObjectJs.evaluate SelfObjectJs.chain SelfObjectJs.sendAMessage
                Part000.evaluate Part000.each_message Part000.sendAMessage];
      rewrite (bind_load_self _ _ _ _ Ho), Hp, Hf; cbn [not_null truthy];
      rewrite (bind_load_arr _ _ _ _ Hms); cbn [length Nat.ltb Nat.leb];
      rewrite (bind_Ret _ _ _ _ _ Hcopy).
    + rewrite (bind_load_arr _ _ _ _ Harr). cbn [lookup list_lookup].
      rewrite (bind_as_self _ _ _ _ Hco). apply bind_OutOfFuel.
      rewrite (bind_load_self _ _ _ _ Hco). cbn [slots].
      rewrite (bind_load_slots _ _ _ _ Hcs), Hm. cbn [truthy].
      by rewrite (bind_as_self _ _ _ _ Ho1).
    + rewrite (bind_load_self _ _ _ _ Hco). cbn [messages].
      rewrite (bind_load_arr _ _ _ _ Hcm). cbn [lookup list_lookup].
      apply bind_OutOfFuel.
      rewrite (bind_load_self _ _ _ _ Hco). cbn [slots].
      rewrite (bind_load_slots _ _ _ _ Hcs), Hm. cbn [truthy].
      rewrite (bind_as_self _ _ _ _ Ho1). apply bind_OutOfFuel. exact IHp0.
Qed.

Lemma loop_world_obj :
  object_at loop_world 3 (mkSelfObject 0 1 2 VNull VNull) {["me" := VRef 3]} [] ["me"].
Proof. split_and!; vm_compute; reflexivity. Qed.

(** X10 on the object whose message names a slot that holds the object
    itself. *)
Lemma evaluation_loops_on_a_message_cycle_witness :
  first_message_loops loop_world (λ l, l = 3) ∧
  ∀ fuel, SelfObjectJs.evaluate no_native First fuel 3 loop_world = OutOfFuel ∧
          Part000.evaluate no_native fuel 3 loop_world = OutOfFuel.
Proof.
  assert (first_message_loops loop_world (λ l, l = 3)) as Hloop.
  { intros l ->. eexists _, _, _, _, _, 3. split; [exact loop_world_obj|].
    split_and!; [reflexivity|reflexivity|vm_compute; reflexivity|reflexivity]. }
  split; [exact Hloop|].
  intros fuel.
  exact (evaluation_loops_on_a_message_cycle no_native First _ _ Hloop fuel 3 eq_refl).
Defined.

(** ** Slots that hold no object *)

(** X11. [assignSlot] takes any value, and a message whose slot holds a
    truthy value that is no object (a number, a string, [true], a
    function) is not answered: in the three iterations [sendAMessage] and
    [sendAMessageWithParameters] throw a [TypeError] and leave the heap as
    it is, whatever the parents hold. *)
Theorem non_object_slot_throws_TypeError native edition h this o sl ps ms name
    fuel paramObj :
  object_at h this o sl ps ms →
  truthy (get_prop sl name) = true → (∀ l, get_prop sl name ≠ VRef l) →
  SelfObjectJs.sendAMessage native edition (S fuel) this name h = Throw TypeError h ∧
  Part000.dispatch native (S fuel) this name h = Throw TypeError h ∧
  SelfObjectJs.sendAMessageWithParameters native edition fuel this name paramObj h =
    Throw TypeError h ∧
  Part000.sendAMessageWithParameters native (S fuel) this name paramObj h =
    Throw TypeError h.
Proof.
  intros (Ho & Hs & _) Htruthy Hv. split_and!.
  - cbn [SelfObjectJs.sendAMessage].
    rewrite (bind_load_self _ _ _ _ Ho), (bind_load_slots _ _ _ _ Hs), Htruthy.
    by apply as_self_not_object.
  - unfold Part000.dispatch. cbn [Part000.sendAMessage].
    rewrite bind_assoc, (bind_load_self _ _ _ _ Ho).
    rewrite bind_assoc, (bind_load_slots _ _ _ _ Hs), Htruthy.
    rewrite bind_assoc. by apply as_self_not_object.
  - unfold SelfObjectJs.sendAMessageWithParameters, SelfObjectJs.bind_parameter.
    rewrite (bind_load_self _ _ _ _ Ho), (bind_load_slots _ _ _ _ Hs), Htruthy.
    rewrite bind_assoc. by apply as_self_not_object.
  - cbn [Part000.sendAMessageWithParameters]. unfold Part000.bind_parameter.
    rewrite (bind_load_self _ _ _ _ Ho), (bind_load_slots _ _ _ _ Hs), Htruthy.
    rewrite bind_assoc. by apply as_self_not_object.
Qed.

(** X12. A parent slot assigned anew with a falsy value other than
    [undefined] and [null] (0, the empty string, [false]) stays a parent.
    For a message whose [slots[name]] reads a falsy value in the
    receiver, the searches of [sendAMessage] and of [SelfObject.js] pass
    over that parent; [sendAMessageWithParameters] of [part_000], which
    guards the call with [parent?.] only, throws a [TypeError]. *)
Theorem part_000_falsy_parent_throws_TypeError native h this o sl p ps ms name paramObj :
  object_at h this o sl (p :: ps) ms →
  truthy (get_prop sl name) = false →
  truthy (get_prop sl p) = false →
  get_prop sl p ≠ VUndefined → get_prop sl p ≠ VNull →
  ∀ fuel,
    Part000.sendAMessageWithParameters native (S (S fuel)) this name paramObj h =
      Throw TypeError h ∧
    (∀ visited,
       Part000.sendAMessage native (S (S fuel)) this name visited h =
       Part000.each_parent native fuel this (parents o) 1 name (this :: visited) h) ∧
    SelfObjectJs.search (S fuel) name [] (map (get_prop sl) (p :: ps)) h =
      SelfObjectJs.search fuel name [] (map (get_prop sl) ps) h.
Proof.
  intros (Ho & Hs & Hp & _) Hname Hfalsy Hundef Hnull fuel. split_and!.
  - cbn [Part000.sendAMessageWithParameters Part000.each_parent_with].
    rewrite (bind_load_self _ _ _ _ Ho), (bind_load_slots _ _ _ _ Hs), Hname.
    rewrite (bind_load_set _ _ _ _ Hp). cbn [lookup list_lookup].
    rewrite (bind_load_self _ _ _ _ Ho), (bind_load_slots _ _ _ _ Hs).
    destruct (get_prop sl p); try done.
  - intros visited. cbn [Part000.sendAMessage Part000.each_parent].
    rewrite (bind_load_self _ _ _ _ Ho), (bind_load_slots _ _ _ _ Hs), Hname.
    rewrite (bind_load_set _ _ _ _ Hp). cbn [lookup list_lookup].
    by rewrite (bind_load_self _ _ _ _ Ho), (bind_load_slots _ _ _ _ Hs), Hfalsy.
  - cbn [map SelfObjectJs.search]. by rewrite Hfalsy.
Qed.

Lemma scalar_world_obj :
  object_at scalar_world 3 (mkSelfObject 0 1 2 VNull VNull) {["five" := VNum 5]} [] [].
Proof. split_and!; vm_compute; reflexivity. Qed.

Lemma reassigned_world_obj :
  object_at reassigned_world 3 (mkSelfObject 0 1 2 VNull VNull)
    {["p" := VNum 0]} ["p"] [].
Proof. split_and!; vm_compute; reflexivity. Qed.

(** X11 on the object whose slot [five] holds the number 5. *)
Lemma non_object_slot_throws_TypeError_witness :
  object_at scalar_world 3 (mkSelfObject 0 1 2 VNull VNull) {["five" := VNum 5]} [] [] ∧
  SelfObjectJs.sendAMessage no_native First 1 3 "five" scalar_world =
    Throw TypeError scalar_world.
Proof.
  split; [exact scalar_world_obj|].
  apply (non_object_slot_throws_TypeError no_native First _ _ _ _ _ _ "five" 0 VNull
           scalar_world_obj).
  - vm_compute. reflexivity.
  - intros l H. vm_compute in H. discriminate H.
Defined.

(** X12 on the object whose parent slot holds 0. *)
Lemma part_000_falsy_parent_throws_TypeError_witness :
  object_at reassigned_world 3 (mkSelfObject 0 1 2 VNull VNull)
    {["p" := VNum 0]} ["p"] [] ∧
  Part000.sendAMessageWithParameters no_native 2 3 "x" VNull reassigned_world =
    Throw TypeError reassigned_world.
Proof.
  split; [exact reassigned_world_obj|].
  apply (part_000_falsy_parent_throws_TypeError no_native _ _ _ _ _ _ _ "x" VNull
           reassigned_world_obj).
  - vm_compute. reflexivity.
  - vm_compute. reflexivity.
  - intros H. vm_compute in H. discriminate H.
  - intros H. vm_compute in H. discriminate H.
Defined.

(** ** Evaluation and dispatch change no object *)

Lemma keeps_changes_no_object {A} h (r : Result A) :
  keeps h r → changes_no_object h r.
Proof.
  intros Hk h' Hend. pose proof (keeps_ends_in _ _ _ Hk Hend) as He.
  split; [done|]. intros. by eapply object_at_extends.
Qed.

(** X13. Evaluation and dispatch only allocate: with native functions
    that change no existing cell, [evaluate] and [sendAMessage] leave
    every object of the heap they start on as it was, in the three
    iterations, whether they return or throw. *)
Theorem evaluate_and_sendAMessage_change_no_object native edition :
  (∀ n this args, framed (native n this args)) →
  ∀ fuel this name h,
    changes_no_object h (SelfObjectJs.evaluate native edition fuel this h) ∧
    changes_no_object h (SelfObjectJs.sendAMessage native edition fuel this name h) ∧
    changes_no_object h (Part000.evaluate native fuel this h) ∧
    changes_no_object h (Part000.dispatch native fuel this name h).
Proof.
  intros Hnative fuel this name h.
  split_and!; apply keeps_changes_no_object.
  - apply js_evaluate_framed; [done|apply extends_refl].
  - apply js_sendAMessage_framed; [done|apply extends_refl].
  - apply p0_evaluate_framed; [done|apply extends_refl].
  - apply p0_dispatch_framed; [done|apply extends_refl].
Qed.

(** X13 with the example native functions. *)
Lemma evaluate_and_sendAMessage_change_no_object_witness :
  (∀ n this args, framed (example_native n this args)) ∧
  ∀ fuel this h,
    changes_no_object h (SelfObjectJs.evaluate example_native First fuel this h).
Proof.
  split; [exact example_native_framed|].
  intros fuel this h.
  exact (proj1 (evaluate_and_sendAMessage_change_no_object example_native First
                  example_native_framed fuel this "" h)).
Defined.

(** ** The heaps a program builds *)

Lemma object_at_inj h l o sl ps ms o' sl' ps' ms' :
  object_at h l o sl ps ms → object_at h l o' sl' ps' ms' →
  o' = o ∧ sl' = sl ∧ ps' = ps ∧ ms' = ms.
Proof.
  intros (H1 & H2 & H3 & H4) (H1' & H2' & H3' & H4').
  assert (o' = o) as -> by congruence.
  split_and!; congruence.
Qed.

Lemma well_formed_extends h h' l :
  extends h h' → well_formed h l → well_formed h' l.
Proof.
  intros He (o & sl & ps & ms & Hobj & Hnd & Hps).
  exists o, sl, ps, ms. split; [by eapply object_at_extends|done].
Qed.

Lemma heap_ok_nil : heap_ok [].
Proof. split; [intros l o H|intros l l' o o' H]; by rewrite lookup_nil in H. Qed.

Lemma heap_ok_object h l o :
  heap_ok h → h !! l = Some (CSelf o) →
  ∃ sl ps ms, object_at h l o sl ps ms ∧ NoDup ps ∧ ∀ p, p ∈ ps → is_Some (sl !! p).
Proof.
  intros [Hwf _] Hl. destruct (Hwf l o Hl) as (o' & sl & ps & ms & Hobj & Hrest).
  assert (o' = o) as -> by (destruct Hobj as (H & _); congruence).
  by exists sl, ps, ms.
Qed.

(** Cells added after the heap: containers only. *)
Lemma heap_ok_app_containers h k :
  heap_ok h → (∀ j o, k !! j ≠ Some (CSelf o)) → heap_ok (h ++ k).
Proof.
  intros [Hwf Hun] Hk.
  assert (∀ l o, (h ++ k) !! l = Some (CSelf o) → h !! l = Some (CSelf o)) as Hold.
  { intros l o Hl. apply lookup_app_Some in Hl as [Hl|[_ Hl]]; [done|].
    by destruct (Hk _ _ Hl). }
  split.
  - intros l o Hl. eapply well_formed_extends; [apply extends_app|].
    by eapply Hwf, Hold.
  - intros l l' o o' Hl Hl' Hne. eapply Hun; eauto.
Qed.

(** Cells added after the heap: one object and its containers. *)
Lemma heap_ok_app_object h k i o sl ps ms :
  heap_ok h →
  (∀ j o', k !! j = Some (CSelf o') → j = i) →
  object_at (h ++ k) (length h + i) o sl ps ms →
  length h ≤ slots o → length h ≤ parents o → length h ≤ messages o →
  NoDup ps → (∀ p, p ∈ ps → is_Some (sl !! p)) →
  heap_ok (h ++ k).
Proof.
  intros [Hwf Hun] Hk Hobj Ls Lp Lm Hnd Hps.
  assert (∀ l o', (h ++ k) !! l = Some (CSelf o') →
            h !! l = Some (CSelf o') ∨ l = length h + i ∧ o' = o) as Hcase.
  { intros l o' Hl. pose proof Hl as Hl'.
    apply lookup_app_Some in Hl as [Hl|[Hge Hl]]; [by left|right].
    pose proof (Hk _ _ Hl) as Hi.
    assert (l = length h + i) as -> by lia.
    split; [done|]. destruct Hobj as (Ho & _). congruence. }
  assert (∀ l o', h !! l = Some (CSelf o') →
            slots o' < length h ∧ parents o' < length h ∧ messages o' < length h)
    as Hlt.
  { intros l o' Hl. destruct (heap_ok_object h l o' (conj Hwf Hun) Hl)
      as (sl' & ps' & ms' & Hobj' & _).
    by apply object_at_lt in Hobj' as (_ & ? & ? & ?). }
  split.
  - intros l o' Hl. destruct (Hcase l o' Hl) as [Hold|[-> ->]].
    + eapply well_formed_extends; [apply extends_app|]. by eapply Hwf.
    + by exists o, sl, ps, ms.
  - intros l l' o1 o2 Hl Hl' Hne.
    destruct (Hcase l o1 Hl) as [Hold|[-> ->]],
             (Hcase l' o2 Hl') as [Hold'|[-> ->]].
    + eapply Hun; eauto.
    + destruct (Hlt _ _ Hold) as (?&?&?). lia.
    + destruct (Hlt _ _ Hold') as (?&?&?). lia.
    + done.
Qed.

(** A container of one object gets new contents. *)
Lemma heap_ok_store h l o sl ps ms c sl' ps' ms' :
  heap_ok h → object_at h l o sl ps ms →
  (c = slots o ∧ ps' = ps ∧ ms' = ms ∨
   c = parents o ∧ sl' = sl ∧ ms' = ms ∨
   c = messages o ∧ sl' = sl ∧ ps' = ps) →
  NoDup ps' → (∀ p, p ∈ ps' → is_Some (sl' !! p)) →
  heap_ok (<[c := if decide (c = slots o) then CSlots sl'
                  else if decide (c = parents o) then CSet ps'
                  else CArr ms']> h).
Proof.
  intros [Hwf Hun] Hobj Hc Hnd Hps.
  pose proof (object_at_distinct _ _ _ _ _ _ Hobj) as (D1 & D2 & D3 & D4 & D5 & D6).
  pose proof (object_at_lt _ _ _ _ _ _ Hobj) as (L0 & L1 & L2 & L3).
  set (cell := if decide (c = slots o) then CSlots sl'
               else if decide (c = parents o) then CSet ps' else CArr ms').
  assert (∃ old, h !! c = Some old ∧ ∀ o', old ≠ CSelf o') as (old & Hold & Hkind).
  { destruct Hobj as (_ & Hs & Hp & Hm).
    destruct Hc as [(-> & _)|[(-> & _)|(-> & _)]]; eexists; (split; [eassumption|done]). }
  assert (∀ l1 o1, <[c := cell]> h !! l1 = Some (CSelf o1) ↔ h !! l1 = Some (CSelf o1))
    as Hsame.
  { intros l1 o1. destruct (decide (l1 = c)) as [->|Hne].
    - rewrite list_lookup_insert_eq by by eapply lookup_lt_Some.
      rewrite Hold. split; intros [= E].
      + unfold cell in E. repeat destruct (decide _); discriminate E.
      + by destruct (Hkind o1).
    - by rewrite list_lookup_insert_ne. }
  assert (object_at (<[c := cell]> h) l o sl' ps' ms') as Hnew.
  { destruct Hobj as (Ho & Hs & Hp & Hm). unfold cell.
    destruct Hc as [(-> & -> & ->)|[(-> & -> & ->)|(-> & -> & ->)]].
    - rewrite decide_True by done.
      split_and!; rewrite ?list_lookup_insert_ne by done; try done.
      by rewrite list_lookup_insert_eq.
    - rewrite decide_False by done. rewrite decide_True by done.
      split_and!; rewrite ?list_lookup_insert_ne by done; try done.
      by rewrite list_lookup_insert_eq.
    - rewrite decide_False by done. rewrite decide_False by done.
      split_and!; rewrite ?list_lookup_insert_ne by done; try done.
      by rewrite list_lookup_insert_eq. }
  split.
  - intros l1 o1 Hl1. apply Hsame in Hl1.
    destruct (decide (l1 = l)) as [->|Hne].
    + assert (o1 = o) as -> by (destruct Hobj as (Ho & _); congruence).
      by exists o, sl', ps', ms'.
    + destruct (Hwf l1 o1 Hl1) as (o1' & sl1 & ps1 & ms1 & Hobj1 & Hrest).
      exists o1', sl1, ps1, ms1. split; [|done].
      assert (o1' = o1) as -> by (destruct Hobj1 as (H & _); congruence).
      destruct (Hun l1 l o1 o Hl1 (proj1 Hobj) Hne) as (U1 & U2 & U3).
      pose proof Hobj1 as (_ & Hs1 & Hp1 & Hm1).
      destruct Hobj as (Ho & Hs & Hp & Hm).
      apply object_at_insert; [done|..];
        destruct Hc as [(-> & _)|[(-> & _)|(-> & _)]]; congruence.
  - intros l1 l2 o1 o2 Hl1 Hl2 Hne. apply Hsame in Hl1, Hl2. eapply Hun; eauto.
Qed.

(** A field of an object is set: [primitive] or [primitiveFn]. *)
Lemma heap_ok_store_self h l o o' :
  heap_ok h → h !! l = Some (CSelf o) →
  slots o' = slots o → parents o' = parents o → messages o' = messages o →
  heap_ok (<[l := CSelf o']> h).
Proof.
  intros [Hwf Hun] Hl Es Ep Em.
  pose proof (lookup_lt_Some _ _ _ Hl) as Llt.
  assert (∀ l1 o1, <[l := CSelf o']> h !! l1 = Some (CSelf o1) →
            ∃ o0, h !! l1 = Some (CSelf o0) ∧ slots o1 = slots o0 ∧
                  parents o1 = parents o0 ∧ messages o1 = messages o0) as Hsame.
  { intros l1 o1. destruct (decide (l1 = l)) as [->|Hne].
    - rewrite list_lookup_insert_eq by done. intros [= <-]. by exists o.
    - rewrite list_lookup_insert_ne by done. intros H. by exists o1. }
  split.
  - intros l1 o1 Hl1. destruct (Hsame l1 o1 Hl1) as (o0 & H0 & E1 & E2 & E3).
    destruct (heap_ok_object h l1 o0 (conj Hwf Hun) H0)
      as (sl & ps & ms & Hobj & Hnd & Hps).
    exists o1, sl, ps, ms. split; [|done].
    pose proof (object_at_distinct _ _ _ _ _ _ Hobj) as (?&?&?&?&?&?).
    destruct Hobj as (Ho & Hs & Hp & Hm).
    assert (l ≠ slots o0 ∧ l ≠ parents o0 ∧ l ≠ messages o0) as (?&?&?)
      by (split_and!; intros ->; congruence).
    split_and!; [done|rewrite E1|rewrite E2|rewrite E3];
      by rewrite list_lookup_insert_ne.
  - intros l1 l2 o1 o2 Hl1 Hl2 Hne.
    destruct (Hsame l1 o1 Hl1) as (o1' & H1 & -> & -> & ->).
    destruct (Hsame l2 o2 Hl2) as (o2' & H2 & -> & -> & ->).
    eapply Hun; eauto.
Qed.

Lemma heap_ok_store_slots h l o sl sl' :
  heap_ok h → h !! l = Some (CSelf o) → h !! slots o = Some (CSlots sl) →
  (∀ p, is_Some (sl !! p) → is_Some (sl' !! p)) →
  heap_ok (<[slots o := CSlots sl']> h).
Proof.
  intros Hok Hl Hs Hdom.
  destruct (heap_ok_object _ _ _ Hok Hl) as (sl0 & ps & ms & Hobj & Hnd & Hps).
  assert (sl0 = sl) as -> by (destruct Hobj as (_ & H & _); congruence).
  pose proof (heap_ok_store h l o sl ps ms (slots o) sl' ps ms Hok Hobj
                ltac:(by left) Hnd ltac:(by intros p Hp; apply Hdom, Hps)) as H.
  by rewrite decide_True in H.
Qed.

Lemma heap_ok_store_parents h l o sl ps' :
  heap_ok h → h !! l = Some (CSelf o) → h !! slots o = Some (CSlots sl) →
  NoDup ps' → (∀ p, p ∈ ps' → is_Some (sl !! p)) →
  heap_ok (<[parents o := CSet ps']> h).
Proof.
  intros Hok Hl Hs Hnd Hps.
  destruct (heap_ok_object _ _ _ Hok Hl) as (sl0 & ps & ms & Hobj & _).
  assert (sl0 = sl) as -> by (destruct Hobj as (_ & H & _); congruence).
  pose proof (object_at_distinct _ _ _ _ _ _ Hobj) as (_ & _ & _ & D & _).
  pose proof (heap_ok_store h l o sl ps ms (parents o) sl ps' ms Hok Hobj
                ltac:(by right; left) Hnd Hps) as H.
  rewrite decide_False in H by done. by rewrite decide_True in H.
Qed.

Lemma heap_ok_store_messages h l o ms' :
  heap_ok h → h !! l = Some (CSelf o) →
  heap_ok (<[messages o := CArr ms']> h).
Proof.
  intros Hok Hl.
  destruct (heap_ok_object _ _ _ Hok Hl) as (sl & ps & ms & Hobj & Hnd & Hps).
  pose proof (object_at_distinct _ _ _ _ _ _ Hobj) as (_ & _ & _ & _ & D1 & D2).
  pose proof (heap_ok_store h l o sl ps ms (messages o) sl ps ms' Hok Hobj
                ltac:(by right; right) Hnd Hps) as H.
  rewrite decide_False in H by done. by rewrite decide_False in H.
Qed.

Lemma heap_ok_constructed h : heap_ok h → heap_ok (h ++ constructed h).
Proof.
  intros Hok.
  eapply (heap_ok_app_object h _ 3 _ ∅ [] [] Hok); cbn [slots parents messages].
  - intros [|[|[|[|j]]]] o'; simpl; try done.
  - apply constructed_object_at.
  - simpl. lia.
  - simpl. lia.
  - simpl. lia.
  - apply NoDup_nil_2.
  - intros p Hp. by apply not_elem_of_nil in Hp.
Qed.

Lemma heap_ok_copied h this o sl ps ms :
  heap_ok h → object_at h this o sl ps ms → heap_ok (h ++ copied h o sl ps ms).
Proof.
  intros Hok Hobj.
  destruct (heap_ok_object _ _ _ Hok (proj1 Hobj)) as (sl0 & ps0 & ms0 & Hobj0 & Hnd & Hps).
  destruct (object_at_inj _ _ _ _ _ _ _ _ _ _ Hobj Hobj0) as (_ & -> & -> & ->).
  eapply (heap_ok_app_object h _ 3 _ sl ps ms Hok); cbn [slots parents messages].
  - intros [|[|[|[|[|[|[|j]]]]]]] o'; simpl; try done.
  - apply copied_object_at.
  - simpl. lia.
  - simpl. lia.
  - simpl. lia.
  - done.
  - done.
Qed.

Lemma post_store {B} l c (k : unit → M B) h Q E :
  (∀ c', h !! l = Some c' → post (k tt (<[l := c]> h)) Q E) → E h →
  post (bind (store l c) k h) Q E.
Proof. intros Hk HE. unfold bind, store. destruct (h !! l); simpl; eauto. Qed.

Lemma post_ret_bind {A} (m : M A) h Q E :
  post (bind m ret h) Q E → post (m h) Q E.
Proof. unfold bind, ret. by destruct (m h). Qed.

(** ** The methods keep the heap well formed *)

Lemma new_SelfObject_invariant : invariant heap_ok new_SelfObject.
Proof. intros h Hok. rewrite new_SelfObject_Ret. by apply heap_ok_constructed. Qed.

Lemma copy_object_invariant h this o :
  heap_ok h → h !! this = Some (CSelf o) →
  post (copy this h)
    (λ c h', heap_ok h' ∧ ∃ sl ps ms,
       object_at h this o sl ps ms ∧ c = length h + 3 ∧
       h' = h ++ copied h o sl ps ms)
    heap_ok.
Proof.
  intros Hok Hthis.
  destruct (heap_ok_object _ _ _ Hok Hthis) as (sl & ps & ms & Hobj & _).
  rewrite (copy_Ret _ _ _ _ _ _ Hobj). simpl.
  split; [by eapply heap_ok_copied|]. by exists sl, ps, ms.
Qed.

Lemma assignSlot_invariant this name obj :
  name ≠ "__proto__" → invariant heap_ok (assignSlot this name obj).
Proof.
  intros Hname h Hok. unfold assignSlot. apply post_ret_bind. rewrite !bind_assoc.
  apply post_load_self; [|done]. intros o Ho. rewrite bind_assoc.
  apply post_load_slots; [|done]. intros sl Hs.
  apply post_store; [|done]. intros _ _. simpl. rewrite set_prop_key by done.
  eapply heap_ok_store_slots; [done..|].
  intros p [v Hp]. destruct (decide (p = name)) as [->|Hne].
  - rewrite lookup_insert_eq. by eexists.
  - rewrite lookup_insert_ne by done. by eexists.
Qed.

Lemma NoDup_set_add name ps : NoDup ps → NoDup (set_add name ps).
Proof.
  intros Hnd. unfold set_add. destruct (decide (name ∈ ps)); [done|].
  apply NoDup_app. split_and!; [done| |apply NoDup_singleton].
  intros x Hx ->%list_elem_of_singleton. done.
Qed.

Lemma elem_of_set_add p name ps : p ∈ set_add name ps → p = name ∨ p ∈ ps.
Proof.
  unfold set_add. destruct (decide (name ∈ ps)); [by right|].
  intros [?| ->%list_elem_of_singleton]%elem_of_app; [by right|by left].
Qed.

(** [makeParent] keeps the heap well formed where the value it reads as
    truthy is a key of the slots. *)
Lemma makeParent_keeps h this name :
  heap_ok h →
  (∀ o sl, h !! this = Some (CSelf o) → h !! slots o = Some (CSlots sl) →
           truthy (get_prop sl name) = true → is_Some (sl !! name)) →
  post (makeParent this name h) (λ _ h', heap_ok h') heap_ok.
Proof.
  intros Hok Hkey. unfold makeParent. apply post_ret_bind. rewrite !bind_assoc.
  apply post_load_self; [|done]. intros o Ho.
  destruct (heap_ok_object _ _ _ Hok Ho) as (sl & ps & ms & Hobj & Hnd & Hps).
  pose proof Hobj as (_ & Hs & Hp & _).
  rewrite bind_assoc, (bind_read_prop _ _ _ _ _ Hs).
  destruct (truthy (get_prop sl name)) eqn:Htruthy; [|done].
  rewrite bind_assoc, (bind_load_set _ _ _ _ Hp).
  apply post_store; [|done]. intros _ _. simpl.
  eapply heap_ok_store_parents; [done..|by apply NoDup_set_add|].
  intros p [->|Hin]%elem_of_set_add; [by eapply Hkey|by apply Hps].
Qed.

Lemma makeParent_invariant this name :
  name ∉ Object_prototype_names → invariant heap_ok (makeParent this name).
Proof.
  intros Hname h Hok. apply makeParent_keeps; [done|].
  intros o sl _ _ Htruthy. by destruct (truthy_get_prop_cases _ _ Htruthy).
Qed.

Lemma invariant_bind P {A B} (m : M A) (k : A → M B) :
  invariant P m → (∀ a, invariant P (k a)) → invariant P (bind m k).
Proof.
  intros Hm Hk h Hh. eapply post_bind; [by apply Hm|].
  intros a h1 H1. by apply Hk.
Qed.

Lemma invariant_ret P {A} (a : A) : invariant P (ret a).
Proof. by intros h Hh. Qed.

(** The slot [assignParentSlot] has assigned is a key when [makeParent]
    reads it, also under a name of [Object.prototype]. *)
Lemma assignParentSlot_invariant this name obj :
  name ≠ "__proto__" → invariant heap_ok (assignParentSlot this name obj).
Proof.
  intros Hname h Hok. unfold assignParentSlot, assignSlot.
  rewrite !bind_assoc.
  apply post_load_self; [|done]. intros o Ho. rewrite bind_assoc.
  apply post_load_slots; [|done]. intros sl Hs.
  apply post_store; [|done]. intros _ _. rewrite set_prop_key by done.
  assert (heap_ok (<[slots o := CSlots (<[name := obj]> sl)]> h)) as Hok1.
  { eapply heap_ok_store_slots; [done..|].
    intros p [v Hp]. destruct (decide (p = name)) as [->|Hne].
    - rewrite lookup_insert_eq. by eexists.
    - rewrite lookup_insert_ne by done. by eexists. }
  apply makeParent_keeps; [done|].
  intros o1 sl1 Ho1 Hs1 _.
  destruct (heap_ok_object _ _ _ Hok Ho) as (sl0 & ps & ms & Hobj & _).
  pose proof (object_at_distinct _ _ _ _ _ _ Hobj) as (Hne & _).
  rewrite list_lookup_insert_ne in Ho1 by done.
  assert (o1 = o) as -> by congruence.
  rewrite list_lookup_insert_eq in Hs1 by (by eapply lookup_lt_Some).
  injection Hs1 as <-. rewrite lookup_insert_eq. by eexists.
Qed.

Lemma update_self_invariant this f :
  (∀ o, slots (f o) = slots o ∧ parents (f o) = parents o ∧
        messages (f o) = messages o) →
  invariant heap_ok (update_self this f).
Proof.
  intros Hf h Hok. unfold update_self. apply post_ret_bind. rewrite bind_assoc.
  apply post_load_self; [|done]. intros o Ho.
  apply post_store; [|done]. intros _ _. simpl.
  destruct (Hf o) as (?&?&?). by eapply heap_ok_store_self.
Qed.

Lemma push_message_invariant this name : invariant heap_ok (push_message this name).
Proof.
  intros h Hok. unfold push_message. apply post_ret_bind. rewrite !bind_assoc.
  apply post_load_self; [|done]. intros o Ho. rewrite bind_assoc.
  apply post_load_arr; [|done]. intros ms Hm.
  apply post_store; [|done]. intros _ _. simpl.
  by eapply heap_ok_store_messages.
Qed.

(** One step of an invariant goal, along the structure of the
    computation; [heap_ok] of the current heap is an assumption. *)
Ltac inv_step :=
  lazymatch goal with
  | |- post (bind (bind _ _) _ _) _ _ => rewrite bind_assoc
  | |- post (bind (load_self _) _ _) _ _ =>
      apply post_load_self; [intros ? ?|assumption]
  | |- post (bind (load_slots _) _ _) _ _ =>
      apply post_load_slots; [intros ? ?|assumption]
  | |- post (bind (load_set _) _ _) _ _ =>
      apply post_load_set; [intros ? ?|assumption]
  | |- post (bind (load_arr _) _ _) _ _ =>
      apply post_load_arr; [intros ? ?|assumption]
  | |- post (bind (as_self _) _ _) _ _ =>
      apply post_as_self; [intros ? ? ? ?|assumption]
  | |- post (bind (copy _) _ _) _ _ =>
      eapply post_bind;
        [eapply copy_object_invariant; eassumption|intros ? ? [? _]; cbn beta]
  | |- post (bind (store _ _) _ _) _ _ =>
      apply post_store; [intros _ _|assumption]
  | |- post (ret _ _) _ _ => assumption
  | |- post (throw _ _) _ _ => assumption
  | |- post (out_of_fuel _) _ _ => exact I
  | |- post ((if ?x then _ else _) _) _ _ => destruct x eqn:?
  | |- post ((match ?x with _ => _ end) _) _ _ => destruct x eqn:?
  end.

Lemma bind_parameter_invariant v paramObj :
  invariant heap_ok (SelfObjectJs.bind_parameter v paramObj).
Proof.
  intros h Hok. unfold SelfObjectJs.bind_parameter. apply post_ret_bind.
  repeat inv_step.
  eapply heap_ok_store_slots; [eassumption..|].
  intros p [w Hp]. destruct (decide (p = "parameter")) as [->|Hne].
  - rewrite lookup_insert_eq. by eexists.
  - rewrite lookup_insert_ne by done. by eexists.
Qed.

Lemma js_search_invariant fuel name visited queue :
  invariant heap_ok (SelfObjectJs.search fuel name visited queue).
Proof.
  intros h Hok. eapply post_weaken; [apply js_search_pure|..]; simpl; intros; by subst.
Qed.

Section Invariants.

Variable native : nat → Value → list Value → M Value.
Hypothesis native_invariant : ∀ n this args, invariant heap_ok (native n this args).

Lemma js_call_invariant f this args : invariant heap_ok (SelfObjectJs.call native f this args).
Proof. destruct f; simpl; try (by intros h Hok); apply native_invariant. Qed.

Lemma js_engine_invariant edition fuel :
  (∀ this, invariant heap_ok (SelfObjectJs.evaluate native edition fuel this)) ∧
  (∀ this name, invariant heap_ok (SelfObjectJs.sendAMessage native edition fuel this name)) ∧
  (∀ arr i cur res, invariant heap_ok (SelfObjectJs.chain native edition fuel arr i cur res)).
Proof.
  induction fuel as [|fuel (IHe & IHs & IHc)].
  - by split_and!; intros; intros h Hok.
  - split_and!.
    + intros this h Hok. cbn [SelfObjectJs.evaluate].
      repeat inv_step; try (by apply js_call_invariant); try (by apply IHc).
    + intros this name h Hok. cbn [SelfObjectJs.sendAMessage].
      repeat inv_step; try (by apply IHe).
      eapply post_bind; [by apply js_search_invariant|]. intros found h1 Hok1.
      cbn beta. repeat inv_step; by apply IHe.
    + intros arr i cur res h Hok. cbn [SelfObjectJs.chain].
      repeat inv_step.
      eapply post_bind; [by apply IHs|]. intros r h1 Hok1. cbn beta.
      repeat inv_step. by apply IHc.
Qed.

Lemma js_sendAMessageWithParameters_invariant edition fuel this name paramObj :
  invariant heap_ok
    (SelfObjectJs.sendAMessageWithParameters native edition fuel this name paramObj).
Proof.
  intros h Hok. unfold SelfObjectJs.sendAMessageWithParameters.
  destruct (js_engine_invariant edition fuel) as (IHe & _).
  repeat inv_step.
  - eapply post_bind; [by apply bind_parameter_invariant|]. intros t h1 Hok1.
    by apply IHe.
  - eapply post_bind; [by apply js_search_invariant|]. intros found h1 Hok1.
    cbn beta. repeat inv_step.
    eapply post_bind; [by apply bind_parameter_invariant|]. intros t h2 Hok2.
    by apply IHe.
Qed.

Lemma p0_engine_invariant fuel :
  (∀ this, invariant heap_ok (Part000.evaluate native fuel this)) ∧
  (∀ this name v, invariant heap_ok (Part000.sendAMessage native fuel this name v)) ∧
  (∀ this set i name v,
     invariant heap_ok (Part000.each_parent native fuel this set i name v)) ∧
  (∀ c arr i res, invariant heap_ok (Part000.each_message native fuel c arr i res)).
Proof.
  induction fuel as [|fuel (IHe & IHs & IHp & IHm)].
  - by split_and!; intros; intros h Hok.
  - split_and!.
    + intros this h Hok. cbn [Part000.evaluate].
      repeat inv_step; try (by apply IHm).
      destruct (primitiveFn o); simpl; try done. by apply native_invariant.
    + intros this name v h Hok. cbn [Part000.sendAMessage].
      repeat inv_step; try (by apply IHp).
      eapply post_bind; [by apply IHe|]. by intros r h1 Hok1.
    + intros this set i name v h Hok. cbn [Part000.each_parent].
      repeat inv_step; try (by apply IHp).
      eapply post_bind; [by apply IHs|]. intros [r v'] h1 Hok1. cbn beta.
      repeat inv_step. by apply IHp.
    + intros c arr i res h Hok. cbn [Part000.each_message].
      repeat inv_step.
      eapply post_bind; [by apply IHs|]. intros [r v'] h1 Hok1. cbn beta.
      by apply IHm.
Qed.

Lemma p0_sendAMessageWithParameters_invariant fuel :
  (∀ this name paramObj,
     invariant heap_ok (Part000.sendAMessageWithParameters native fuel this name paramObj)) ∧
  (∀ this set i name paramObj,
     invariant heap_ok (Part000.each_parent_with native fuel this set i name paramObj)).
Proof.
  induction fuel as [|fuel (IHs & IHp)].
  - by split_and!; intros; intros h Hok.
  - destruct (p0_engine_invariant fuel) as (IHe & _).
    split_and!.
    + intros this name p h Hok. cbn [Part000.sendAMessageWithParameters].
      repeat inv_step; try (by apply IHp).
      eapply post_bind;
        [by apply (bind_parameter_invariant : ∀ v p,
                     invariant heap_ok (Part000.bind_parameter v p))|].
      intros t h1 Hok1. by apply IHe.
    + intros this set i name p h Hok. cbn [Part000.each_parent_with].
      repeat inv_step.
      eapply post_bind.
      { instantiate (1 := λ _ h', heap_ok h').
        destruct (get_prop _ _) eqn:Hparent; try done;
          (apply post_as_self; [intros ? ? ? ?|done]); by apply IHs. }
      intros r h1 Hok1. cbn beta. repeat inv_step. by apply IHp.
Qed.

End Invariants.

Lemma set_primitive_invariant this v : invariant heap_ok (set_primitive this v).
Proof. by apply update_self_invariant. Qed.

Lemma set_primitiveFn_invariant this f : invariant heap_ok (set_primitiveFn this f).
Proof. by apply update_self_invariant. Qed.

Lemma built_invariant {A} (script : M A) :
  invariant heap_ok script → heap_ok (built script).
Proof.
  intros H. specialize (H [] heap_ok_nil). unfold built.
  destruct (script []); simpl in H; [done|done|apply heap_ok_nil].
Qed.

Lemma example_native_invariant n this args :
  invariant heap_ok (example_native n this args).
Proof.
  destruct n as [|[|n]]; simpl.
  - apply invariant_ret.
  - apply invariant_bind; [apply new_SelfObject_invariant|intros ?; apply invariant_ret].
  - by intros h Hok.
Qed.

Lemma chain_world_ok : heap_ok chain_world.
Proof.
  replace chain_world with (built chain_script) by (vm_compute; reflexivity).
  apply built_invariant. unfold chain_script.
  repeat first
    [ apply new_SelfObject_invariant | apply set_primitive_invariant
    | apply assignSlot_invariant; discriminate
    | apply assignParentSlot_invariant; discriminate
    | apply push_message_invariant
    | apply invariant_bind; [|intros ?] ].
Qed.

(** X14. The heaps a program builds with the class are well formed: in
    every object, each parent names a slot that exists and no name is a
    parent twice, and no two objects share a [slots], [parents] or
    [messages] container. The empty heap is so, and the constructor,
    [copy], [evaluate] and the two dispatches of the three iterations keep
    it so, whether they return or throw, as long as the native functions
    do; so do the field writes of the drivers, [assignSlot] and
    [assignParentSlot] for any name but [__proto__], and [makeParent] for
    any name that [Object.prototype] does not have. For the names it has,
    [makeParent] on a new object leaves a parent that names no slot. *)
Theorem methods_keep_the_heap_well_formed native edition :
  (∀ n this args, invariant heap_ok (native n this args)) →
  heap_ok [] ∧
  invariant heap_ok new_SelfObject ∧
  (∀ h this o, heap_ok h → h !! this = Some (CSelf o) →
     post (copy this h) (λ _ h', heap_ok h') heap_ok) ∧
  (∀ this name obj, name ≠ "__proto__" → invariant heap_ok (assignSlot this name obj)) ∧
  (∀ this name, name ∉ Object_prototype_names → invariant heap_ok (makeParent this name)) ∧
  (∀ this name obj,
     name ≠ "__proto__" → invariant heap_ok (assignParentSlot this name obj)) ∧
  (∀ fuel this,
     invariant heap_ok (SelfObjectJs.evaluate native edition fuel this) ∧
     invariant heap_ok (Part000.evaluate native fuel this)) ∧
  (∀ fuel this name,
     invariant heap_ok (SelfObjectJs.sendAMessage native edition fuel this name) ∧
     invariant heap_ok (Part000.dispatch native fuel this name)) ∧
  (∀ fuel this name paramObj,
     invariant heap_ok
       (SelfObjectJs.sendAMessageWithParameters native edition fuel this name paramObj) ∧
     invariant heap_ok
       (Part000.sendAMessageWithParameters native fuel this name paramObj)) ∧
  (∀ this v, invariant heap_ok (set_primitive this v)) ∧
  (∀ this f, invariant heap_ok (set_primitiveFn this f)) ∧
  (∀ this name, invariant heap_ok (push_message this name)) ∧
  (∀ name, name ∈ Object_prototype_names →
     heap_ok (built new_SelfObject) ∧
     returns_with (makeParent 3 name (built new_SelfObject)) (λ _ h', ¬ heap_ok h')).
Proof.
  intros Hnative. split_and!.
  - apply heap_ok_nil.
  - apply new_SelfObject_invariant.
  - intros h this o Hok Hthis.
    eapply post_weaken; [by eapply copy_object_invariant|..]; simpl; [|done].
    by intros c h' [H _].
  - apply assignSlot_invariant.
  - apply makeParent_invariant.
  - apply assignParentSlot_invariant.
  - intros fuel this. split.
    + by apply js_engine_invariant.
    + by apply p0_engine_invariant.
  - intros fuel this name. split.
    + by apply js_engine_invariant.
    + unfold Part000.dispatch. apply invariant_bind; [by apply p0_engine_invariant|].
      intros r. apply invariant_ret.
  - intros fuel this name p. split.
    + by apply js_sendAMessageWithParameters_invariant.
    + by apply p0_sendAMessageWithParameters_invariant.
  - apply set_primitive_invariant.
  - apply set_primitiveFn_invariant.
  - apply push_message_invariant.
  - intros name Hname.
    split; [apply built_invariant, new_SelfObject_invariant|].
    pose proof (constructed_object_at []) as Hobj.
    change ([] ++ constructed []) with (built new_SelfObject) in Hobj.
    cbn [length Nat.add] in Hobj.
    rewrite (makeParent_Ret _ _ _ _ _ _ name Hobj).
    rewrite truthy_get_prop_inherited by done. simpl.
    intros Hok.
    pose proof (object_at_makeParent _ _ _ _ _ _ (set_add name []) Hobj) as Hobj'.
    destruct (heap_ok_object _ _ _ Hok (proj1 Hobj')) as (sl & ps & ms & Hobj2 & _ & Hps).
    destruct (object_at_inj _ _ _ _ _ _ _ _ _ _ Hobj' Hobj2) as (_ & -> & -> & _).
    destruct (Hps name) as [v Hv]; [|done].
    rewrite set_add_new by apply not_elem_of_nil. apply list_elem_of_here.
Qed.

(** X14 with the example native functions: the heap that evaluating
    [objA] of the example leaves is well formed. *)
Lemma methods_keep_the_heap_well_formed_witness :
  (∀ n this args, invariant heap_ok (example_native n this args)) ∧
  post (SelfObjectJs.evaluate example_native First 10 3 chain_world)
    (λ _ h', heap_ok h') heap_ok.
Proof.
  split; [exact example_native_invariant|].
  destruct (methods_keep_the_heap_well_formed example_native First
              example_native_invariant) as (_ & _ & _ & _ & _ & _ & Hev & _).
  exact (proj1 (Hev 10 3) chain_world chain_world_ok).
Defined.

(** ** A mutation is local *)

Lemma object_at_other_store h this o sl ps ms other oo osl ops oms c cell :
  heap_ok h → object_at h this o sl ps ms → object_at h other oo osl ops oms →
  this ≠ other → c = slots o ∨ c = parents o ∨ c = messages o →
  object_at (<[c := cell]> h) other oo osl ops oms.
Proof.
  intros [_ Hun] Hthis Hother Hne Hc.
  destruct (Hun this other o oo (proj1 Hthis) (proj1 Hother) Hne) as (U1 & U2 & U3).
  destruct Hthis as (Ho & Hs & Hp & Hm). pose proof Hother as (Ho' & Hs' & Hp' & Hm').
  apply object_at_insert; [done|..];
    destruct Hc as [-> | [-> | ->]]; congruence.
Qed.



(** ** Inheritance, and the answers of a copy *)

Lemma assignParentSlot_other h this o sl ps ms other oo osl ops oms name v :
  heap_ok h → object_at h this o sl ps ms → object_at h other oo osl ops oms →
  this ≠ other →
  object_at (if truthy v
             then <[parents o := CSet (set_add name ps)]>
                    (<[slots o := CSlots (<[name := v]> sl)]> h)
             else <[slots o := CSlots (<[name := v]> sl)]> h)
    other oo osl ops oms.
Proof.
  intros Hok Hthis Hother Hne.
  assert (heap_ok (<[slots o := CSlots (<[name := v]> sl)]> h)) as Hok1.
  { eapply heap_ok_store_slots; [done|apply Hthis|apply Hthis|].
    intros p [w Hp]. destruct (decide (p = name)) as [->|Hp'].
    - rewrite lookup_insert_eq. by eexists.
    - rewrite lookup_insert_ne by done. by eexists. }
  assert (object_at (<[slots o := CSlots (<[name := v]> sl)]> h) other oo osl ops oms)
    as Hother1 by (apply (object_at_other_store h this o sl ps ms); auto).
  destruct (truthy v); [|done].
  apply (object_at_other_store _ this o (<[name := v]> sl) ps ms); auto.
  by apply object_at_assignSlot.
Qed.

(** X16. Delegation. An object with no parents, for which [slots[name]]
    reads a falsy value, gets a parent by [assignParentSlot] (under any
    name but [__proto__], which is no slot); from then on a message
    [name] for which the parent holds an object is answered by the
    evaluation of that object, in the three iterations. *)
Theorem inherited_slot_is_found native edition h this o sl ms pname
    parent po psl pps pms name t :
  heap_ok h → object_at h this o sl [] ms → object_at h parent po psl pps pms →
  this ≠ parent → name ≠ pname → pname ≠ "__proto__" →
  truthy (get_prop sl name) = false → get_prop psl name = VRef t →
  ∃ h',
    assignParentSlot this pname (VRef parent) h = Ret tt h' ∧
    parents_of h' this = Some [pname] ∧
    (∀ fuel,
       SelfObjectJs.sendAMessage native edition (S (S fuel)) this name h' =
         (let* target := as_self (VRef t) in
          SelfObjectJs.evaluate native edition (S fuel) target) h') ∧
    (∀ fuel r h1,
       (let* target := as_self (VRef t) in Part000.evaluate native fuel target) h' =
         Ret r h1 →
       truthy r = true →
       Part000.dispatch native (S (S (S fuel))) this name h' = Ret r h1).
Proof.
  intros Hok Hthis Hparent Hne Hname Hpname Hmiss Hslot.
  pose proof (assignParentSlot_Ret _ _ _ _ _ _ pname (VRef parent) Hthis Hpname) as Hret.
  pose proof (object_at_assignParentSlot _ _ _ _ _ _ pname (VRef parent) Hthis) as Hthis'.
  pose proof (assignParentSlot_other _ _ _ _ _ _ _ _ _ _ _ pname (VRef parent)
                Hok Hthis Hparent Hne) as Hparent'.
  cbn [truthy] in *. rewrite (set_add_new pname []) in * by apply not_elem_of_nil.
  cbn [app] in *.
  set (h' := <[parents o := CSet [pname]]>
               (<[slots o := CSlots (<[pname := VRef parent]> sl)]> h)) in *.
  assert (truthy (get_prop (<[pname := VRef parent]> sl) name) = false) as Hmiss'
    by by rewrite get_prop_insert_ne.
  assert (truthy (get_prop psl name) = true) as Hhit by by rewrite Hslot.
  exists h'. split; [done|]. split; [by eapply parents_of_object_at|]. split.
  - intros fuel.
    rewrite <- Hslot.
    eapply js_sendAMessage_inherits; [exact Hthis'|exact Hmiss'|].
    cbn [map]. rewrite get_prop_insert.
    by eapply js_search_hit.
  - intros fuel r h1 Hev Hr.
    destruct Hthis' as (Ho & Hs & Hp & _). destruct Hparent' as (Hpo & Hps & _).
    unfold Part000.dispatch.
    cbn [Part000.sendAMessage Part000.each_parent].
    rewrite bind_assoc, (bind_load_self _ _ _ _ Ho).
    rewrite bind_assoc, (bind_load_slots _ _ _ _ Hs), Hmiss'.
    rewrite bind_assoc, (bind_load_set _ _ _ _ Hp). cbn [lookup list_lookup].
    rewrite bind_assoc, (bind_load_self _ _ _ _ Ho).
    rewrite bind_assoc, (bind_load_slots _ _ _ _ Hs).
    cbn zeta. rewrite get_prop_insert. cbn [truthy has andb].
    rewrite bool_decide_eq_false_2
      by (intros ->%list_elem_of_singleton; by apply Hne).
    cbn [negb]. rewrite bind_assoc, (bind_as_self _ _ _ _ Hpo).
    rewrite !bind_assoc, (bind_load_self _ _ _ _ Hpo).
    rewrite !bind_assoc, (bind_load_slots _ _ _ _ Hps), Hhit, Hslot.
    rewrite !bind_assoc in *.
    apply bind_Ret_inv in Hev as (t' & h0 & Hself & Hev).
    rewrite (bind_Ret _ _ _ _ _ Hself).
    rewrite !bind_assoc, (bind_Ret _ _ _ _ _ Hev).
    unfold bind, ret. cbn [fst snd]. by rewrite Hr.
Qed.

(** X16 on the example: [objB] gets [objA] as a parent and answers [b]
    with [objA]'s slot, which holds [objB]. *)
Lemma inherited_slot_is_found_witness :
  heap_ok chain_world ∧
  ∃ h', assignParentSlot 7 "a" (VRef 3) chain_world = Ret tt h' ∧
    SelfObjectJs.sendAMessage no_native First 2 7 "b" h' =
      (let* target := as_self (VRef 7) in
       SelfObjectJs.evaluate no_native First 1 target) h'.
Proof.
  split; [exact chain_world_ok|].
  destruct (inherited_slot_is_found no_native First _ _ _ _ _ "a" _ _ _ _ _ "b" 7
              chain_world_ok chain_world_objB chain_world_objA
              ltac:(discriminate) ltac:(discriminate) ltac:(discriminate)
              ltac:(vm_compute; reflexivity) ltac:(vm_compute; reflexivity))
    as (h' & H1 & _ & H2 & _).
  exists h'. split; [exact H1|]. exact (H2 0).
Defined.



(** ** The two texts of [SelfObject.js] *)

Lemma eq_bind_load_self {B} l (k k' : SelfObject → M B) (h : Heap) :
  (∀ o, h !! l = Some (CSelf o) → k o h = k' o h) →
  bind (load_self l) k h = bind (load_self l) k' h.
Proof.
  intros H. unfold load_self, load, bind, ret, throw.
  destruct (h !! l) as [[]|] eqn:E; simpl; try done. by apply H.
Qed.

Lemma eq_bind_load_slots {B} l (k k' : gmap string Value → M B) (h : Heap) :
  (∀ m, h !! l = Some (CSlots m) → k m h = k' m h) →
  bind (load_slots l) k h = bind (load_slots l) k' h.
Proof.
  intros H. unfold load_slots, load, bind, ret, throw.
  destruct (h !! l) as [[]|] eqn:E; simpl; try done. by apply H.
Qed.

Lemma eq_bind_load_set {B} l (k k' : list string → M B) (h : Heap) :
  (∀ s, h !! l = Some (CSet s) → k s h = k' s h) →
  bind (load_set l) k h = bind (load_set l) k' h.
Proof.
  intros H. unfold load_set, load, bind, ret, throw.
  destruct (h !! l) as [[]|] eqn:E; simpl; try done. by apply H.
Qed.

Lemma eq_bind_load_arr {B} l (k k' : list string → M B) (h : Heap) :
  (∀ a, h !! l = Some (CArr a) → k a h = k' a h) →
  bind (load_arr l) k h = bind (load_arr l) k' h.
Proof.
  intros H. unfold load_arr, load, bind, ret, throw.
  destruct (h !! l) as [[]|] eqn:E; simpl; try done. by apply H.
Qed.

Lemma eq_bind_as_self {B} v (k k' : Loc → M B) (h : Heap) :
  (∀ l o, v = VRef l → h !! l = Some (CSelf o) → k l h = k' l h) →
  bind (as_self v) k h = bind (as_self v) k' h.
Proof.
  intros H. destruct v; try done. simpl. rewrite !bind_assoc.
  apply eq_bind_load_self. intros o Ho. unfold bind, ret. by eapply H.
Qed.

Lemma eq_bind_post {A B} (m : M A) (k k' : A → M B) h Q E :
  post (m h) Q E → (∀ a h1, Q a h1 → k a h1 = k' a h1) →
  bind m k h = bind m k' h.
Proof. intros Hm Hk. unfold bind. destruct (m h); simpl in *; auto. Qed.

Lemma eq_bind_l {A B} (m m' : M A) (k : A → M B) h :
  m h = m' h → bind m k h = bind m' k h.
Proof. intros H. unfold bind. by rewrite H. Qed.

Section Texts.

Variable native : nat → Value → list Value → M Value.
Hypothesis native_invariant : ∀ n this args, invariant heap_ok (native n this args).
Hypothesis native_ignores_parameter :
  ∀ n this self param h, native n this [self; param] h = native n this [self] h.

Lemma js_texts_agree fuel :
  (∀ this h, heap_ok h →
     SelfObjectJs.evaluate native First fuel this h =
     SelfObjectJs.evaluate native Second fuel this h) ∧
  (∀ this name h, heap_ok h →
     SelfObjectJs.sendAMessage native First fuel this name h =
     SelfObjectJs.sendAMessage native Second fuel this name h) ∧
  (∀ arr i cur res h, heap_ok h →
     SelfObjectJs.chain native First fuel arr i cur res h =
     SelfObjectJs.chain native Second fuel arr i cur res h).
Proof.
  induction fuel as [|fuel (IHe & IHs & IHc)]; [done|].
  destruct (js_engine_invariant native native_invariant Second fuel)
    as (Ie & Is & Ic).
  split_and!.
  - intros this h Hok. cbn [SelfObjectJs.evaluate].
    apply eq_bind_load_self. intros o Ho.
    destruct (not_null (primitive o)); [done|].
    destruct (truthy (primitiveFn o)).
    + destruct (heap_ok_object _ _ _ Hok Ho) as (sl & ps & ms & (_ & Hs & _) & _).
      rewrite (bind_load_slots _ _ _ _ Hs).
      destruct (primitiveFn o); simpl; first [done|apply native_ignores_parameter].
    + apply eq_bind_load_arr. intros msgs Hm.
      destruct (0 <? length msgs); [|done].
      eapply eq_bind_post; [by eapply copy_object_invariant|].
      intros c h1 [Hok1 _]. by apply IHc.
  - intros this name h Hok. cbn [SelfObjectJs.sendAMessage].
    apply eq_bind_load_self. intros o Ho.
    apply eq_bind_load_slots. intros sl Hs.
    destruct (truthy (get_prop sl name)).
    + apply eq_bind_as_self. intros l lo _ Hl. by apply IHe.
    + apply eq_bind_load_set. intros ps Hp.
      eapply eq_bind_post; [by apply js_search_invariant|].
      intros found h1 Hok1. cbn beta. destruct (found.1); [|done].
      apply eq_bind_as_self. intros l lo _ Hl. by apply IHe.
  - intros arr i cur res h Hok. cbn [SelfObjectJs.chain].
    apply eq_bind_load_arr. intros msgs Hm.
    destruct (msgs !! i) as [msg|]; [|done].
    apply eq_bind_as_self. intros l lo _ Hl.
    rewrite (eq_bind_l _ _ _ _ (IHs l msg h Hok)).
    eapply eq_bind_post; [by apply Is|].
    intros r h1 Hok1. cbn beta. destruct (truthy r); [|done]. by apply IHc.
Qed.

End Texts.

(** X18. The two texts of [SelfObject.js] differ in what they hand to the
    native function, and in nothing else: for native functions that make
    no use of a second argument (as the one of [part_000], which reads
    the parameter from the slots of the object it is given) and keep the
    heap well formed, [evaluate], [sendAMessage] and
    [sendAMessageWithParameters] of the first text are those of the
    second, on every well-formed heap. *)
Theorem texts_differ_in_the_native_call_only native :
  (∀ n this args, invariant heap_ok (native n this args)) →
  (∀ n this self param h, native n this [self; param] h = native n this [self] h) →
  ∀ fuel this name paramObj h, heap_ok h →
    SelfObjectJs.evaluate native First fuel this h =
      SelfObjectJs.evaluate native Second fuel this h ∧
    SelfObjectJs.sendAMessage native First fuel this name h =
      SelfObjectJs.sendAMessage native Second fuel this name h ∧
    SelfObjectJs.sendAMessageWithParameters native First fuel this name paramObj h =
      SelfObjectJs.sendAMessageWithParameters native Second fuel this name paramObj h.
Proof.
  intros Hinv Hignores fuel this name p h Hok.
  destruct (js_texts_agree native Hinv Hignores fuel) as (He & Hs & _).
  split_and!; [by apply He|by apply Hs|].
  unfold SelfObjectJs.sendAMessageWithParameters.
  apply eq_bind_load_self. intros o Ho.
  apply eq_bind_load_slots. intros sl Hsl.
  destruct (truthy (get_prop sl name)).
  - eapply eq_bind_post; [by apply bind_parameter_invariant|].
    intros t h1 Hok1. by apply He.
  - apply eq_bind_load_set. intros ps Hp.
    eapply eq_bind_post; [by apply js_search_invariant|].
    intros found h1 Hok1. cbn beta. destruct (found.1); [|done].
    eapply eq_bind_post; [by apply bind_parameter_invariant|].
    intros t h2 Hok2. by apply He.
Qed.

Lemma get_primitive_invariant v : invariant heap_ok (get_primitive v).
Proof.
  intros h Hok. destruct v; simpl; try done.
  apply post_load_self; [|done]. by intros o Ho.
Qed.

Lemma part_000_native_invariant plus_one n this args :
  invariant heap_ok (part_000_native plus_one n this args).
Proof.
  destruct n as [|n]; [|by intros h Hok]. simpl. unfold addOne_primitiveFn.
  intros h Hok. repeat inv_step.
  eapply post_bind; [by apply new_SelfObject_invariant|]. intros r h1 Hok1.
  eapply post_bind; [by apply get_primitive_invariant|]. intros p h2 Hok2.
  eapply post_bind; [by apply set_primitive_invariant|]. intros u h3 Hok3. exact Hok3.
Qed.

Lemma increment_world_ok : heap_ok increment_world.
Proof.
  replace increment_world with (built (part_000_objects (VNum 5)))
    by (vm_compute; reflexivity).
  apply built_invariant. unfold part_000_objects.
  repeat first
    [ apply new_SelfObject_invariant | apply set_primitive_invariant
    | apply set_primitiveFn_invariant
    | apply assignSlot_invariant; discriminate
    | apply invariant_ret
    | apply invariant_bind; [|intros ?] ].
Qed.

(** X18 with the native function of [part_000], on the objects of its
    driver. *)
Lemma texts_differ_in_the_native_call_only_witness :
  (∀ n this args, invariant heap_ok (part_000_native integer_plus_one n this args)) ∧
  heap_ok increment_world ∧
  SelfObjectJs.sendAMessageWithParameters (part_000_native integer_plus_one) First
    5 3 "increment" (VRef 3) increment_world =
  SelfObjectJs.sendAMessageWithParameters (part_000_native integer_plus_one) Second
    5 3 "increment" (VRef 3) increment_world.
Proof.
  split; [exact (part_000_native_invariant integer_plus_one)|].
  split; [exact increment_world_ok|].
  refine (proj2 (proj2 (texts_differ_in_the_native_call_only
                          (part_000_native integer_plus_one)
                          (part_000_native_invariant integer_plus_one) _
                          5 3 "increment" (VRef 3) increment_world increment_world_ok))).
  intros [|n] this self param h; reflexivity.
Defined.

(** ** A message that is answered by a falsy value *)

(** X19. In [SelfObject.js] a message of a chain counts as not found when
    its answer is falsy, also when the slot is there: if the slot of the
    first message holds an object whose evaluation returns a falsy value
    (a native function may), [evaluate] throws [MessageNotFound] for that
    message. [part_000] throws nothing: with that one message, and a
    heap that evaluation has only added to, it returns what the
    evaluation returns, falsy or not. *)
Theorem chain_throws_on_a_falsy_answer native edition h this o sl ps m ms t to fuel r h1 :
  object_at h this o sl ps (m :: ms) →
  primitive o = VNull → primitiveFn o = VNull →
  get_prop sl m = VRef t → h !! t = Some (CSelf to) →
  SelfObjectJs.evaluate native edition fuel t (h ++ copied h o sl ps (m :: ms)) =
    Ret r h1 →
  truthy r = false →
  SelfObjectJs.evaluate native edition (S (S (S fuel))) this h =
    Throw (MessageNotFound m) h1 ∧
  (∀ r' h1',
     ms = [] →
     Part000.evaluate native fuel t (h ++ copied h o sl ps [m]) = Ret r' h1' →
     extends (h ++ copied h o sl ps [m]) h1' →
     Part000.evaluate native (S (S (S fuel))) this h = Ret r' h1').
Proof.
  intros Hobj Hp Hf Hm Ht Hev Hr.
  pose proof (copy_Ret _ _ _ _ _ _ Hobj) as Hcopy.
  pose proof (copied_object_at h o sl ps (m :: ms)) as (Hco & Hcs & _ & Hcm).
  set (h0 := h ++ copied h o sl ps (m :: ms)) in *.
  assert (h0 !! messages o = Some (CArr (m :: ms))) as Harr
    by (apply lookup_app_l_Some, Hobj).
  assert (h0 !! t = Some (CSelf to)) as Ht0 by by apply lookup_app_l_Some.
  destruct Hobj as (Ho & _ & _ & Hms).
  split.
  - cbn [SelfObjectJs.evaluate SelfObjectJs.chain SelfObjectJs.sendAMessage].
    rewrite (bind_load_self _ _ _ _ Ho), Hp, Hf. cbn [not_null truthy].
    rewrite (bind_load_arr _ _ _ _ Hms). cbn [length Nat.ltb Nat.leb].
    rewrite (bind_Ret _ _ _ _ _ Hcopy).
    rewrite (bind_load_arr _ _ _ _ Harr). cbn [lookup list_lookup].
    rewrite (bind_as_self _ _ _ _ Hco).
    rewrite bind_assoc, (bind_load_self _ _ _ _ Hco). cbn [slots].
    rewrite bind_assoc, (bind_load_slots _ _ _ _ Hcs), Hm. cbn [truthy].
    rewrite bind_assoc, (bind_as_self _ _ _ _ Ht0).
    by rewrite (bind_Ret _ _ _ _ _ Hev), Hr.
  - intros r' h1' -> Hev' He. subst h0.
    cbn [Part000.evaluate Part000.each_message Part000.sendAMessage].
    rewrite (bind_load_self _ _ _ _ Ho), Hp, Hf. cbn [not_null].
    rewrite (bind_load_arr _ _ _ _ Hms). cbn [length Nat.ltb Nat.leb].
    rewrite (bind_Ret _ _ _ _ _ Hcopy).
    rewrite (bind_load_self _ _ _ _ Hco). cbn [messages].
    rewrite (bind_load_arr _ _ _ _ Hcm). cbn [lookup list_lookup].
    rewrite !bind_assoc, (bind_load_self _ _ _ _ Hco). cbn [slots].
    rewrite !bind_assoc, (bind_load_slots _ _ _ _ Hcs), Hm. cbn [truthy].
    rewrite !bind_assoc, (bind_as_self _ _ _ _ Ht0).
    rewrite !bind_assoc, (bind_Ret _ _ _ _ _ Hev').
    unfold bind at 1. unfold ret at 1.
    assert (h1' !! (length h + 6) = Some (CArr [m])) as Harr'
      by (eapply extends_lookup; [exact He|exact Hcm]).
    by rewrite (bind_load_arr _ _ _ _ Harr').
Qed.

Lemma silent_world_obj :
  object_at silent_world 3 (mkSelfObject 0 1 2 VNull VNull) {["f" := VRef 7]} [] ["f"].
Proof. split_and!; vm_compute; reflexivity. Qed.

(** X19 on the example: the native function returns [undefined], and
    the message [f], whose slot is there, is reported as not found. *)
Lemma chain_throws_on_a_falsy_answer_witness :
  object_at silent_world 3 (mkSelfObject 0 1 2 VNull VNull) {["f" := VRef 7]} [] ["f"] ∧
  throws (SelfObjectJs.evaluate example_native First 4 3 silent_world)
         (MessageNotFound "f").
Proof.
  split; [exact silent_world_obj|].
  assert (∃ h1, SelfObjectJs.evaluate example_native First 4 3 silent_world =
                  Throw (MessageNotFound "f") h1) as [h1 E].
  { eexists.
    eapply (proj1 (chain_throws_on_a_falsy_answer example_native First _ _ _ _ _ "f" []
                     7 (mkSelfObject 4 5 6 VNull (VFun 0)) 1 _ _
                     silent_world_obj eq_refl eq_refl
                     ltac:(vm_compute; reflexivity) ltac:(vm_compute; reflexivity)
                     ltac:(vm_compute; reflexivity) eq_refl)). }
  unfold throws. rewrite E. reflexivity.
Defined.

(** ** [sendAMessageWithParameters] of [part_000] without a cycle *)

Lemma p0_each_parent_with_misses native h name paramObj this o sl ps ms bound :
  object_at h this o sl ps ms →
  Forall (λ v, v = VUndefined ∨ v = VNull ∨
               ∃ l', v = VRef l' ∧ (∃ o', h !! l' = Some (CSelf o')) ∧
                     ∀ fuel, bound ≤ fuel →
                       Part000.sendAMessageWithParameters native fuel l' name paramObj h =
                         Ret VNull h)
         (map (get_prop sl) ps) →
  ∀ k i fuel, length ps - i ≤ k → bound + k + 1 ≤ fuel →
    Part000.each_parent_with native fuel this (parents o) i name paramObj h = Ret VNull h.
Proof.
  intros (Ho & Hs & Hp & _) Hall.
  induction k as [|k IH]; intros i fuel Hk Hfuel.
  - destruct fuel as [|fuel]; [lia|]. cbn [Part000.each_parent_with].
    rewrite (bind_load_set _ _ _ _ Hp).
    by rewrite (lookup_ge_None_2 ps i) by lia.
  - destruct fuel as [|fuel]; [lia|]. cbn [Part000.each_parent_with].
    rewrite (bind_load_set _ _ _ _ Hp).
    destruct (ps !! i) as [pn|] eqn:Hpn; [|done].
    rewrite (bind_load_self _ _ _ _ Ho), (bind_load_slots _ _ _ _ Hs).
    assert (get_prop sl pn ∈ map (get_prop sl) ps) as Hin.
    { apply list_elem_of_fmap. exists pn. split; [done|].
      by eapply list_elem_of_lookup_2. }
    rewrite Forall_forall in Hall.
    destruct (Hall _ Hin) as [->| [->|(l' & -> & (o' & Ho') & Hsend)]].
    + unfold bind at 1, ret at 1. cbn [truthy]. apply IH; lia.
    + unfold bind at 1, ret at 1. cbn [truthy]. apply IH; lia.
    + rewrite bind_assoc, (bind_as_self _ _ _ _ Ho').
      rewrite (bind_Ret _ _ _ _ _ (Hsend fuel ltac:(lia))). cbn [truthy].
      apply IH; lia.
Qed.

(** X20. Where the parent graph has no cycle, [sendAMessageWithParameters]
    of [part_000] ends without its visited set: when [slots[name]] reads
    a falsy value in the receiver and in every one of its ancestors, it
    returns [null] for any fuel from a bound on and leaves the heap as it
    is. *)
Theorem part_000_parameters_unanswered_without_cycle native h name rank width family :
  ranked_lacks h name rank width family →
  ∀ this paramObj fuel, family this →
    (rank this + 1) * (width + 2) ≤ fuel →
    Part000.sendAMessageWithParameters native fuel this name paramObj h = Ret VNull h.
Proof.
  intros Hranked this paramObj. remember (rank this) as r eqn:Hr.
  revert this Hr. induction (lt_wf r) as [r _ IH]. intros this -> fuel Hthis Hfuel.
  destruct (Hranked this Hthis) as (o & sl & ps & ms & Hobj & Hname & Hwidth & Hall).
  destruct fuel as [|fuel]; [lia|]. cbn [Part000.sendAMessageWithParameters].
  rewrite (bind_load_self _ _ _ _ (proj1 Hobj)).
  rewrite (bind_load_slots _ _ _ _ (proj1 (proj2 Hobj))), Hname.
  eapply (p0_each_parent_with_misses native h name paramObj this o sl ps ms
            (rank this * (width + 2)) Hobj); [|reflexivity|lia].
  eapply Forall_impl; [exact Hall|]. cbn beta.
  intros v [->|[->|(l' & -> & Hl' & Hlt)]]; [by left|by right; left|].
  right. right. exists l'. split; [done|].
  destruct (Hranked l' Hl') as (o' & _ & _ & _ & (Ho' & _) & _).
  split; [by exists o'|].
  intros fuel' Hfuel'. apply (IH (rank l') Hlt l' eq_refl fuel' Hl'). nia.
Qed.

(** X20 on the example without a cycle: [A] with the parents [B] and [C],
    [B] with the parent [D]; none of them holds [z]. *)
Lemma part_000_parameters_unanswered_without_cycle_witness :
  ranked_lacks grandparent_world "z"
    (λ l, if decide (l = 3) then 2 else if decide (l = 7) then 1 else 0) 2
    (λ l, l ∈ [3; 7; 11; 15]) ∧
  Part000.sendAMessageWithParameters no_native 12 3 "z" VNull grandparent_world =
    Ret VNull grandparent_world.
Proof.
  assert (ranked_lacks grandparent_world "z"
            (λ l, if decide (l = 3) then 2 else if decide (l = 7) then 1 else 0) 2
            (λ l, l ∈ [3; 7; 11; 15])) as Hranked.
  { intros l Hl. repeat (apply elem_of_cons in Hl as [->|Hl]);
      [| | | |by apply not_elem_of_nil in Hl].
    - eexists _, _, _, _. split; [exact grandparent_world_A|].
      split; [vm_compute; reflexivity|]. split; [simpl; lia|]. cbn [map].
      repeat (constructor;
        [right; right; eexists; split; [vm_compute; reflexivity|];
         split; [in_list|simpl; lia]|]).
      constructor.
    - eexists _, _, _, _. split; [exact grandparent_world_B|].
      split; [vm_compute; reflexivity|]. split; [simpl; lia|]. cbn [map].
      repeat (constructor;
        [right; right; eexists; split; [vm_compute; reflexivity|];
         split; [in_list|simpl; lia]|]).
      constructor.
    - eexists _, _, _, _. split; [exact grandparent_world_C|].
      split; [vm_compute; reflexivity|]. split; [simpl; lia|]. constructor.
    - eexists _, _, _, _. split; [exact grandparent_world_D|].
      split; [vm_compute; reflexivity|]. split; [simpl; lia|]. constructor. }
  split; [exact Hranked|].
  apply (part_000_parameters_unanswered_without_cycle no_native _ _ _ _ _ Hranked
           3 VNull 12); [in_list|simpl; lia].
Defined.

(** ** What the parent search finds is there, and what it misses is not *)

Lemma load_slots_Ret_inv l h m h' :
  load_slots l h = Ret m h' → h' = h ∧ h !! l = Some (CSlots m).
Proof.
  unfold load_slots, load, bind. destruct (h !! l) as [[]|]; simpl; try done.
  unfold ret. by intros [= -> ->].
Qed.

Lemma load_set_Ret_inv l h s h' :
  load_set l h = Ret s h' → h' = h ∧ h !! l = Some (CSet s).
Proof.
  unfold load_set, load, bind. destruct (h !! l) as [[]|]; simpl; try done.
  unfold ret. by intros [= -> ->].
Qed.

(** What an iteration of the loop has read when it goes on or returns:
    the object [l] it has taken from the queue, and its slots. *)
Lemma js_search_visit_inv fuel name visited v queue h result h' :
  negb (truthy v) || has visited v = false →
  SelfObjectJs.search (S fuel) name visited (v :: queue) h = Ret result h' →
  ∃ l o sl,
    v = VRef l ∧ (l ∉ visited) ∧
    h !! l = Some (CSelf o) ∧ h !! slots o = Some (CSlots sl) ∧
    (if truthy (get_prop sl name)
     then (result = (Some (get_prop sl name), l :: visited) ∧ h' = h)
     else (∃ ps, h !! parents o = Some (CSet ps) ∧
             SelfObjectJs.search fuel name (l :: visited)
               (queue ++ map (get_prop sl) ps) h = Ret result h')).
Proof.
  intros Hgo Hsearch. cbn [SelfObjectJs.search] in Hsearch. rewrite Hgo in Hsearch.
  apply orb_false_iff in Hgo as [_ Hhas].
  apply bind_Ret_inv in Hsearch as (l & h1 & Hl & Hsearch).
  apply as_self_Ret_inv in Hl as (-> & -> & o & Ho).
  apply bind_Ret_inv in Hsearch as (o' & h1 & Ho' & Hsearch).
  apply load_self_Ret_inv in Ho' as (-> & Ho').
  assert (o' = o) as -> by congruence.
  apply bind_Ret_inv in Hsearch as (sl & h1 & Hs & Hsearch).
  apply load_slots_Ret_inv in Hs as (-> & Hs).
  exists l, o, sl. split; [done|].
  split; [by apply bool_decide_eq_false in Hhas|]. split; [done|]. split; [done|].
  destruct (truthy (get_prop sl name)).
  - unfold ret in Hsearch. by injection Hsearch as <- <-.
  - apply bind_Ret_inv in Hsearch as (ps & h1 & Hp & Hsearch).
    apply load_set_Ret_inv in Hp as (-> & Hp). by exists ps.
Qed.

Lemma slot_of_cells h l o sl name :
  h !! l = Some (CSelf o) → h !! slots o = Some (CSlots sl) →
  slot_of h l name = Some (get_prop sl name).
Proof.
  intros Ho Hs. unfold slot_of, slots_of, self_at. rewrite Ho. simpl. by rewrite Hs.
Qed.

Lemma parent_values_cells h l o sl ps :
  h !! l = Some (CSelf o) → h !! slots o = Some (CSlots sl) →
  h !! parents o = Some (CSet ps) →
  parent_values h l = map (get_prop sl) ps.
Proof.
  intros Ho Hs Hp. unfold parent_values, slots_of, parents_of, self_at.
  rewrite Ho. simpl. by rewrite Hs, Hp.
Qed.

(** A search that ends without a slot has looked into every object of
    its queue, and into the parents of every object it has looked into. *)
Lemma js_search_none h name fuel : ∀ visited queue visited' h',
  SelfObjectJs.search fuel name visited queue h = Ret (None, visited') h' →
  visited ⊆ visited' ∧
  (∀ l, VRef l ∈ queue → l ∈ visited') ∧
  (∀ l, l ∈ visited' →
     l ∈ visited ∨
     holds_no h name l ∧ ∀ l', VRef l' ∈ parent_values h l → l' ∈ visited').
Proof.
  induction fuel as [|fuel IH]; intros visited queue visited' h' Hsearch; [done|].
  destruct queue as [|v queue].
  - injection Hsearch as <- <-. split_and!; [done| |auto].
    intros l Hl. by apply not_elem_of_nil in Hl.
  - destruct (negb (truthy v) || has visited v) eqn:Hgo.
    + cbn [SelfObjectJs.search] in Hsearch. rewrite Hgo in Hsearch.
      destruct (IH _ _ _ _ Hsearch) as (Hsub & Hqueue & Hclosed).
      split_and!; [done| |done].
      intros l [<-|Hl]%elem_of_cons; [|by apply Hqueue].
      cbn [truthy negb orb has] in Hgo. apply bool_decide_eq_true in Hgo.
      by apply Hsub.
    + destruct (js_search_visit_inv _ _ _ _ _ _ _ _ Hgo Hsearch)
        as (l & o & sl & -> & Hnew & Ho & Hs & Hrest).
      destruct (truthy (get_prop sl name)) eqn:Hname; [by destruct Hrest|].
      destruct Hrest as (ps & Hp & Hsearch').
      destruct (IH _ _ _ _ Hsearch') as (Hsub & Hqueue & Hclosed).
      assert (l ∈ visited') as Hl by (apply Hsub, list_elem_of_here).
      split_and!.
      * intros x Hx. by apply Hsub, list_elem_of_further.
      * intros x [[= ->]|Hx]%elem_of_cons; [done|].
        apply Hqueue, elem_of_app. by left.
      * intros x Hx. destruct (Hclosed x Hx) as [[->|Hin]%elem_of_cons|Hx']; [|by left|by right].
        right. split.
        -- exists (get_prop sl name). split; [by apply slot_of_cells with o|done].
        -- intros l' Hl'. rewrite (parent_values_cells _ _ _ _ _ Ho Hs Hp) in Hl'.
           apply Hqueue, elem_of_app. by right.
Qed.

(** The slot a search returns is the truthy slot of an object it came to
    from its queue, through parents. *)
Lemma js_search_some h name (R : Loc → Prop) fuel : ∀ visited queue v visited' h',
  (∀ l l', R l → VRef l' ∈ parent_values h l → R l') →
  (∀ l, VRef l ∈ queue → R l) →
  SelfObjectJs.search fuel name visited queue h = Ret (Some v, visited') h' →
  ∃ l, R l ∧ slot_of h l name = Some v ∧ truthy v = true.
Proof.
  induction fuel as [|fuel IH]; intros visited queue v visited' h' Hclosed Hqueue Hsearch;
    [done|].
  destruct queue as [|c queue]; [done|].
  destruct (negb (truthy c) || has visited c) eqn:Hgo.
  - cbn [SelfObjectJs.search] in Hsearch. rewrite Hgo in Hsearch.
    eapply IH; [done| |exact Hsearch].
    intros l Hl. by apply Hqueue, list_elem_of_further.
  - destruct (js_search_visit_inv _ _ _ _ _ _ _ _ Hgo Hsearch)
      as (l & o & sl & -> & Hnew & Ho & Hs & Hrest).
    assert (R l) as Hl by apply Hqueue, list_elem_of_here.
    destruct (truthy (get_prop sl name)) eqn:Hname.
    + destruct Hrest as [[= -> _] _]. exists l.
      split; [done|]. split; [by apply slot_of_cells with o|done].
    + destruct Hrest as (ps & Hp & Hsearch').
      eapply IH; [done| |exact Hsearch'].
      intros l' [Hl'|Hl']%elem_of_app; [by apply Hqueue, list_elem_of_further|].
      apply (Hclosed l); [done|]. by rewrite (parent_values_cells _ _ _ _ _ Ho Hs Hp).
Qed.

(** X21. The parent search of [SelfObject.js], the loop of [sendAMessage]
    and of [sendAMessageWithParameters], is sound both ways: the value it
    returns is what [slots[name]] reads in an ancestor of the receiver (a
    key of the ancestor's slots or a property they inherit from
    [Object.prototype]), and it is truthy; and when it ends without a
    value, it has looked into every ancestor, and [slots[name]] reads a
    falsy value in each of them. Either way the heap is as it was. *)
Theorem search_finds_what_is_there native edition h this o sl ps ms name fuel found visited h' :
  object_at h this o sl ps ms →
  SelfObjectJs.search fuel name [] (map (get_prop sl) ps) h = Ret (found, visited) h' →
  h' = h ∧
  (∀ v, found = Some v →
     ∃ l, ancestor h this l ∧ slot_of h l name = Some v ∧ truthy v = true) ∧
  (found = None →
     (∀ l, ancestor h this l → l ∈ visited ∧ holds_no h name l) ∧
     (truthy (get_prop sl name) = false →
      SelfObjectJs.sendAMessage native edition (S fuel) this name h = Ret VNull h ∧
      ∀ paramObj,
        SelfObjectJs.sendAMessageWithParameters native edition fuel this name paramObj h =
          Ret VNull h)).
Proof.
  intros Hobj Hsearch.
  pose proof (parent_values_object_at _ _ _ _ _ _ Hobj) as Hpv.
  assert (h' = h) as ->.
  { pose proof (js_search_pure fuel name [] (map (get_prop sl) ps) h) as Hpure.
    by rewrite Hsearch in Hpure. }
  split; [done|]. split.
  - intros v ->.
    eapply (js_search_some h name (ancestor h this)); [| |exact Hsearch].
    + intros l l' Hl Hl'. by eapply ancestor_step.
    + intros l Hl. apply ancestor_parent. by rewrite Hpv.
  - intros ->. destruct (js_search_none _ _ _ _ _ _ _ Hsearch) as (_ & Hqueue & Hclosed).
    split.
    + assert (∀ l, ancestor h this l → l ∈ visited) as Hall.
      { induction 1 as [l Hl|l l' _ IH Hl'].
        - apply Hqueue. by rewrite <- Hpv.
        - destruct (Hclosed l IH) as [Hin|[_ Hparents]]; [by apply not_elem_of_nil in Hin|].
          by apply Hparents. }
      intros l Hl. split; [by apply Hall|].
      destruct (Hclosed l (Hall l Hl)) as [Hin|[Hno _]]; [by apply not_elem_of_nil in Hin|done].
    + intros Hname. destruct Hobj as (Ho & Hs & Hp & _). split.
      * cbn [SelfObjectJs.sendAMessage].
        rewrite (bind_load_self _ _ _ _ Ho), (bind_load_slots _ _ _ _ Hs), Hname.
        by rewrite (bind_load_set _ _ _ _ Hp), (bind_Ret _ _ _ _ _ Hsearch).
      * intros p. unfold SelfObjectJs.sendAMessageWithParameters.
        rewrite (bind_load_self _ _ _ _ Ho), (bind_load_slots _ _ _ _ Hs), Hname.
        by rewrite (bind_load_set _ _ _ _ Hp), (bind_Ret _ _ _ _ _ Hsearch).
Qed.

(** X21 on the example: from [A] the search for [x] returns the slot of
    the parent [C]. *)
Lemma search_finds_what_is_there_witness :
  object_at grandparent_world 3 (mkSelfObject 0 1 2 VNull VNull)
    (<["c" := VRef 11]> {["b" := VRef 7]}) ["b"; "c"] [] ∧
  ∃ l, ancestor grandparent_world 3 l ∧
       slot_of grandparent_world l "x" = Some (VRef 23).
Proof.
  split; [exact grandparent_world_A|].
  destruct (proj1 (proj2 (search_finds_what_is_there no_native First _ _ _ _ _ _ "x" 5
                            (Some (VRef 23)) [11; 7] grandparent_world
                            grandparent_world_A ltac:(vm_compute; reflexivity)))
              (VRef 23) eq_refl) as (l & Hl & Hslot & _).
  exists l. exact (conj Hl Hslot).
Defined.
